(** * Battery discharge scheduler (simulated_discharging/discharge_cycle.py)

    A shallow embedding of [BatteryDischargeScheduler]: the schedule and its
    lookup, the CSV schedule loader, the control/sampling loop and the
    shutdown path, together with the properties the specification states
    about them.

    Numbers.  The program works on Python floats.  Every float that is not
    an infinity or a NaN is a rational number and the comparisons [>=], [<]
    on such floats are the comparisons of these rationals, so times and
    currents are modelled in [Q].  The three arithmetic operations of the
    control loop ([current_time - start_time], [current_time +
    logging_interval], [next_log_time - time.time()]) are modelled by the exact
    rational operations; rounding, infinities and NaN are outside the model.
    The statements use these operations only as the formulas the program
    computes (an elapsed time, a deadline, a sleep time) and in comparisons;
    none of them bounds the distance between two numbers.

    Standard output.  The program is embedded at two grains.  In the first
    a [print] returns and leaves a [Print] event; it serves the statements
    about what the program does under a named pattern of device, file and
    clock faults.  In the second (module [Stdout]) a [print] is an outside
    call like the others, which can raise or be interrupted; it serves the
    statements that speak of every exit of [run] and of every outcome of
    [cleanup], which a failing write can change. *)

From Stdlib Require Import List String Ascii Bool ZArith QArith Qminmax Qabs Qround Lia.
From Stdlib Require Import Permutation.
Import ListNotations.

Local Open Scope Q_scope.

(** ** Exceptions and results *)

(** The exception classes the program can meet.  [KeyboardInterrupt] and
    [SystemExit] derive from [BaseException] only; all the others derive from
    [Exception].  [FileNotFoundError] is an [OSError]; [DeviceError] stands
    for whatever [Exception] subclass the device library raises. *)
Inductive exn : Type :=
| KeyboardInterrupt
| SystemExit (code : Z)
| FileNotFoundError
| OSError
| KeyError
| ValueError
| TypeError
| IndexError
| DeviceError.

(** [isinstance(e, Exception)] *)
Definition is_Exception (e : exn) : bool :=
  match e with
  | KeyboardInterrupt | SystemExit _ => false
  | _ => true
  end.

(** Outcome of a computation: a value, a raised exception, or [Timeout] when
    the model's loop fuel ran out (the loop is still running: nothing after it
    has happened yet, no handler and no [finally] block). *)
Inductive result (A : Type) : Type :=
| Ok (a : A)
| Raise (e : exn)
| Timeout.
Arguments Ok {A} a.
Arguments Raise {A} e.
Arguments Timeout {A}.

(** ** Schedule points *)

(** [{'time': time_sec, 'current': current}] *)
Record point : Type := mkPoint { time : Q; current : Q }.

Definition schedule_t := list point.

(** ** [self.schedule.sort(key=lambda x: x['time'])]

    [list.sort] is stable.  On keys that are totally pre-ordered a stable
    sort has exactly one possible result, so the stable insertion sort below
    computes the list Python's sort produces. *)

(** Insert [p] behind every point whose key is not greater than its own. *)
Fixpoint insert_by_time (p : point) (l : schedule_t) : schedule_t :=
  match l with
  | [] => [p]
  | q :: rest =>
      if Qle_bool (time q) (time p)
      then q :: insert_by_time p rest
      else p :: q :: rest
  end.

(** Insert the points of [l], in order, into [acc]. *)
Definition sort_onto (acc l : schedule_t) : schedule_t :=
  fold_left (fun acc p => insert_by_time p acc) l acc.

Definition sort_by_time (l : schedule_t) : schedule_t := sort_onto [] l.

(** Ascending by [time], as a boolean check. *)
Fixpoint is_sorted (l : schedule_t) : bool :=
  match l with
  | [] => true
  | p :: rest =>
      match rest with
      | [] => true
      | q :: _ => Qle_bool (time p) (time q) && is_sorted rest
      end
  end.

(** Points whose key equals [k]. *)
Definition at_time (k : Q) (p : point) : bool := Qeq_bool (time p) k.

(** ** [get_scheduled_current] *)

(** The [for point in self.schedule] loop with its [break]; [cur] is the local
    variable [current]. *)
Fixpoint scan_schedule (pts : schedule_t) (elapsed_time : Q) (cur : Q) : Q :=
  match pts with
  | [] => cur
  | pt :: rest =>
      if Qle_bool (time pt) elapsed_time      (* elapsed_time >= point['time'] *)
      then scan_schedule rest elapsed_time (current pt)
      else cur                                 (* break *)
  end.

(** [self.schedule[0]]: raises [IndexError] on an empty list. *)
Definition index0 (l : schedule_t) : result point :=
  match nth_error l 0 with
  | Some p => Ok p
  | None => Raise IndexError
  end.

Definition get_scheduled_current (schedule : schedule_t) (elapsed_time : Q)
  : result Q :=
  match schedule with
  | [] => Ok 0                                 (* if not self.schedule *)
  | _ :: _ =>
      match index0 schedule with
      | Ok p0 => Ok (scan_schedule schedule elapsed_time (current p0))
      | Raise e => Raise e
      | Timeout => Timeout
      end
  end.

(** The lookup rule in the specification's words: the setpoint of the last
    point whose offset is [<= elapsed]; the first point's setpoint when no
    offset has been reached; [0] for the empty schedule. *)
Definition reached (elapsed : Q) (p : point) : bool := Qle_bool (time p) elapsed.

Definition last_reached (sched : schedule_t) (elapsed : Q) : option point :=
  match filter (reached elapsed) sched with
  | [] => None
  | p :: others => Some (last others p)
  end.

Definition CurrentAt_spec (sched : schedule_t) (elapsed : Q) : Q :=
  match sched with
  | [] => 0
  | first :: _ =>
      match last_reached sched elapsed with
      | Some p => current p
      | None => current first
      end
  end.

(** ** [float(...)] on CSV cells

    [csv.DictReader] yields one dict per data row, keyed by the header's field
    names.  A row shorter than the header maps the missing fields to [None];
    a field name that is not in the header is absent from the dict. *)
Definition row := list (string * option string).

(** [row[key]]: [KeyError] when the key is absent. *)
Fixpoint getitem (r : row) (key : string) : result (option string) :=
  match r with
  | [] => Raise KeyError
  | (k, v) :: rest => if String.eqb k key then Ok v else getitem rest key
  end.

Definition is_space (c : ascii) : bool :=
  let n := nat_of_ascii c in
  (Nat.eqb n 32 || (Nat.leb 9 n && Nat.leb n 13))%bool.

Definition digit_of (c : ascii) : option Z :=
  let n := nat_of_ascii c in
  if (Nat.leb 48 n && Nat.leb n 57)%bool then Some (Z.of_nat (n - 48)) else None.

Fixpoint lstrip (cs : list ascii) : list ascii :=
  match cs with
  | c :: rest => if is_space c then lstrip rest else cs
  | [] => []
  end.

Definition strip (cs : list ascii) : list ascii :=
  rev (lstrip (rev (lstrip cs))).

(** Reads a run of decimal digits: their value, their number, the rest. *)
Fixpoint read_digits (cs : list ascii) (acc : Z) (count : nat)
  : Z * nat * list ascii :=
  match cs with
  | c :: rest =>
      match digit_of c with
      | Some d => read_digits rest (10 * acc + d)%Z (S count)
      | None => (acc, count, cs)
      end
  | [] => (acc, count, [])
  end.

Definition parse_unsigned (cs : list ascii) : option Q :=
  let '(i, ni, rest) := read_digits cs 0%Z 0%nat in
  match rest with
  | [] => if Nat.ltb 0 ni then Some (inject_Z i) else None
  | c :: rest' =>
      if Ascii.eqb c "."%char then
        let '(f, nf, rest'') := read_digits rest' 0%Z 0%nat in
        match rest'' with
        | [] =>
            if Nat.ltb 0 (ni + nf) then
              let scale := (10 ^ Z.of_nat nf)%Z in
              Some (Qmake (i * scale + f) (Z.to_pos scale))
            else None
        | _ :: _ => None
        end
      else None
  end.

(** The builtin [float] on a string, for plain decimal literals: optional
    surrounding white space, an optional sign, digits with an optional
    fractional part.  An answer [Some q] is the number Python reads (up to
    the rounding of the header).  An answer [None] is not by itself a
    rejection by Python, which also reads exponents, underscores, [inf],
    [nan] and the digits of other scripts: statements that conclude from a
    failed conversion take it from [row_failure] below, whose strings Python
    rejects as well. *)
Definition float_of_string (s : string) : option Q :=
  match strip (list_ascii_of_string s) with
  | c :: rest =>
      if Ascii.eqb c "-"%char then option_map Qopp (parse_unsigned rest)
      else if Ascii.eqb c "+"%char then parse_unsigned rest
      else parse_unsigned (c :: rest)
  | [] => None
  end.

(** [float(v)] for a DictReader cell: [TypeError] on [None], [ValueError] on
    a string that is not a number. *)
Definition py_float (v : option string) : result Q :=
  match v with
  | None => Raise TypeError
  | Some s =>
      match float_of_string s with
      | Some q => Ok q
      | None => Raise ValueError
      end
  end.

(** [float(row[key])] *)
Definition float_field (r : row) (key : string) : result Q :=
  match getitem r key with
  | Ok v => py_float v
  | Raise e => Raise e
  | Timeout => Timeout
  end.

(** The body of the [for row in reader] loop, up to the point it appends. *)
Definition parse_row (r : row) : result point :=
  match float_field r "time_seconds" with
  | Ok time_sec =>
      match float_field r "current_amps" with
      | Ok cur => Ok (mkPoint time_sec cur)
      | Raise e => Raise e
      | Timeout => Timeout
      end
  | Raise e => Raise e
  | Timeout => Timeout
  end.

(** Row [r] passes both [float(...)] conversions and yields point [p]. *)
Definition parses (r : row) (p : point) : Prop := parse_row r = Ok p.

(** Characters of a string that is certainly no number.  Every spelling
    [float] accepts holds a decimal digit or spells an infinity or a NaN
    ([inf], [infinity], [nan], in either case: each with the letter n), and
    the digits of other scripts lie outside ASCII.  A string of ASCII
    characters that are neither a digit nor the letter n is therefore rejected
    with [ValueError]. *)
Definition non_numeric_char (c : ascii) : bool :=
  let n := nat_of_ascii c in
  (Nat.ltb n 128
   && negb (Nat.leb 48 n && Nat.leb n 57)
   && negb (Nat.eqb n 110 || Nat.eqb n 78))%bool.

Definition non_numeric (s : string) : bool :=
  forallb non_numeric_char (list_ascii_of_string s).

(** [float(row[key])] certainly raises: the key is not in the header
    ([KeyError]), the row has no cell for it ([TypeError]), or the cell is
    certainly no number ([ValueError]). *)
Definition cell_failure (r : row) (key : string) : option exn :=
  match getitem r key with
  | Raise e => Some e
  | Ok None => Some TypeError
  | Ok (Some s) => if non_numeric s then Some ValueError else None
  | Timeout => None
  end.

(** The loop body certainly raises on this row, and what: the first
    conversion fails, or it succeeds and the second fails. *)
Definition row_failure (r : row) : option exn :=
  match cell_failure r "time_seconds" with
  | Some e => Some e
  | None =>
      match float_field r "time_seconds" with
      | Ok _ => cell_failure r "current_amps"
      | _ => None
      end
  end.

(** What [load_schedule] ends with when [e] is raised inside its [try]
    block: the two [except] clauses turn three classes into [sys.exit(1)]. *)
Definition load_error (e : exn) : exn :=
  match e with
  | FileNotFoundError | KeyError | ValueError => SystemExit 1
  | _ => e
  end.

(** ** The scheduler object and the outside world *)

(** The attributes [__init__] sets.  [load] is [None] or the [KELSerial]
    handle, which is identified by the port it was opened on. *)
Record scheduler : Type := mkScheduler {
  port : string;
  schedule_file : string;
  log_file : string;
  schedule : schedule_t;
  load : option string;
  running : bool;
  logging_interval : Q
}.

(** [BatteryDischargeScheduler(port, schedule_file, log_file, logging_interval)] *)
Definition init (port schedule_file log_file : string) (logging_interval : Q)
  : scheduler :=
  mkScheduler port schedule_file log_file [] None false logging_interval.

Definition set_schedule (v : schedule_t) (o : scheduler) : scheduler :=
  mkScheduler (port o) (schedule_file o) (log_file o) v (load o) (running o)
    (logging_interval o).
Definition set_load (v : option string) (o : scheduler) : scheduler :=
  mkScheduler (port o) (schedule_file o) (log_file o) (schedule o) v (running o)
    (logging_interval o).
Definition set_running (v : bool) (o : scheduler) : scheduler :=
  mkScheduler (port o) (schedule_file o) (log_file o) (schedule o) (load o) v
    (logging_interval o).

(** What the program prints. *)
Inductive message : Type :=
| MsgLoading | MsgLoaded (n : nat) | MsgPoint (p : point)
| MsgNotFound | MsgParseError (e : exn) | MsgExpectedFormat
| MsgInitialized
| MsgConnecting | MsgConnected | MsgStatus | MsgSettingMode | MsgTurningOn
| MsgStarting | MsgPressCtrlC
| MsgSample (elapsed voltage amps power : Q)
| MsgStopping | MsgError (e : exn)
| MsgTurningOff | MsgTurnedOff | MsgCleanupError (e : exn)
| MsgLoggedTo (path : string).

(** Calls that leave the program: the device library, the file system, the
    clock, the standard output. *)
Inductive op : Type :=
| Connect (p : string)            (* KELSerial(port) and its __enter__ *)
| Release                         (* KELSerial.__exit__ at the end of the with block *)
| GetModel                        (* self.load.model *)
| GetStatus                       (* self.load.status *)
| SetCurrent (amps : Q)           (* self.load.current = amps *)
| InputOn                         (* self.load.input.on() *)
| InputOff                        (* self.load.input.off() *)
| MeasureVoltage                  (* self.load.measured_voltage *)
| MeasureCurrent                  (* self.load.measured_current *)
| MeasurePower                    (* self.load.measured_power *)
| ReadSchedule (path : string)    (* open(schedule_file) and the DictReader rows *)
| InitLog (path : string)         (* open(log_file, 'w') and the header row *)
| AppendLog (path : string) (elapsed voltage amps power : Q)
| Clock                           (* time.time() *)
| Sleep (seconds : Q)             (* time.sleep(seconds) *)
| Say (m : message).              (* print(...), as a write to sys.stdout *)

(** One observable step: an outside call with the exception it raised, if any,
    or a printed line. *)
Inductive event : Type :=
| Call (o : op) (raised : option exn)
| Print (m : message).

(** The environment answers the [n]-th outside call of a run: whether it
    raises ([fault]; a [KeyboardInterrupt] is delivered at such a call), and
    what it returns when it is a clock read, a measurement or a read of the
    schedule file. *)
Record env : Type := mkEnv {
  fault : nat -> option exn;
  clock : nat -> Q;
  reading : nat -> Q;
  csv_rows : nat -> list row
}.

(** Program state: the scheduler object and the number of outside calls made. *)
Record state : Type := mkState { self : scheduler; calls : nat }.

(** What a computation leaves behind: its result, the state, the events it
    produced in order. *)
Record outcome (A : Type) : Type := mkOut {
  res : result A;
  post : state;
  events : list event
}.
Arguments mkOut {A} _ _ _.
Arguments res {A} _.
Arguments post {A} _.
Arguments events {A} _.

Definition M (A : Type) : Type := state -> outcome A.

Definition ret {A} (a : A) : M A := fun s => mkOut (Ok a) s [].

Definition raise {A} (e : exn) : M A := fun s => mkOut (Raise e) s [].

Definition timeout {A} : M A := fun s => mkOut Timeout s [].

Definition bind {A B} (m : M A) (f : A -> M B) : M B :=
  fun s =>
    match m s with
    | mkOut (Ok a) s1 evs1 =>
        match f a s1 with
        | mkOut r s2 evs2 => mkOut r s2 (evs1 ++ evs2)
        end
    | mkOut (Raise e) s1 evs1 => mkOut (Raise e) s1 evs1
    | mkOut Timeout s1 evs1 => mkOut Timeout s1 evs1
    end.

Declare Scope py_scope.
Delimit Scope py_scope with py.
Notation "x <- m ;; k" := (bind m (fun x => k))
  (at level 61, m at next level, right associativity) : py_scope.
Notation "m ;; k" := (bind m (fun _ => k))
  (at level 61, right associativity) : py_scope.
Local Open Scope py_scope.

Definition lift {A} (r : result A) : M A := fun s => mkOut r s [].

(** [print(...)], taken to return; module [Stdout] below has the write that
    can fail. *)
Definition print (m : message) : M unit := fun s => mkOut (Ok tt) s [Print m].

Definition get_self : M scheduler := fun s => mkOut (Ok (self s)) s [].

Definition modify_self (f : scheduler -> scheduler) : M unit :=
  fun s => mkOut (Ok tt) (mkState (f (self s)) (calls s)) [].

(** [try: body  except ...: handler].  [handler e] is [None] when no
    [except] clause matches [e]. *)
Definition try_except {A} (body : M A) (handler : exn -> option (M A)) : M A :=
  fun s =>
    match body s with
    | mkOut (Raise e) s1 evs1 =>
        match handler e with
        | Some h =>
            match h s1 with
            | mkOut r s2 evs2 => mkOut r s2 (evs1 ++ evs2)
            end
        | None => mkOut (Raise e) s1 evs1
        end
    | o => o
    end.

(** [try: body  finally: fin].  An exception of [fin] replaces the pending
    result of [body]. *)
Definition try_finally {A} (body : M A) (fin : M unit) : M A :=
  fun s =>
    match body s with
    | mkOut Timeout s1 evs1 => mkOut Timeout s1 evs1
    | mkOut r s1 evs1 =>
        match fin s1 with
        | mkOut (Ok _) s2 evs2 => mkOut r s2 (evs1 ++ evs2)
        | mkOut (Raise e) s2 evs2 => mkOut (Raise e) s2 (evs1 ++ evs2)
        | mkOut Timeout s2 evs2 => mkOut Timeout s2 (evs1 ++ evs2)
        end
    end.

Section Program.

Variable E : env.

(** An outside call: the environment decides whether it raises.  Returns the
    call's index, under which the environment keeps the value it returns. *)
Definition call (o : op) : M nat :=
  fun s =>
    let n := calls s in
    let s' := mkState (self s) (S n) in
    match fault E n with
    | None => mkOut (Ok n) s' [Call o None]
    | Some e => mkOut (Raise e) s' [Call o (Some e)]
    end.

Definition time_time : M Q := n <- call Clock ;; ret (clock E n).

Definition measure (o : op) : M Q := n <- call o ;; ret (reading E n).

(** ** [load_schedule] *)

(** The [for row in reader] loop: rows before a failing one stay appended. *)
Fixpoint append_rows (rows : list row) : M unit :=
  match rows with
  | [] => ret tt
  | r :: rest =>
      pt <- lift (parse_row r) ;;
      modify_self (fun o => set_schedule (schedule o ++ [pt]) o) ;;
      append_rows rest
  end.

Fixpoint print_points (pts : schedule_t) : M unit :=
  match pts with
  | [] => ret tt
  | p :: rest => print (MsgPoint p) ;; print_points rest
  end.

Definition load_schedule : M unit :=
  print MsgLoading ;;
  try_except
    (o <- get_self ;;
     n <- call (ReadSchedule (schedule_file o)) ;;
     append_rows (csv_rows E n) ;;
     modify_self (fun o => set_schedule (sort_by_time (schedule o)) o) ;;
     o <- get_self ;;
     print (MsgLoaded (List.length (schedule o))) ;;
     print_points (schedule o))
    (fun e =>
       match e with
       | FileNotFoundError =>
           Some (print MsgNotFound ;; raise (SystemExit 1))
       | KeyError | ValueError =>
           Some (print (MsgParseError e) ;; print MsgExpectedFormat ;;
                 raise (SystemExit 1))
       | _ => None
       end).

(** ** [initialize_log_file] *)
Definition initialize_log_file : M unit :=
  o <- get_self ;;
  call (InitLog (log_file o)) ;;
  print MsgInitialized.

(** ** [run] and [cleanup] *)

(** [max(0, x)] *)
Definition max0 (x : Q) : Q := if Qle_bool x 0 then 0 else x.

(** One pass through the body of [while self.running].  [start_time] and
    [next_log_time] are the locals of [run]; the new [next_log_time] is
    returned. *)
Definition tick (start_time next_log_time : Q) : M Q :=
  current_time <- time_time ;;
  let elapsed := current_time - start_time in
  o <- get_self ;;
  scheduled_current <- lift (get_scheduled_current (schedule o) elapsed) ;;
  call (SetCurrent scheduled_current) ;;
  next_log_time' <-
    (if Qle_bool next_log_time current_time then
       let next := current_time + logging_interval o in
       voltage <- measure MeasureVoltage ;;
       amps <- measure MeasureCurrent ;;
       power <- measure MeasurePower ;;
       call (AppendLog (log_file o) elapsed voltage amps power) ;;
       print (MsgSample elapsed voltage amps power) ;;
       ret next
     else ret next_log_time) ;;
  now <- time_time ;;
  call (Sleep (max0 (next_log_time' - now))) ;;
  ret next_log_time'.

(** [while self.running: ...], at most [fuel] passes. *)
Fixpoint loop (fuel : nat) (start_time next_log_time : Q) : M unit :=
  o <- get_self ;;
  if running o then
    match fuel with
    | O => timeout
    | S fuel' =>
        next_log_time' <- tick start_time next_log_time ;;
        loop fuel' start_time next_log_time'
    end
  else ret tt.

(** [with KELSerial(self.port) as self.load: body].  The handle is bound
    once the constructor and [__enter__] have returned; [__exit__] runs however
    the body ends and does not swallow the body's exception. *)
(** [__exit__] at the end of the [with] block. *)
Definition release : M unit := call Release ;; ret tt.

Definition with_KELSerial {A} (body : M A) : M A :=
  o <- get_self ;;
  call (Connect (port o)) ;;
  modify_self (set_load (Some (port o))) ;;
  try_finally body release.

(** The statements inside the [with] block. *)
Definition session (fuel : nat) : M unit :=
  call GetModel ;;
  print MsgConnected ;;
  call GetStatus ;;
  print MsgStatus ;;
  print MsgSettingMode ;;
  call (SetCurrent 0) ;;
  print MsgTurningOn ;;
  call InputOn ;;
  initialize_log_file ;;
  print MsgStarting ;;
  print MsgPressCtrlC ;;
  start_time <- time_time ;;
  modify_self (set_running true) ;;
  loop fuel start_time start_time.

(** The statements of the [with] block that follow [self.load.input.on()]. *)
Definition session_logging (fuel : nat) : M unit :=
  initialize_log_file ;;
  print MsgStarting ;;
  print MsgPressCtrlC ;;
  start_time <- time_time ;;
  modify_self (set_running true) ;;
  loop fuel start_time start_time.

(** The [try] block of [cleanup]. *)
Definition turn_off : M unit :=
  print MsgTurningOff ;;
  call (SetCurrent 0) ;;
  call InputOff ;;
  print MsgTurnedOff.

Definition cleanup : M unit :=
  o <- get_self ;;
  (match load o with
   | Some _ =>
       try_except turn_off
         (fun e => if is_Exception e
                   then Some (print (MsgCleanupError e))
                   else None)
   | None => ret tt
   end) ;;
  modify_self (set_running false) ;;
  print (MsgLoggedTo (log_file o)).

(** The [except] clauses of [run]. *)
Definition run_handler (e : exn) : option (M unit) :=
  match e with
  | KeyboardInterrupt => Some (print MsgStopping)
  | _ => if is_Exception e
         then Some (print (MsgError e) ;; raise e)
         else None
  end.

(** The guarded part of [run]: the [try] block with its [except] clauses. *)
Definition guarded (fuel : nat) : M unit :=
  try_except (with_KELSerial (session fuel)) run_handler.

Definition run (fuel : nat) : M unit :=
  print MsgConnecting ;;
  try_finally (guarded fuel) cleanup.

End Program.

(** ** The device, as the commands that reached it leave it *)

Record device : Type := mkDevice { setpoint : Q; output : bool }.

(** A command that raised is taken not to have been applied. *)
Definition apply_event (d : device) (ev : event) : device :=
  match ev with
  | Call (SetCurrent a) None => mkDevice a (output d)
  | Call InputOn None => mkDevice (setpoint d) true
  | Call InputOff None => mkDevice (setpoint d) false
  | _ => d
  end.

Definition device_after (d : device) (evs : list event) : device :=
  fold_left apply_event evs d.

(** Energized: output enabled with a non-zero current setpoint. *)
Definition energized (d : device) : bool :=
  (output d && negb (Qeq_bool (setpoint d) 0))%bool.

(** Zero current and output disabled. *)
Definition safe (d : device) : bool :=
  (Qeq_bool (setpoint d) 0 && negb (output d))%bool.

(** ** Shorthands for the statements *)

(** [s] with [self.schedule] replaced. *)
Definition with_schedule (v : schedule_t) (s : state) : state :=
  mkState (set_schedule v (self s)) (calls s).

(** [s] after [self.running = False], [n] outside calls made. *)
Definition stopped (s : state) (n : nat) : state :=
  mkState (set_running false (self s)) n.

(** [s] once [KELSerial(self.port)] has been bound to [self.load]. *)
Definition connected (s : state) : state :=
  mkState (set_load (Some (port (self s))) (self s)) (S (calls s)).

(** Commands that can energize the load. *)
Definition energizes (ev : event) : bool :=
  match ev with
  | Call (SetCurrent _) _ | Call InputOn _ => true
  | _ => false
  end.

(** A computation that leaves [self.load] as it found it. *)
Definition keeps_load {A} (m : M A) : Prop :=
  forall s, load (self (post (m s))) = load (self s).

(** A step on which nothing raised. *)
Definition ok_event (ev : event) : bool :=
  match ev with
  | Call _ (Some _) => false
  | _ => true
  end.

(** The only call that raised, if any, is the last event, and its exception
    is the result. *)
Definition fails_last {A} (o : outcome A) : Prop :=
  match res o with
  | Raise e =>
      exists before c,
        events o = before ++ [Call c (Some e)]
        /\ forallb ok_event before = true
  | _ => forallb ok_event (events o) = true
  end.

(** A computation that handles no exception of an outside call. *)
Definition fault_fatal {A} (m : M A) : Prop := forall s, fails_last (m s).

(** ** Concrete data used in examples *)

(** The schedule of the module docstring. *)
Definition example_schedule : schedule_t :=
  [ mkPoint 0 1.0; mkPoint 300 2.0; mkPoint 600 1.5; mkPoint 900 0.5 ].

(** An environment in which nothing fails; the clock advances by half a
    second per outside call. *)
Definition calm : env :=
  mkEnv (fun _ => None) (fun n => inject_Z (Z.of_nat n) / 2) (fun _ => 3.7)
        (fun _ => []).

(** [fault]s at the given call indices, otherwise like [calm]. *)
Fixpoint faults_at (l : list (nat * exn)) (n : nat) : option exn :=
  match l with
  | [] => None
  | (k, e) :: rest => if Nat.eqb k n then Some e else faults_at rest n
  end.

Definition with_faults (l : list (nat * exn)) : env :=
  mkEnv (faults_at l) (clock calm) (reading calm) (csv_rows calm).

(** A scheduler that has loaded [example_schedule]. *)
Definition fresh : state :=
  mkState (set_schedule example_schedule
             (init "/dev/ttyACM0" "schedule.csv" "voltage_log.csv" 1)) 0.

(** A complete row of the schedule file. *)
Definition csv_row (time_seconds current_amps : string) : row :=
  [ ("time_seconds"%string, Some time_seconds);
    ("current_amps"%string, Some current_amps) ].

(** An environment whose schedule file holds the given rows. *)
Definition with_rows (rows : list row) : env :=
  mkEnv (fault calm) (clock calm) (reading calm) (fun _ => rows).

(** A scheduler as [main] builds it. *)
Definition created : state :=
  mkState (init "/dev/ttyACM0" "schedule.csv" "voltage_log.csv" 1) 0.

(** The file holds (300,2.0) at the first load and (0,1.0) at the second. *)
Definition two_files : env :=
  mkEnv (fault calm) (clock calm) (reading calm)
        (fun n => match n with
                  | O => [csv_row "300" "2.0"]
                  | _ => [csv_row "0" "1.0"]
                  end).

(** The scheduler inside the loop, seven outside calls into the session. *)
Definition in_loop : state :=
  mkState (set_running true (set_load (Some "/dev/ttyACM0"%string) (self fresh)))
          7.

(** ** Invariants of computations *)

(** Every event the computation produces passes the test [P]. *)
Definition events_all (P : event -> bool) {A} (m : M A) : Prop :=
  forall s, forallb P (events (m s)) = true.

(** The computation leaves the attribute(s) [proj] of [self] as found. *)
Definition preserves {X} (proj : scheduler -> X) {A} (m : M A) : Prop :=
  forall s, proj (self (post (m s))) = proj (self s).

(** Every attribute of the scheduler but [schedule]. *)
Definition but_schedule (o : scheduler)
  : string * string * string * option string * bool * Q :=
  (port o, schedule_file o, log_file o, load o, running o, logging_interval o).

(** Reading the schedule file and printing; nothing else. *)
Definition reads_schedule_only (ev : event) : bool :=
  match ev with
  | Call (ReadSchedule _) _ | Print _ => true
  | _ => false
  end.

(** The offset determines the point: no two different points share one. *)
Definition offsets_distinct (l : schedule_t) : Prop :=
  forall p q, In p l -> In q l -> time p == time q -> p = q.

(** [time.sleep] accepts the duration (a negative one raises [ValueError]). *)
Definition sleep_accepted (ev : event) : bool :=
  match ev with
  | Call (Sleep d) _ => Qle_bool 0 d
  | _ => true
  end.

(** A printed line. *)
Definition is_print (ev : event) : bool :=
  match ev with
  | Print _ => true
  | Call _ _ => false
  end.

(** An exception a computation ends with was raised by one of its outside
    calls. *)
Definition raise_is_seen {A} (m : M A) : Prop :=
  forall s e, res (m s) = Raise e ->
    exists c, In (Call c (Some e)) (events (m s)).

(** With the first raising outside call at index [k], raising [e]: a
    computation started at or before that call either ends in [e] right after
    it, or has not come to it yet; when it is out of fuel it has made at least
    [n] outside calls. *)
Definition halts_at (E : env) (k : nat) (e : exn) (n : nat) {A} (m : M A)
  : Prop :=
  forall s, (calls s <= k)%nat ->
    (calls s <= calls (post (m s)))%nat
    /\ match res (m s) with
       | Raise e' => e' = e /\ calls (post (m s)) = S k
       | Ok _ => (calls (post (m s)) <= k)%nat
       | Timeout =>
           (calls s + n <= calls (post (m s)))%nat
           /\ (calls (post (m s)) <= k)%nat
       end.

(** Every [input.on()] in [evs] is issued while the setpoint the load last
    accepted is 0 A, starting from a load in state [d]. *)
Fixpoint on_at_zero (d : device) (evs : list event) : bool :=
  match evs with
  | [] => true
  | ev :: rest =>
      (match ev with
       | Call InputOn _ => Qeq_bool (setpoint d) 0
       | _ => true
       end
       && on_at_zero (apply_event d ev) rest)%bool
  end.

(** Not the command that enables the output. *)
Definition not_input_on (ev : event) : bool :=
  match ev with
  | Call InputOn _ => false
  | _ => true
  end.

(** Whatever state the load is in, the computation enables the output only
    at zero current. *)
Definition arms_at_zero {A} (m : M A) : Prop :=
  forall s d, on_at_zero d (events (m s)) = true.

(** ** [main] *)

(** The [Namespace] that [parser.parse_args()] returns: the two optional
    positionals ([nargs='?'], [None] when left out) and [--log] with its
    default filled in.  Parsing the command line itself is [argparse]'s. *)
Record namespace : Type := mkArgs {
  arg_port : option string;
  arg_schedule : option string;
  arg_log : string
}.

(** [not v] for an optional string: [None] and the empty string are falsy. *)
Definition py_not (v : option string) : bool :=
  match v with
  | None => true
  | Some s => String.eqb s ""
  end.

(** What [main] shows: its own two messages, and what the scheduler does. *)
Inductive main_event : Type :=
| PrintHelp                       (* parser.print_help() *)
| PrintUsageError                 (* the "Both port and schedule ..." line *)
| Session (ev : event).

(** [main], from the parsed arguments on.  The scheduler is built with the
    default [logging_interval] of [__init__]; the process has made no outside
    call yet. *)
Definition main (E : env) (fuel : nat) (args : namespace)
  : result unit * list main_event :=
  if (py_not (arg_port args) || py_not (arg_schedule args))%bool then
    (Raise (SystemExit 1), [PrintHelp; PrintUsageError])
  else
    match arg_port args, arg_schedule args with
    | Some p, Some f =>
        let scheduler := init p f (arg_log args) 1 in
        let o := (load_schedule E ;; run E fuel)%py (mkState scheduler 0) in
        (res o, map Session (events o))
    | _, _ => (Raise (SystemExit 1), [PrintHelp; PrintUsageError])
    end.

(** An outside call that reaches the device. *)
Definition device_call (ev : event) : bool :=
  match ev with
  | Call (ReadSchedule _) _ | Call (InitLog _) _ | Call (AppendLog _ _ _ _ _) _
  | Call Clock _ | Call (Sleep _) _ | Call (Say _) _ | Print _ => false
  | Call _ _ => true
  end.

Definition session_device_call (ev : main_event) : bool :=
  match ev with
  | Session ev => device_call ev
  | _ => false
  end.

(** The configuration of the scheduler: every attribute but [load] and
    [running]. *)
Definition configuration (o : scheduler)
  : string * string * string * schedule_t * Q :=
  (port o, schedule_file o, log_file o, schedule o, logging_interval o).

(** ** The log: formatting, and reading it back (plotting.py) *)

(** The character of a decimal digit. *)
Definition digit_char (d : Z) : ascii := ascii_of_nat (48 + Z.to_nat d).

(** The decimal digits of [n >= 0], least significant first, without leading
    zeros; a single zero for 0.  [fuel] bounds the number of digits. *)
Fixpoint digits_rev (fuel : nat) (n : Z) : list ascii :=
  match fuel with
  | O => []
  | S fuel' =>
      digit_char (n mod 10)
        :: (if (n / 10 =? 0)%Z then [] else digits_rev fuel' (n / 10))
  end.

Definition decimal (n : Z) : list ascii :=
  rev (digits_rev (S (Z.to_nat n)) n).

(** The last [width] decimal digits of [n], least significant first. *)
Fixpoint fixed_rev (width : nat) (n : Z) : list ascii :=
  match width with
  | O => []
  | S width' => digit_char (n mod 10) :: fixed_rev width' (n / 10)
  end.

Definition fixed_digits (width : nat) (n : Z) : list ascii :=
  rev (fixed_rev width n).

(** Rounding to the nearest integer, ties to the even one. *)
Definition round_half_even (q : Q) : Z :=
  let lower := Qfloor q in
  match Qcompare (q - inject_Z lower) (1 # 2) with
  | Lt => lower
  | Gt => (lower + 1)%Z
  | Eq => if Z.even lower then lower else (lower + 1)%Z
  end.

(** [f'{x:.<places>f}'] for [places >= 1]: the value rounded to [places]
    decimals (correctly, ties to even), a minus sign for a negative [x], the
    integer part without leading zeros, a point, [places] digits. *)
Definition format_fixed (places : nat) (x : Q) : string :=
  let scale := (10 ^ Z.of_nat places)%Z in
  let scaled := round_half_even (Qabs x * inject_Z scale) in
  string_of_list_ascii
    ((if Qle_bool 0 x then [] else ["-"%char])
     ++ decimal (scaled / scale)
     ++ "."%char :: fixed_digits places (scaled mod scale)).

(** The header row [initialize_log_file] writes. *)
Definition log_fields : list string :=
  ["elapsed_seconds"; "voltage_volts"; "current_amps"; "power_watts"]%string.

(** The row [run] hands to [writer.writerow]. *)
Definition log_record (elapsed voltage amps power : Q) : list string :=
  [format_fixed 3 elapsed; format_fixed 4 voltage; format_fixed 4 amps;
   format_fixed 4 power].

(** The dict [csv.DictReader] makes of a data row: the cells under the field
    names of the header, [None] for the fields a short row lacks.  (Cells
    beyond the header go under the key [None], which no lookup by name
    reaches.  The cells of a log record hold digits, a point and a sign only,
    which [csv] writes and reads back unquoted and unchanged.) *)
Fixpoint dict_row (fieldnames cells : list string) : row :=
  match fieldnames with
  | [] => []
  | k :: ks =>
      match cells with
      | [] => (k, None) :: dict_row ks []
      | c :: cs => (k, Some c) :: dict_row ks cs
      end
  end.

(** The dict plotting.py gets for a record of the log: the header of
    [initialize_log_file] over the row [run] wrote for the sample. *)
Definition log_row (sample : Q * Q * Q * Q) : row :=
  let '(elapsed, voltage, amps, power) := sample in
  dict_row log_fields (log_record elapsed voltage amps power).

(** The [for row in reader] loop of plotting.py, on the two lists it fills.
    An exception ends the script, so the lists are returned only when every
    row converts. *)
Fixpoint read_series (rows : list row) (elapsed_time voltage : list Q)
  : result (list Q * list Q) :=
  match rows with
  | [] => Ok (elapsed_time, voltage)
  | r :: rest =>
      match float_field r "elapsed_seconds" with
      | Ok e =>
          let elapsed_time := elapsed_time ++ [e] in
          match float_field r "voltage_volts" with
          | Ok v => read_series rest elapsed_time (voltage ++ [v])
          | Raise x => Raise x
          | Timeout => Timeout
          end
      | Raise x => Raise x
      | Timeout => Timeout
      end
  end.

(** [l[lo:hi]] for [0 <= lo <= hi]. *)
Definition py_slice {A} (lo hi : nat) (l : list A) : list A :=
  firstn (hi - lo) (skipn lo l).

(** The two series handed to [plt.plot]. *)
Definition plotted (rows : list row) : result (list Q * list Q) :=
  match read_series rows [] [] with
  | Ok (elapsed_time, voltage) =>
      Ok (py_slice 22 180 elapsed_time, py_slice 22 180 voltage)
  | Raise x => Raise x
  | Timeout => Timeout
  end.

(** The number [format_fixed places x] spells. *)
Definition rounded (places : nat) (x : Q) : Q :=
  let scale := (10 ^ Z.of_nat places)%Z in
  let scaled := round_half_even (Qabs x * inject_Z scale) in
  if Qle_bool 0 x then Qmake scaled (Z.to_pos scale)
  else - Qmake scaled (Z.to_pos scale).

(** The elapsed times of the records appended to the log, in order. *)
Definition logged_elapsed (evs : list event) : list Q :=
  flat_map (fun ev => match ev with
                      | Call (AppendLog _ elapsed _ _ _) None => [elapsed]
                      | _ => []
                      end) evs.

(** ** The program with a standard output that can fail

    In the definitions above [print] returns.  In the program a [print] is a
    write to [sys.stdout]: it raises when the stream is closed or the pipe is
    broken, and a [KeyboardInterrupt] can land in it as in any other outside
    call.  The statements about every exit of [run] and every outcome of
    [cleanup] depend on that, so [run] and what it calls are restated here
    with each [print] as an outside call [Say], answered by the environment
    like the others.  Everything else is as above. *)
Module Stdout.

Section Program.

Variable E : env.

(** [print(...)] *)
Definition print (m : message) : M unit := call E (Say m) ;; ret tt.

Definition initialize_log_file : M unit :=
  o <- get_self ;;
  call E (InitLog (log_file o)) ;;
  print MsgInitialized.

Definition tick (start_time next_log_time : Q) : M Q :=
  current_time <- time_time E ;;
  let elapsed := current_time - start_time in
  o <- get_self ;;
  scheduled_current <- lift (get_scheduled_current (schedule o) elapsed) ;;
  call E (SetCurrent scheduled_current) ;;
  next_log_time' <-
    (if Qle_bool next_log_time current_time then
       let next := current_time + logging_interval o in
       voltage <- measure E MeasureVoltage ;;
       amps <- measure E MeasureCurrent ;;
       power <- measure E MeasurePower ;;
       call E (AppendLog (log_file o) elapsed voltage amps power) ;;
       print (MsgSample elapsed voltage amps power) ;;
       ret next
     else ret next_log_time) ;;
  now <- time_time E ;;
  call E (Sleep (max0 (next_log_time' - now))) ;;
  ret next_log_time'.

Fixpoint loop (fuel : nat) (start_time next_log_time : Q) : M unit :=
  o <- get_self ;;
  if running o then
    match fuel with
    | O => timeout
    | S fuel' =>
        next_log_time' <- tick start_time next_log_time ;;
        loop fuel' start_time next_log_time'
    end
  else ret tt.

Definition session (fuel : nat) : M unit :=
  call E GetModel ;;
  print MsgConnected ;;
  call E GetStatus ;;
  print MsgStatus ;;
  print MsgSettingMode ;;
  call E (SetCurrent 0) ;;
  print MsgTurningOn ;;
  call E InputOn ;;
  initialize_log_file ;;
  print MsgStarting ;;
  print MsgPressCtrlC ;;
  start_time <- time_time E ;;
  modify_self (set_running true) ;;
  loop fuel start_time start_time.

Definition turn_off : M unit :=
  print MsgTurningOff ;;
  call E (SetCurrent 0) ;;
  call E InputOff ;;
  print MsgTurnedOff.

Definition cleanup : M unit :=
  o <- get_self ;;
  (match load o with
   | Some _ =>
       try_except turn_off
         (fun e => if is_Exception e
                   then Some (print (MsgCleanupError e))
                   else None)
   | None => ret tt
   end) ;;
  modify_self (set_running false) ;;
  print (MsgLoggedTo (log_file o)).

Definition run_handler (e : exn) : option (M unit) :=
  match e with
  | KeyboardInterrupt => Some (print MsgStopping)
  | _ => if is_Exception e
         then Some (print (MsgError e) ;; raise e)
         else None
  end.

Definition guarded (fuel : nat) : M unit :=
  try_except (with_KELSerial E (session fuel)) run_handler.

Definition run (fuel : nat) : M unit :=
  print MsgConnecting ;;
  try_finally (guarded fuel) cleanup.

End Program.

End Stdout.

(** The state in which the [finally] clause of [run] calls [cleanup]: what
    the [try] block and its handlers leave behind, the first line written. *)
Definition at_cleanup (E : env) (fuel : nat) (s : state) : state :=
  post (Stdout.guarded E fuel (mkState (self s) (S (calls s)))).

(** A write to the standard output. *)
Definition says (ev : event) : bool :=
  match ev with
  | Call (Say _) _ => true
  | _ => false
  end.

(** What can follow the [with] block: writes to the standard output and the
    two shutdown commands.  No clock read, measurement, log write or sleep:
    no further pass of the loop. *)
Definition after_session (ev : event) : bool :=
  match ev with
  | Call (Say _) _ => true
  | Call (SetCurrent a) _ => Qeq_bool a 0
  | Call InputOff _ => true
  | _ => false
  end.

(** Not a write to the log. *)
Definition no_append (ev : event) : bool :=
  match ev with
  | Call (AppendLog _ _ _ _ _) _ => false
  | _ => true
  end.

(** * Properties *)

(** ** Order facts on keys *)

Lemma Qle_bool_trans (a b c : Q) :
  Qle_bool a b = true -> Qle_bool b c = true -> Qle_bool a c = true.
Proof.
  rewrite !Qle_bool_iff. intros Hab Hbc. now apply Qle_trans with b.
Qed.

Lemma Qle_bool_false_lt (a b : Q) : Qle_bool a b = false -> b < a.
Proof.
  intros H. apply Qnot_le_lt. intros Hle.
  apply Qle_bool_iff in Hle. congruence.
Qed.

Lemma Qlt_Qle_bool_false (a b : Q) : b < a -> Qle_bool a b = false.
Proof.
  intros H. destruct (Qle_bool a b) eqn:Hle; [|reflexivity].
  apply Qle_bool_iff in Hle. exfalso. now apply (Qlt_not_le b a).
Qed.

Lemma Qle_bool_total (a b : Q) : Qle_bool a b = false -> Qle_bool b a = true.
Proof.
  intros H. apply Qle_bool_iff, Qlt_le_weak. now apply Qle_bool_false_lt.
Qed.

(** In a sorted list the head's key is below every later key. *)
Lemma is_sorted_cons (p : point) (l : schedule_t) :
  is_sorted (p :: l) = true ->
  is_sorted l = true /\ Forall (fun q => Qle_bool (time p) (time q) = true) l.
Proof.
  revert p. induction l as [|q l IH]; intros p H.
  - split; [reflexivity | constructor].
  - cbn [is_sorted] in H. apply andb_true_iff in H as [Hpq Hs].
    split; [exact Hs|].
    constructor; [exact Hpq|].
    destruct (IH q Hs) as [_ Hall].
    eapply Forall_impl; [|exact Hall].
    intros r Hr. cbn beta in Hr. now apply Qle_bool_trans with (time q).
Qed.

Lemma is_sorted_cons_intro (p : point) (l : schedule_t) :
  is_sorted l = true ->
  Forall (fun q => Qle_bool (time p) (time q) = true) l ->
  is_sorted (p :: l) = true.
Proof.
  intros Hs Hall. destruct l as [|q l]; [reflexivity|].
  cbn [is_sorted]. inversion Hall; subst.
  apply andb_true_iff. split; assumption.
Qed.

(** ** Lookup *)

Lemma filter_reached_none (elapsed : Q) (p : point) (l : schedule_t) :
  Qle_bool (time p) elapsed = false ->
  Forall (fun q => Qle_bool (time p) (time q) = true) l ->
  filter (reached elapsed) l = [].
Proof.
  intros Hp Hall. induction Hall as [|q l Hq _ IH]; [reflexivity|].
  cbn [filter]. unfold reached at 1.
  destruct (Qle_bool (time q) elapsed) eqn:Hqe; [|exact IH].
  rewrite (Qle_bool_trans _ _ _ Hq Hqe) in Hp. discriminate.
Qed.

Lemma last_cons_default (l : schedule_t) (a d : point) :
  last (a :: l) d = last l a.
Proof.
  revert a d. induction l as [|b l IH]; intros a d; [reflexivity|].
  change (last (a :: b :: l) d) with (last (b :: l) d).
  now rewrite !IH.
Qed.

Lemma last_reached_cons (elapsed : Q) (p : point) (l : schedule_t) :
  reached elapsed p = true ->
  last_reached (p :: l) elapsed =
    match last_reached l elapsed with
    | Some q => Some q
    | None => Some p
    end.
Proof.
  intros Hp. unfold last_reached. cbn [filter]. rewrite Hp.
  destruct (filter (reached elapsed) l) as [|q f]; [reflexivity|].
  now rewrite last_cons_default.
Qed.

(** On a sorted schedule the scan with [break] finds the last reached point. *)
Lemma scan_schedule_sorted (sched : schedule_t) (elapsed cur : Q) :
  is_sorted sched = true ->
  scan_schedule sched elapsed cur =
    match last_reached sched elapsed with
    | Some p => current p
    | None => cur
    end.
Proof.
  revert cur. induction sched as [|p l IH]; intros cur Hs; [reflexivity|].
  destruct (is_sorted_cons _ _ Hs) as [Hl Hall].
  cbn [scan_schedule]. destruct (Qle_bool (time p) elapsed) eqn:Hp.
  - rewrite (IH _ Hl), (last_reached_cons _ _ _ Hp).
    now destruct (last_reached l elapsed).
  - unfold last_reached. cbn [filter]. unfold reached at 1. rewrite Hp.
    now rewrite (filter_reached_none _ _ _ Hp Hall).
Qed.

(** C2.  On a schedule sorted by offset, [get_scheduled_current] follows the
    specification's lookup rule: the setpoint of the last point whose offset is
    at most the elapsed time, the first point's setpoint when none has been
    reached, and 0 on the empty schedule.  On the schedule
    (0,1.0) (300,2.0) (600,1.5) (900,0.5) it answers 1.0 at 0 and at 299.999,
    2.0 at 300 and 0.5 at 1e9. *)
Theorem get_scheduled_current_lookup_rule
  (sched : schedule_t) (elapsed : Q) (Hsorted : is_sorted sched = true) :
  get_scheduled_current sched elapsed = Ok (CurrentAt_spec sched elapsed)
  /\ get_scheduled_current [] elapsed = Ok 0
  /\ get_scheduled_current example_schedule 0 = Ok 1.0
  /\ get_scheduled_current example_schedule 299.999 = Ok 1.0
  /\ get_scheduled_current example_schedule 300 = Ok 2.0
  /\ get_scheduled_current example_schedule 1e9 = Ok 0.5.
Proof.
  split; [|repeat split; reflexivity].
  destruct sched as [|p l]; [reflexivity|].
  unfold get_scheduled_current, index0, CurrentAt_spec. cbn [nth_error].
  now rewrite scan_schedule_sorted.
Qed.

Lemma get_scheduled_current_lookup_rule_witness :
  is_sorted example_schedule = true
  /\ get_scheduled_current example_schedule 650 = Ok 1.5.
Proof.
  split; [reflexivity|].
  exact (proj1 (get_scheduled_current_lookup_rule example_schedule 650 eq_refl)).
Defined.

(** The emptiness test guards [self.schedule[0]]. *)
Lemma get_scheduled_current_returns (sched : schedule_t) (elapsed : Q) :
  exists v, get_scheduled_current sched elapsed = Ok v.
Proof.
  destruct sched as [|p l]; [now exists 0|].
  unfold get_scheduled_current, index0. cbn [nth_error]. eauto.
Qed.

(** C9.  [get_scheduled_current] returns a value on every schedule and every
    elapsed time, negative ones included, and never raises; on a non-empty
    schedule it returns the first point's setpoint whenever the elapsed time
    is below every offset. *)
Theorem get_scheduled_current_total (sched : schedule_t) (elapsed : Q) :
  (exists v, get_scheduled_current sched elapsed = Ok v)
  /\ (forall first rest,
        sched = first :: rest ->
        (forall q, In q sched -> elapsed < time q) ->
        get_scheduled_current sched elapsed = Ok (current first)).
Proof.
  split; [apply get_scheduled_current_returns|].
  - intros first rest -> Hbelow.
    unfold get_scheduled_current, index0. cbn [nth_error scan_schedule].
    now rewrite (Qlt_Qle_bool_false _ _ (Hbelow first (or_introl eq_refl))).
Qed.

Lemma get_scheduled_current_total_witness :
  get_scheduled_current [mkPoint 100 1; mkPoint 200 2] (-5) = Ok 1.
Proof.
  refine (proj2 (get_scheduled_current_total [mkPoint 100 1; mkPoint 200 2] (-5))
            (mkPoint 100 1) [mkPoint 200 2] eq_refl _).
  intros q [<-|[<-|[]]]; reflexivity.
Defined.

(** ** The stable sort *)

Lemma insert_by_time_Forall (P : point -> Prop) (p : point) (l : schedule_t) :
  P p -> Forall P l -> Forall P (insert_by_time p l).
Proof.
  intros Hp Hl. induction Hl as [|q l Hq Hl IH]; cbn [insert_by_time].
  - now constructor.
  - destruct (Qle_bool (time q) (time p)).
    + constructor; [exact Hq | exact IH].
    + constructor; [exact Hp|]. constructor; [exact Hq | exact Hl].
Qed.

Lemma insert_by_time_sorted (p : point) (l : schedule_t) :
  is_sorted l = true -> is_sorted (insert_by_time p l) = true.
Proof.
  induction l as [|q l IH]; intros Hs; [reflexivity|].
  cbn [insert_by_time]. destruct (Qle_bool (time q) (time p)) eqn:Hqp.
  - destruct (is_sorted_cons _ _ Hs) as [Hl Hall].
    apply is_sorted_cons_intro; [now apply IH|].
    now apply insert_by_time_Forall.
  - change (Qle_bool (time p) (time q) && is_sorted (q :: l) = true)%bool.
    now rewrite (Qle_bool_total _ _ Hqp).
Qed.

Lemma insert_by_time_perm (p : point) (l : schedule_t) :
  Permutation (p :: l) (insert_by_time p l).
Proof.
  induction l as [|q l IH]; cbn [insert_by_time]; [reflexivity|].
  destruct (Qle_bool (time q) (time p)); [|reflexivity].
  rewrite perm_swap. now constructor.
Qed.

(** Nothing at key [k] lies behind a point whose key is above [k]. *)
Lemma filter_at_time_above (k : Q) (q : point) (l : schedule_t) :
  k < time q ->
  Forall (fun x => Qle_bool (time q) (time x) = true) l ->
  filter (at_time k) l = [].
Proof.
  intros Hk Hall. induction Hall as [|x l Hx _ IH]; [reflexivity|].
  cbn [filter]. unfold at_time at 1.
  destruct (Qeq_bool (time x) k) eqn:Hxk; [|exact IH].
  apply Qeq_bool_iff in Hxk. apply Qle_bool_iff in Hx.
  exfalso. apply (Qlt_not_le _ _ Hk). now rewrite <- Hxk.
Qed.

(** Inserting keeps, among the points of one key, the new point last. *)
Lemma insert_by_time_stable (k : Q) (p : point) (l : schedule_t) :
  is_sorted l = true ->
  filter (at_time k) (insert_by_time p l) = filter (at_time k) (l ++ [p]).
Proof.
  induction l as [|q l IH]; intros Hs; [reflexivity|].
  destruct (is_sorted_cons _ _ Hs) as [Hl Hall].
  cbn [insert_by_time]. destruct (Qle_bool (time q) (time p)) eqn:Hqp.
  - cbn [app filter]. rewrite (IH Hl). reflexivity.
  - rewrite filter_app.
    change (filter (at_time k) (p :: q :: l))
      with (if at_time k p then p :: filter (at_time k) (q :: l)
            else filter (at_time k) (q :: l)).
    change (filter (at_time k) [p]) with (if at_time k p then [p] else []).
    destruct (at_time k p) eqn:Hpk.
    + apply Qeq_bool_iff in Hpk.
      assert (Hk : k < time q).
      { rewrite <- Hpk. now apply Qle_bool_false_lt. }
      assert (Hnone : filter (at_time k) (q :: l) = []).
      { apply (filter_at_time_above k q); [exact Hk|].
        constructor; [|exact Hall]. apply Qle_bool_iff, Qle_refl. }
      now rewrite Hnone.
    + now rewrite app_nil_r.
Qed.

Lemma insert_by_time_at_end (p : point) (l : schedule_t) :
  Forall (fun q => Qle_bool (time q) (time p) = true) l ->
  insert_by_time p l = l ++ [p].
Proof.
  intros Hall. induction Hall as [|q l Hq _ IH]; [reflexivity|].
  cbn [insert_by_time app]. now rewrite Hq, IH.
Qed.

Lemma is_sorted_app_below (a : schedule_t) (p : point) (l : schedule_t) :
  is_sorted (a ++ p :: l) = true ->
  Forall (fun q => Qle_bool (time q) (time p) = true) a.
Proof.
  induction a as [|q a IH]; intros Hs; [constructor|].
  cbn [app] in Hs. destruct (is_sorted_cons _ _ Hs) as [Hrest Hall].
  constructor; [|now apply IH].
  rewrite Forall_forall in Hall. apply Hall, in_elt.
Qed.

Lemma sort_onto_sorted (l acc : schedule_t) :
  is_sorted acc = true -> is_sorted (sort_onto acc l) = true.
Proof.
  revert acc. induction l as [|p l IH]; intros acc Hacc; [exact Hacc|].
  apply IH. now apply insert_by_time_sorted.
Qed.

Lemma sort_onto_perm (l acc : schedule_t) :
  Permutation (acc ++ l) (sort_onto acc l).
Proof.
  revert acc. induction l as [|p l IH]; intros acc.
  - now rewrite app_nil_r.
  - change (sort_onto acc (p :: l)) with (sort_onto (insert_by_time p acc) l).
    rewrite <- IH.
    rewrite <- Permutation_middle.
    change (p :: acc ++ l) with ((p :: acc) ++ l).
    apply Permutation_app_tail, insert_by_time_perm.
Qed.

Lemma sort_onto_stable (k : Q) (l acc : schedule_t) :
  is_sorted acc = true ->
  filter (at_time k) (sort_onto acc l) = filter (at_time k) (acc ++ l).
Proof.
  revert acc. induction l as [|p l IH]; intros acc Hacc.
  - now rewrite app_nil_r.
  - change (sort_onto acc (p :: l)) with (sort_onto (insert_by_time p acc) l).
    rewrite (IH _ (insert_by_time_sorted p acc Hacc)).
    rewrite filter_app, (insert_by_time_stable k p acc Hacc), <- filter_app.
    now rewrite <- app_assoc.
Qed.

Lemma sort_onto_already_sorted (l acc : schedule_t) :
  is_sorted (acc ++ l) = true -> sort_onto acc l = acc ++ l.
Proof.
  revert acc. induction l as [|p l IH]; intros acc Hs.
  - now rewrite app_nil_r.
  - change (sort_onto acc (p :: l)) with (sort_onto (insert_by_time p acc) l).
    rewrite (insert_by_time_at_end p acc (is_sorted_app_below _ _ _ Hs)).
    rewrite IH; rewrite <- app_assoc; [reflexivity | exact Hs].
Qed.

Lemma sort_by_time_sorted (l : schedule_t) : is_sorted (sort_by_time l) = true.
Proof. now apply sort_onto_sorted. Qed.

Lemma sort_by_time_perm (l : schedule_t) : Permutation l (sort_by_time l).
Proof. exact (sort_onto_perm l []). Qed.

Lemma sort_by_time_stable (k : Q) (l : schedule_t) :
  filter (at_time k) (sort_by_time l) = filter (at_time k) l.
Proof. now apply (sort_onto_stable k l []). Qed.

(** Sorting again after appending is sorting the concatenation. *)
Lemma sort_by_time_resort (a b : schedule_t) :
  sort_by_time (sort_by_time a ++ b) = sort_by_time (a ++ b).
Proof.
  unfold sort_by_time, sort_onto. rewrite !fold_left_app. f_equal.
  apply (sort_onto_already_sorted _ []), sort_by_time_sorted.
Qed.

(** ** Loading the schedule *)

Lemma append_rows_ok (rows : list row) (pts : schedule_t) (s : state) :
  Forall2 parses rows pts ->
  append_rows rows s =
    mkOut (Ok tt) (with_schedule (schedule (self s) ++ pts) s) [].
Proof.
  intros H. revert s. induction H as [|r p rows pts Hr _ IH]; intros s.
  - destruct s as [[] n]. cbn. now rewrite app_nil_r.
  - cbn [append_rows]. unfold bind at 1, lift. rewrite Hr. cbn.
    rewrite IH. destruct s as [[] n]. cbn. now rewrite <- app_assoc.
Qed.

Lemma append_rows_fail (good : list row) (pts : schedule_t) (bad : row)
  (rest : list row) (e : exn) (s : state) :
  Forall2 parses good pts ->
  parse_row bad = Raise e ->
  append_rows (good ++ bad :: rest) s =
    mkOut (Raise e) (with_schedule (schedule (self s) ++ pts) s) [].
Proof.
  intros H Hbad. revert s. induction H as [|r p rows pts' Hr _ IH]; intros s.
  - cbn [app append_rows]. unfold bind, lift. rewrite Hbad.
    destruct s as [[] n]. cbn. now rewrite app_nil_r.
  - cbn [app append_rows]. unfold bind at 1, lift. rewrite Hr. cbn.
    rewrite IH. destruct s as [[] n]. cbn. now rewrite <- app_assoc.
Qed.

Lemma print_points_out (pts : schedule_t) (s : state) :
  print_points pts s = mkOut (Ok tt) s (map (fun p => Print (MsgPoint p)) pts).
Proof.
  induction pts as [|p pts IH]; [reflexivity|].
  cbn [print_points map]. unfold bind, print. cbn. now rewrite IH.
Qed.

(** A load whose rows all convert: the new points are appended to the list
    already held and the whole list is sorted. *)
Lemma load_schedule_ok (E : env) (s : state) (pts : schedule_t) :
  fault E (calls s) = None ->
  Forall2 parses (csv_rows E (calls s)) pts ->
  res (load_schedule E s) = Ok tt
  /\ post (load_schedule E s) =
       mkState (set_schedule (sort_by_time (schedule (self s) ++ pts)) (self s))
               (S (calls s)).
Proof.
  intros Hopen Hrows.
  unfold load_schedule, try_except, bind, print, get_self, call, modify_self.
  cbn. rewrite Hopen. cbn.
  rewrite (append_rows_ok _ _ _ Hrows). cbn.
  rewrite print_points_out. cbn.
  destruct s as [[] n]. cbn. split; reflexivity.
Qed.



(** C6.  A successful load leaves the schedule sorted by offset, with the
    points it was given and, among points of one offset, in the order they
    were given (the sort is stable); for the rows (0,1.0) (0,2.0) the loaded
    schedule answers 2.0 at elapsed time 0: the later of two points with the
    same offset wins. *)
Theorem load_schedule_sorts_stably (E : env) (s : state) (pts : schedule_t)
  (Hopen : fault E (calls s) = None)
  (Hrows : Forall2 parses (csv_rows E (calls s)) pts) :
  let given := schedule (self s) ++ pts in
  let loaded := schedule (self (post (load_schedule E s))) in
  is_sorted loaded = true
  /\ Permutation given loaded
  /\ (forall k, filter (at_time k) loaded = filter (at_time k) given)
  /\ (let tied := with_rows [csv_row "0" "1.0"; csv_row "0" "2.0"] in
      schedule (self (post (load_schedule tied created)))
        = [mkPoint 0 1.0; mkPoint 0 2.0]
      /\ get_scheduled_current
           (schedule (self (post (load_schedule tied created)))) 0 = Ok 2.0).
Proof.
  destruct (load_schedule_ok E s pts Hopen Hrows) as [_ Hpost].
  cbn zeta. rewrite Hpost. cbn [self schedule set_schedule].
  split; [apply sort_by_time_sorted|].
  split; [apply sort_by_time_perm|].
  split; [intros k; apply sort_by_time_stable|].
  split; vm_compute; reflexivity.
Qed.

Lemma load_schedule_sorts_stably_witness :
  let E := with_rows [csv_row "5" "1.0"; csv_row "0" "3"; csv_row "5" "2.0"] in
  schedule (self (post (load_schedule E created)))
    = [mkPoint 0 3; mkPoint 5 1.0; mkPoint 5 2.0]
  /\ filter (at_time 5) (schedule (self (post (load_schedule E created))))
       = filter (at_time 5) ([] ++ [mkPoint 5 1.0; mkPoint 0 3; mkPoint 5 2.0]).
Proof.
  split; [vm_compute; reflexivity|].
  refine (proj1 (proj2 (proj2
    (load_schedule_sorts_stably
       (with_rows [csv_row "5" "1.0"; csv_row "0" "3"; csv_row "5" "2.0"])
       created [mkPoint 5 1.0; mkPoint 0 3; mkPoint 5 2.0] eq_refl _))) 5).
  repeat constructor.
Defined.

(** C10.  [load_schedule] does not reset the schedule: a second load appends
    its points to those of the first and sorts the whole list again.  After
    two loads the schedule holds exactly the points it had before together
    with those of both inputs (a permutation of the concatenation, with the
    combined length), ascending by offset, points of equal offset in the order
    old, first input, second input; this is the sorted concatenation. *)
Theorem load_schedule_twice_accumulates (E : env) (s : state)
  (pts1 pts2 : schedule_t)
  (Hopen1 : fault E (calls s) = None)
  (Hrows1 : Forall2 parses (csv_rows E (calls s)) pts1)
  (Hopen2 : fault E (S (calls s)) = None)
  (Hrows2 : Forall2 parses (csv_rows E (S (calls s))) pts2) :
  let s1 := post (load_schedule E s) in
  let s2 := post (load_schedule E s1) in
  let given := schedule (self s) ++ pts1 ++ pts2 in
  res (load_schedule E s) = Ok tt
  /\ res (load_schedule E s1) = Ok tt
  /\ schedule (self s2) = sort_by_time given
  /\ List.length (schedule (self s2))
       = (List.length (schedule (self s)) + List.length pts1
          + List.length pts2)%nat
  /\ Permutation given (schedule (self s2))
  /\ is_sorted (schedule (self s2)) = true
  /\ (forall k, filter (at_time k) (schedule (self s2))
                = filter (at_time k) given)
  /\ (forall p, In p pts1 -> In p (schedule (self s2))).
Proof.
  destruct (load_schedule_ok E s pts1 Hopen1 Hrows1) as [Hres1 Hpost1].
  cbn zeta. rewrite Hpost1.
  set (s1 := mkState _ _).
  destruct (load_schedule_ok E s1 pts2 Hopen2 Hrows2) as [Hres2 Hpost2].
  rewrite Hpost2. subst s1. cbn [self schedule set_schedule calls].
  assert (Hsched : sort_by_time
                     (sort_by_time (schedule (self s) ++ pts1) ++ pts2)
                   = sort_by_time (schedule (self s) ++ pts1 ++ pts2)).
  { now rewrite sort_by_time_resort, <- app_assoc. }
  rewrite Hsched.
  split; [exact Hres1|]. split; [exact Hres2|]. split; [reflexivity|].
  split.
  { rewrite <- (Permutation_length (sort_by_time_perm _)).
    rewrite !length_app. lia. }
  split; [apply sort_by_time_perm|].
  split; [apply sort_by_time_sorted|].
  split; [intros k; apply sort_by_time_stable|].
  intros p Hp. apply (Permutation_in p (sort_by_time_perm _)).
  apply in_or_app. right. apply in_or_app. now left.
Qed.

Lemma load_schedule_twice_accumulates_witness :
  schedule (self (post (load_schedule two_files
                          (post (load_schedule two_files created)))))
    = [mkPoint 0 1.0; mkPoint 300 2.0]
  /\ Permutation ([] ++ [mkPoint 300 2.0] ++ [mkPoint 0 1.0])
       (schedule (self (post (load_schedule two_files
                                (post (load_schedule two_files created)))))).
Proof.
  split; [vm_compute; reflexivity|].
  refine (proj1 (proj2 (proj2 (proj2 (proj2
    (load_schedule_twice_accumulates two_files created
       [mkPoint 300 2.0] [mkPoint 0 1.0] eq_refl _ eq_refl _))))));
  repeat constructor.
Defined.


(** *** Conversions that certainly fail *)

Lemma non_numeric_char_no_digit (c : ascii) :
  non_numeric_char c = true -> digit_of c = None.
Proof.
  unfold non_numeric_char, digit_of. cbn zeta.
  destruct (Nat.leb 48 (nat_of_ascii c) && Nat.leb (nat_of_ascii c) 57)%bool;
    [|reflexivity].
  rewrite andb_false_r. discriminate.
Qed.

Lemma read_digits_non_numeric (cs : list ascii) (acc : Z) (count : nat) :
  forallb non_numeric_char cs = true ->
  read_digits cs acc count = (acc, count, cs).
Proof.
  destruct cs as [|c cs]; [reflexivity|]. cbn [forallb read_digits].
  intros H. apply andb_true_iff in H as [Hc _].
  now rewrite (non_numeric_char_no_digit c Hc).
Qed.

Lemma parse_unsigned_non_numeric (cs : list ascii) :
  forallb non_numeric_char cs = true -> parse_unsigned cs = None.
Proof.
  intros H. unfold parse_unsigned. rewrite (read_digits_non_numeric _ _ _ H).
  destruct cs as [|c cs]; [reflexivity|].
  destruct (Ascii.eqb c "."%char); [|reflexivity].
  cbn [forallb] in H. apply andb_true_iff in H as [_ H].
  rewrite (read_digits_non_numeric _ _ _ H).
  destruct cs; reflexivity.
Qed.

Lemma forallb_lstrip (P : ascii -> bool) (cs : list ascii) :
  forallb P cs = true -> forallb P (lstrip cs) = true.
Proof.
  induction cs as [|c cs IH]; [reflexivity|]. intros H. cbn [lstrip].
  destruct (is_space c); [|exact H].
  cbn [forallb] in H. apply andb_true_iff in H as [_ H]. now apply IH.
Qed.

Lemma forallb_rev_true (P : ascii -> bool) (cs : list ascii) :
  forallb P cs = true -> forallb P (rev cs) = true.
Proof.
  rewrite !forallb_forall. intros H c Hc. apply H. now apply in_rev.
Qed.

Lemma forallb_strip (P : ascii -> bool) (cs : list ascii) :
  forallb P cs = true -> forallb P (strip cs) = true.
Proof.
  intros H. unfold strip.
  now apply forallb_rev_true, forallb_lstrip, forallb_rev_true, forallb_lstrip.
Qed.

(** The model rejects what is certainly no number. *)
Lemma non_numeric_rejected (s : string) :
  non_numeric s = true -> float_of_string s = None.
Proof.
  unfold non_numeric, float_of_string. intros H.
  apply (forallb_strip non_numeric_char) in H.
  destruct (strip (list_ascii_of_string s)) as [|c rest]; [reflexivity|].
  pose proof H as Hrest. cbn [forallb] in Hrest.
  apply andb_true_iff in Hrest as [_ Hrest].
  destruct (Ascii.eqb c "-"%char);
    [now rewrite (parse_unsigned_non_numeric _ Hrest)|].
  destruct (Ascii.eqb c "+"%char);
    [now apply parse_unsigned_non_numeric|].
  now apply parse_unsigned_non_numeric.
Qed.

Lemma getitem_raises (r : row) (key : string) (e : exn) :
  getitem r key = Raise e -> e = KeyError.
Proof.
  induction r as [|[k v] r IH]; cbn [getitem]; [now intros [= <-]|].
  destruct (String.eqb k key); [discriminate | exact IH].
Qed.

Lemma cell_failure_raises (r : row) (key : string) (e : exn) :
  cell_failure r key = Some e ->
  float_field r key = Raise e
  /\ (e = KeyError \/ e = TypeError \/ e = ValueError).
Proof.
  unfold cell_failure, float_field.
  destruct (getitem r key) as [[cell|]|e'|] eqn:Hget; cbn [py_float].
  - destruct (non_numeric cell) eqn:Hcell; [|discriminate].
    intros [= <-]. rewrite (non_numeric_rejected _ Hcell). auto.
  - intros [= <-]. auto.
  - intros [= <-]. rewrite (getitem_raises _ _ _ Hget). auto.
  - discriminate.
Qed.

Lemma row_failure_raises (r : row) (e : exn) :
  row_failure r = Some e ->
  parse_row r = Raise e
  /\ (e = KeyError \/ e = TypeError \/ e = ValueError).
Proof.
  unfold row_failure, parse_row.
  destruct (cell_failure r "time_seconds") as [e'|] eqn:Htime.
  - intros [= <-]. destruct (cell_failure_raises _ _ _ Htime) as [-> Hkind].
    split; [reflexivity | exact Hkind].
  - destruct (float_field r "time_seconds") as [t| |]; [|discriminate..].
    intros Hcur. destruct (cell_failure_raises _ _ _ Hcur) as [-> Hkind].
    split; [reflexivity | exact Hkind].
Qed.



(** ** The shutdown path *)


(** [cleanup] with a device handle, by what the two commands do. *)
Lemma cleanup_with_handle (E : env) (s : state) (h : string) :
  load (self s) = Some h ->
  let n := calls s in
  let said := Print (MsgLoggedTo (log_file (self s))) in
  cleanup E s =
    match fault E n with
    | None =>
        match fault E (S n) with
        | None =>
            mkOut (Ok tt) (stopped s (S (S n)))
              [Print MsgTurningOff; Call (SetCurrent 0) None;
               Call InputOff None; Print MsgTurnedOff; said]
        | Some e =>
            if is_Exception e then
              mkOut (Ok tt) (stopped s (S (S n)))
                [Print MsgTurningOff; Call (SetCurrent 0) None;
                 Call InputOff (Some e); Print (MsgCleanupError e); said]
            else
              mkOut (Raise e) (mkState (self s) (S (S n)))
                [Print MsgTurningOff; Call (SetCurrent 0) None;
                 Call InputOff (Some e)]
        end
    | Some e =>
        if is_Exception e then
          mkOut (Ok tt) (stopped s (S n))
            [Print MsgTurningOff; Call (SetCurrent 0) (Some e);
             Print (MsgCleanupError e); said]
        else
          mkOut (Raise e) (mkState (self s) (S n))
            [Print MsgTurningOff; Call (SetCurrent 0) (Some e)]
    end.
Proof.
  intros Hload n said. subst n said.
  cbv [cleanup turn_off try_except bind get_self modify_self print ret call].
  rewrite Hload. cbn [self calls].
  destruct (fault E (calls s)) as [e|].
  - destruct e; reflexivity.
  - cbn [self calls].
    destruct (fault E (S (calls s))) as [e|]; [destruct e|]; reflexivity.
Qed.

(** C3 as stated does not hold.  With a handle held, when the zero-current
    command raises, [cleanup] logs the error and never sends the
    output-disable command. *)
Lemma cleanup_skips_input_off :
  let E := with_faults [(0%nat, DeviceError)] in
  let s := mkState (set_load (Some "/dev/ttyACM0"%string) (self fresh)) 0 in
  res (cleanup E s) = Ok tt
  /\ events (cleanup E s) =
       [Print MsgTurningOff; Call (SetCurrent 0) (Some DeviceError);
        Print (MsgCleanupError DeviceError);
        Print (MsgLoggedTo "voltage_log.csv")]
  /\ forall r, ~ In (Call InputOff r) (events (cleanup E s)).
Proof.
  cbn zeta. split; [reflexivity|]. split; [reflexivity|].
  intros r. vm_compute. intros [H|[H|[H|[H|[]]]]]; discriminate H.
Qed.

(** C3, amended.  The two shutdown commands share one guarded block: the
    output-disable command is sent exactly when the zero-current command did
    not raise; an [Exception] raised by either command is logged and
    [cleanup] returns normally. *)
Theorem cleanup_guarded_block (E : env) (s : state) (h : string)
  (Hload : load (self s) = Some h) :
  let zero := fault E (calls s) in
  let off := fault E (S (calls s)) in
  (forall e, zero = Some e ->
     (forall r, ~ In (Call InputOff r) (events (cleanup E s)))
     /\ In (Call (SetCurrent 0) (Some e)) (events (cleanup E s))
     /\ (is_Exception e = true ->
         res (cleanup E s) = Ok tt
         /\ In (Print (MsgCleanupError e)) (events (cleanup E s))))
  /\ (zero = None ->
      In (Call (SetCurrent 0) None) (events (cleanup E s))
      /\ In (Call InputOff off) (events (cleanup E s))
      /\ (forall e, off = Some e -> is_Exception e = true ->
          res (cleanup E s) = Ok tt
          /\ In (Print (MsgCleanupError e)) (events (cleanup E s)))).
Proof.
  cbn zeta. rewrite (cleanup_with_handle E s h Hload). cbn zeta. split.
  - intros e ->. destruct (is_Exception e) eqn:He; cbn [events res];
      (split; [intros r [H|[H|[H|[H|[]]]]] || intros r [H|[H|[]]];
               discriminate H|]);
      (split; [cbn; tauto|]); intros Hx; [|discriminate Hx].
    split; [reflexivity | cbn; tauto].
  - intros ->. destruct (fault E (S (calls s))) as [e|].
    + destruct (is_Exception e) eqn:He; cbn [events res];
        (split; [cbn; tauto|]); (split; [cbn; tauto|]);
        intros e' [= <-] Hx; [|congruence].
      split; [reflexivity | cbn; tauto].
    + cbn [events res]. split; [cbn; tauto|]. split; [cbn; tauto|].
      intros e' He'. discriminate He'.
Qed.

Lemma cleanup_guarded_block_witness :
  let E := with_faults [(1%nat, OSError)] in
  let s := mkState (set_load (Some "/dev/ttyACM0"%string) (self fresh)) 0 in
  In (Call (SetCurrent 0) None) (events (cleanup E s))
  /\ In (Call InputOff (Some OSError)) (events (cleanup E s))
  /\ res (cleanup E s) = Ok tt.
Proof.
  cbn zeta.
  pose proof (proj2 (cleanup_guarded_block
                       (with_faults [(1%nat, OSError)])
                       (mkState (set_load (Some "/dev/ttyACM0"%string)
                                   (self fresh)) 0)
                       "/dev/ttyACM0"%string eq_refl) eq_refl) as [H0 [H1 H2]].
  split; [exact H0|]. split; [exact H1|].
  exact (proj1 (H2 OSError eq_refl eq_refl)).
Defined.

(** ** Connecting *)

Lemma with_KELSerial_connect_fails (E : env) {A} (body : M A) (s : state)
  (e : exn) :
  fault E (calls s) = Some e ->
  with_KELSerial E body s =
    mkOut (Raise e) (mkState (self s) (S (calls s)))
      [Call (Connect (port (self s))) (Some e)].
Proof.
  intros Hf. cbv [with_KELSerial bind get_self call]. rewrite Hf. reflexivity.
Qed.

Lemma with_KELSerial_connected (E : env) {A} (body : M A) (s : state) :
  fault E (calls s) = None ->
  with_KELSerial E body s =
    match try_finally body (release E) (connected s) with
    | mkOut r s' evs => mkOut r s' (Call (Connect (port (self s))) None :: evs)
    end.
Proof.
  intros Hf. cbv [with_KELSerial bind get_self call modify_self].
  rewrite Hf. cbn [self calls app]. unfold connected, release.
  destruct (try_finally _ _ _). reflexivity.
Qed.




(** ** The device handle is kept *)

Section Keeps_load.

Context {A B : Type}.

Lemma keeps_load_ret (a : A) : keeps_load (ret a).
Proof. intros s. reflexivity. Qed.

Lemma keeps_load_raise (e : exn) : keeps_load (@raise A e).
Proof. intros s. reflexivity. Qed.

Lemma keeps_load_timeout : keeps_load (@timeout A).
Proof. intros s. reflexivity. Qed.

Lemma keeps_load_lift (r : result A) : keeps_load (lift r).
Proof. intros s. reflexivity. Qed.

Lemma keeps_load_bind (m : M A) (f : A -> M B) :
  keeps_load m -> (forall a, keeps_load (f a)) -> keeps_load (bind m f).
Proof.
  intros Hm Hf s. unfold bind. specialize (Hm s).
  destruct (m s) as [[a|e|] s1 evs1]; cbn in *; try assumption.
  specialize (Hf a s1). destruct (f a s1). cbn in *. congruence.
Qed.

Lemma keeps_load_try_finally (m : M A) (fin : M unit) :
  keeps_load m -> keeps_load fin -> keeps_load (try_finally m fin).
Proof.
  intros Hm Hf s. unfold try_finally. specialize (Hm s).
  destruct (m s) as [r s1 evs1]. specialize (Hf s1).
  destruct r; destruct (fin s1) as [[[]|e'|] s2 evs2]; cbn in *; congruence.
Qed.

Lemma keeps_load_try_except (m : M A) (handler : exn -> option (M A)) :
  keeps_load m ->
  (forall e h, handler e = Some h -> keeps_load h) ->
  keeps_load (try_except m handler).
Proof.
  intros Hm Hh s. unfold try_except. specialize (Hm s).
  destruct (m s) as [[a|e|] s1 evs1]; cbn in *; try assumption.
  destruct (handler e) as [h|] eqn:He; [|assumption].
  specialize (Hh e h He s1). destruct (h s1). cbn in *. congruence.
Qed.

End Keeps_load.

Lemma keeps_load_print (m : message) : keeps_load (print m).
Proof. intros s. reflexivity. Qed.

Lemma keeps_load_get_self : keeps_load get_self.
Proof. intros s. reflexivity. Qed.

Lemma keeps_load_set_running (b : bool) : keeps_load (modify_self (set_running b)).
Proof. intros s. reflexivity. Qed.

Lemma keeps_load_call (E : env) (o : op) : keeps_load (call E o).
Proof. intros s. unfold call. destruct (fault E (calls s)); reflexivity. Qed.

Create HintDb keeps discriminated.
#[local] Hint Resolve keeps_load_ret keeps_load_raise keeps_load_timeout
  keeps_load_lift keeps_load_print keeps_load_get_self keeps_load_set_running
  keeps_load_call : keeps.

Ltac keeps_load_step :=
  first
    [ apply keeps_load_bind; [|intro]
    | apply keeps_load_try_finally
    | match goal with
      | |- keeps_load (if ?b then _ else _) => destruct b
      end
    | solve [auto with keeps] ].

Lemma keeps_load_tick (E : env) (start_time next_log_time : Q) :
  keeps_load (tick E start_time next_log_time).
Proof. unfold tick, time_time, measure. repeat keeps_load_step. Qed.

Lemma keeps_load_loop (E : env) (fuel : nat) (start_time next_log_time : Q) :
  keeps_load (loop E fuel start_time next_log_time).
Proof.
  revert next_log_time. induction fuel as [|fuel IH]; intros next_log_time;
    cbn [loop]; apply keeps_load_bind; auto with keeps; intros o;
    destruct (running o); auto with keeps.
  apply keeps_load_bind; [apply keeps_load_tick | intros next'; apply IH].
Qed.

Lemma keeps_load_session (E : env) (fuel : nat) : keeps_load (session E fuel).
Proof.
  unfold session, initialize_log_file, time_time.
  repeat first [apply keeps_load_loop | keeps_load_step].
Qed.

Lemma keeps_load_release (E : env) : keeps_load (release E).
Proof. unfold release. repeat keeps_load_step. Qed.

Lemma keeps_load_run_handler (e : exn) (h : M unit) :
  run_handler e = Some h -> keeps_load h.
Proof.
  destruct e; cbn; intros [= <-]; repeat keeps_load_step.
Qed.

(** Once the device has been acquired the handle stays in [self.load]. *)
Lemma guarded_holds_handle (E : env) (fuel : nat) (s : state) :
  fault E (calls s) = None ->
  load (self (post (guarded E fuel s))) = Some (port (self s)).
Proof.
  intros Hconn.
  assert (K : keeps_load
                (try_except (try_finally (session E fuel) (release E))
                   run_handler)).
  { apply keeps_load_try_except.
    - apply keeps_load_try_finally;
        [apply keeps_load_session | apply keeps_load_release].
    - apply keeps_load_run_handler. }
  specialize (K (connected s)). revert K.
  unfold guarded, try_except.
  rewrite (with_KELSerial_connected E _ s Hconn).
  destruct (try_finally _ _ _) as [[[]|e|] s1 evs1]; cbn; try (intros <-; reflexivity).
  destruct (run_handler e) as [h|]; [|intros <-; reflexivity].
  destruct (h s1); cbn. intros <-. reflexivity.
Qed.

(** ** Leaving [run] *)

Lemma run_unfold (E : env) (fuel : nat) (s : state) :
  run E fuel s =
    match guarded E fuel s with
    | mkOut Timeout s1 evs1 => mkOut Timeout s1 (Print MsgConnecting :: evs1)
    | mkOut r s1 evs1 =>
        match cleanup E s1 with
        | mkOut (Ok _) s2 evs2 =>
            mkOut r s2 (Print MsgConnecting :: evs1 ++ evs2)
        | mkOut (Raise e) s2 evs2 =>
            mkOut (Raise e) s2 (Print MsgConnecting :: evs1 ++ evs2)
        | mkOut Timeout s2 evs2 =>
            mkOut Timeout s2 (Print MsgConnecting :: evs1 ++ evs2)
        end
    end.
Proof.
  unfold run. cbv [bind print try_finally].
  destruct (guarded E fuel s) as [[[]|e|] s1 evs1]; try reflexivity;
    destruct (cleanup E s1) as [[[]|e'|] s2 evs2]; reflexivity.
Qed.

Lemma device_after_shutdown (d : device) (before after : list event) :
  forallb (fun ev => negb (energizes ev)) after = true ->
  safe (device_after d
          (before ++ Call (SetCurrent 0) None :: Call InputOff None :: after))
    = true.
Proof.
  intros Hafter. unfold device_after. rewrite fold_left_app.
  generalize (fold_left apply_event before d). intros d'.
  cbn [fold_left apply_event setpoint output].
  assert (Hsafe : safe (mkDevice 0 false) = true) by reflexivity.
  revert Hsafe. generalize (mkDevice 0 false). clear d d'.
  induction after as [|ev after IH]; intros d Hd; [exact Hd|].
  cbn [forallb] in Hafter. apply andb_true_iff in Hafter as [Hev Hafter].
  cbn [fold_left]. apply (IH Hafter).
  destruct ev as [[] [e|]|m]; try exact Hd; try discriminate Hev.
  unfold safe in *. cbn [apply_event setpoint output].
  apply andb_true_iff in Hd as [H0 _]. rewrite H0. reflexivity.
Qed.

Lemma device_after_cleanup (d : device) (before after : list event) :
  forallb (fun ev => negb (energizes ev)) after = true ->
  safe (device_after d
          (before ++ Print MsgTurningOff :: Call (SetCurrent 0) None
                  :: Call InputOff None :: after))
    = true.
Proof.
  intros Hafter.
  change (before ++ Print MsgTurningOff :: Call (SetCurrent 0) None
                 :: Call InputOff None :: after)
    with (before ++ [Print MsgTurningOff]
                 ++ Call (SetCurrent 0) None :: Call InputOff None :: after).
  rewrite app_assoc. now apply device_after_shutdown.
Qed.

(** C1 as stated does not hold.  The device faults at the second pass of the
    loop and again when [cleanup] commands zero current: [run] returns to its
    caller (re-raising the fault) with the output never disabled and the load
    still drawing the scheduled current.  (What does hold on every exit is
    stated in the last part of this file, where a [print] can fail too.) *)
Lemma run_can_leave_load_energized :
  let E := with_faults [(16%nat, DeviceError); (18%nat, DeviceError)] in
  let o := run E 5 fresh in
  res o = Raise DeviceError
  /\ existsb (fun ev => match ev with Call InputOff _ => true | _ => false end)
       (events o) = false
  /\ device_after (mkDevice 0 false) (events o) = mkDevice 1.0 true
  /\ energized (device_after (mkDevice 0 false) (events o)) = true.
Proof. vm_compute. repeat split. Qed.

(** ** One pass of the loop *)

Ltac tick_cbn := cbn -[Qplus Qminus Qle_bool max0 get_scheduled_current].

(** The next outside call must have returned, or the pass would not have. *)
Ltac call_returned :=
  match goal with
  | |- context [fault ?E ?n] =>
      destruct (fault E n) as [?e|]; [discriminate|]; tick_cbn
  end.

Lemma max0_is_max (x : Q) : max0 x == Qmax 0 x /\ 0 <= max0 x.
Proof.
  unfold max0. destruct (Qle_bool x 0) eqn:Hx.
  - apply Qle_bool_iff in Hx. split; [|apply Qle_refl].
    symmetry. now apply Q.max_l.
  - apply Qle_bool_false_lt in Hx. apply Qlt_le_weak in Hx.
    split; [|exact Hx]. symmetry. now apply Q.max_r.
Qed.

(** C8.  A pass that finds the sample due ([now >= next_log_time]) and runs
    to its end sets the next deadline to [now + logging_interval], whatever the
    previous deadline was, logs one sample (the three readings taken in this
    pass, under the elapsed time of this pass), reads the clock again and
    sleeps for [max(0, next deadline - that reading)]: for the time left to
    the deadline when it lies ahead, for 0 seconds when it has passed, never
    for a negative time. *)
Theorem tick_next_deadline_from_now (E : env) (s : state)
  (start_time next_log_time next' : Q)
  (Hdue : next_log_time <= clock E (calls s))
  (Hdone : res (tick E start_time next_log_time s) = Ok next') :
  let now := clock E (calls s) in
  let woke := clock E (6 + calls s) in
  let elapsed := now - start_time in
  let voltage := reading E (2 + calls s) in
  let amps := reading E (3 + calls s) in
  let power := reading E (4 + calls s) in
  next' = now + logging_interval (self s)
  /\ exists target pause,
       get_scheduled_current (schedule (self s)) elapsed = Ok target
       /\ events (tick E start_time next_log_time s) =
            [Call Clock None; Call (SetCurrent target) None;
             Call MeasureVoltage None; Call MeasureCurrent None;
             Call MeasurePower None;
             Call (AppendLog (log_file (self s)) elapsed voltage amps power)
               None;
             Print (MsgSample elapsed voltage amps power);
             Call Clock None; Call (Sleep pause) None]
       /\ 0 <= pause
       /\ pause == Qmax 0 (next' - woke)
       /\ (next' - woke <= 0 -> pause = 0)
       /\ (0 < next' - woke -> pause = next' - woke).
Proof.
  cbn zeta. apply Qle_bool_iff in Hdue. revert Hdone.
  destruct (get_scheduled_current_returns (schedule (self s))
              (clock E (calls s) - start_time)) as [v Hv].
  unfold tick, time_time, measure.
  cbv [bind call ret lift get_self print].
  tick_cbn. call_returned. rewrite Hv. tick_cbn. call_returned.
  rewrite Hdue. tick_cbn. do 6 call_returned.
  intros [= <-]. split; [reflexivity|].
  exists v, (max0 (clock E (calls s) + logging_interval (self s)
                   - clock E (6 + calls s))).
  split; [reflexivity|]. split; [reflexivity|].
  split; [apply max0_is_max|]. split; [apply max0_is_max|].
  unfold max0. cbn [Nat.add]. split; intros Hleft.
  - apply Qle_bool_iff in Hleft. now rewrite Hleft.
  - now rewrite (Qlt_Qle_bool_false _ _ Hleft).
Qed.

Lemma tick_next_deadline_from_now_witness :
  let next' := clock calm 7 + 1 in
  next' = clock calm 7 + logging_interval (self in_loop)
  /\ exists target pause,
       get_scheduled_current (schedule (self in_loop)) (clock calm 7 - 3)
         = Ok target
       /\ events (tick calm 3 (1 # 3) in_loop) =
            [Call Clock None; Call (SetCurrent target) None;
             Call MeasureVoltage None; Call MeasureCurrent None;
             Call MeasurePower None;
             Call (AppendLog (log_file (self in_loop)) (clock calm 7 - 3)
                     (reading calm 9) (reading calm 10) (reading calm 11)) None;
             Print (MsgSample (clock calm 7 - 3)
                      (reading calm 9) (reading calm 10) (reading calm 11));
             Call Clock None;
             Call (Sleep pause) None]
       /\ 0 <= pause
       /\ pause == Qmax 0 (next' - clock calm 13)
       /\ (next' - clock calm 13 <= 0 -> pause = 0)
       /\ (0 < next' - clock calm 13 -> pause = next' - clock calm 13).
Proof.
  apply (tick_next_deadline_from_now calm in_loop 3 (1 # 3) (clock calm 7 + 1)).
  - unfold Qle. vm_compute. discriminate.
  - vm_compute. reflexivity.
Defined.

(** ** A failed outside call ends the loop *)

Section Fault_fatal.

Context {A B : Type}.

Lemma fault_fatal_ret (a : A) : fault_fatal (ret a).
Proof. intros s. reflexivity. Qed.

Lemma fault_fatal_timeout : fault_fatal (@timeout A).
Proof. intros s. reflexivity. Qed.

Lemma fault_fatal_bind (m : M A) (f : A -> M B) :
  fault_fatal m -> (forall a, fault_fatal (f a)) -> fault_fatal (bind m f).
Proof.
  intros Hm Hf s. unfold bind. specialize (Hm s). unfold fails_last in *.
  destruct (m s) as [[a|e|] s1 evs1]; cbn [res events] in *; try assumption.
  specialize (Hf a s1). unfold fails_last in Hf.
  destruct (f a s1) as [[b|e|] s2 evs2]; cbn [res events] in *.
  - rewrite forallb_app, Hm, Hf. reflexivity.
  - destruct Hf as (before & c & -> & Hok).
    exists (evs1 ++ before), c. rewrite app_assoc, forallb_app, Hm, Hok.
    split; reflexivity.
  - rewrite forallb_app, Hm, Hf. reflexivity.
Qed.

End Fault_fatal.

Lemma fault_fatal_print (m : message) : fault_fatal (print m).
Proof. intros s. reflexivity. Qed.

Lemma fault_fatal_get_self : fault_fatal get_self.
Proof. intros s. reflexivity. Qed.

Lemma fault_fatal_call (E : env) (o : op) : fault_fatal (call E o).
Proof.
  intros s. unfold call, fails_last.
  destruct (fault E (calls s)) as [e|]; cbn; [|reflexivity].
  exists [], o. split; reflexivity.
Qed.

Lemma fault_fatal_scheduled_current (sched : schedule_t) (elapsed : Q) :
  fault_fatal (lift (get_scheduled_current sched elapsed)).
Proof.
  intros s. destruct (get_scheduled_current_returns sched elapsed) as [v Hv].
  rewrite Hv. reflexivity.
Qed.

Create HintDb fatal discriminated.
#[local] Hint Resolve fault_fatal_ret fault_fatal_timeout fault_fatal_print
  fault_fatal_get_self fault_fatal_call fault_fatal_scheduled_current : fatal.

Ltac fault_fatal_step :=
  first
    [ apply fault_fatal_bind; [|intro]
    | match goal with
      | |- fault_fatal (if ?b then _ else _) => destruct b
      end
    | solve [auto with fatal] ].

Lemma fault_fatal_tick (E : env) (start_time next_log_time : Q) :
  fault_fatal (tick E start_time next_log_time).
Proof. unfold tick, time_time, measure. repeat fault_fatal_step. Qed.

Lemma fault_fatal_loop (E : env) (fuel : nat) (start_time next_log_time : Q) :
  fault_fatal (loop E fuel start_time next_log_time).
Proof.
  revert next_log_time. induction fuel as [|fuel IH]; intros next_log_time;
    cbn [loop]; apply fault_fatal_bind; auto with fatal; intros o;
    destruct (running o); auto with fatal.
  apply fault_fatal_bind; [apply fault_fatal_tick | intros next'; apply IH].
Qed.

(** C4 as stated does not hold.  The first append to the log raises
    [OSError]: the loop makes no further pass (five were allowed), the error
    is printed, [cleanup] runs and [run] raises the error to its caller.
    (What every failed append leads to is stated in the last part of this
    file, where a [print] can fail too.) *)
Lemma run_append_error_is_fatal :
  let E := with_faults [(12%nat, OSError)] in
  res (run E 5 fresh) = Raise OSError
  /\ events (run E 5 fresh) =
       [Print MsgConnecting; Call (Connect "/dev/ttyACM0") None;
        Call GetModel None; Print MsgConnected;
        Call GetStatus None; Print MsgStatus;
        Print MsgSettingMode; Call (SetCurrent 0) None;
        Print MsgTurningOn; Call InputOn None;
        Call (InitLog "voltage_log.csv") None;
        Print MsgInitialized; Print MsgStarting; Print MsgPressCtrlC;
        Call Clock None;
        Call Clock None; Call (SetCurrent 1.0) None;
        Call MeasureVoltage None; Call MeasureCurrent None;
        Call MeasurePower None;
        Call (AppendLog "voltage_log.csv" (clock calm 7 - clock calm 6)
                3.7 3.7 3.7) (Some OSError);
        Call Release None; Print (MsgError OSError);
        Print MsgTurningOff; Call (SetCurrent 0) None;
        Call InputOff None; Print MsgTurnedOff;
        Print (MsgLoggedTo "voltage_log.csv")].
Proof. vm_compute. split; reflexivity. Qed.

(** * Further properties of the program *)

(** ** More on the lookup *)

Lemma get_scheduled_current_cons (p0 : point) (rest : schedule_t) (elapsed : Q) :
  get_scheduled_current (p0 :: rest) elapsed
    = Ok (scan_schedule (p0 :: rest) elapsed (current p0)).
Proof. reflexivity. Qed.

Lemma scan_schedule_picks (pts : schedule_t) (elapsed cur : Q) :
  scan_schedule pts elapsed cur = cur
  \/ exists p, In p pts /\ scan_schedule pts elapsed cur = current p.
Proof.
  revert cur. induction pts as [|p pts IH]; intros cur; [now left|].
  cbn [scan_schedule]. destruct (Qle_bool (time p) elapsed); [|now left].
  right. destruct (IH (current p)) as [H | (q & Hq & H)].
  - exists p. split; [now left | exact H].
  - exists q. split; [now right | exact H].
Qed.

(** X1.  On a non-empty schedule, sorted or not, the current returned is the
    setpoint of one of the schedule's points: the lookup never interpolates
    and never falls back to zero. *)
Theorem get_scheduled_current_is_a_setpoint (sched : schedule_t) (elapsed : Q)
  (Hne : sched <> []) :
  exists p, In p sched /\ get_scheduled_current sched elapsed = Ok (current p).
Proof.
  destruct sched as [|p0 rest]; [contradiction|].
  unfold get_scheduled_current, index0. cbn [nth_error].
  destruct (scan_schedule_picks (p0 :: rest) elapsed (current p0))
    as [H | (q & Hq & H)]; rewrite H.
  - exists p0. split; [now left | reflexivity].
  - exists q. split; [exact Hq | reflexivity].
Qed.

Lemma get_scheduled_current_is_a_setpoint_witness :
  exists p, In p example_schedule
            /\ get_scheduled_current example_schedule 450 = Ok (current p).
Proof.
  apply (get_scheduled_current_is_a_setpoint example_schedule 450).
  discriminate.
Defined.

Lemma scan_schedule_all_reached (pts : schedule_t) (final : point)
  (elapsed cur : Q) :
  (forall q, In q (pts ++ [final]) -> time q <= elapsed) ->
  scan_schedule (pts ++ [final]) elapsed cur = current final.
Proof.
  revert cur. induction pts as [|p pts IH]; intros cur Hall.
  - cbn. assert (H : Qle_bool (time final) elapsed = true).
    { apply Qle_bool_iff, Hall. now left. }
    now rewrite H.
  - cbn [app scan_schedule].
    assert (H : Qle_bool (time p) elapsed = true).
    { apply Qle_bool_iff, Hall. now left. }
    rewrite H. apply IH. intros q Hq. apply Hall. now right.
Qed.

(** X2.  Once the elapsed time has reached every offset, the lookup returns
    the setpoint of the last point of the list, for ever: the schedule has no
    end at which the current would go back to zero. *)
Theorem get_scheduled_current_holds_last (pts : schedule_t) (final : point)
  (elapsed : Q)
  (Hall : forall q, In q (pts ++ [final]) -> time q <= elapsed) :
  get_scheduled_current (pts ++ [final]) elapsed = Ok (current final)
  /\ forall later, elapsed <= later ->
       get_scheduled_current (pts ++ [final]) later = Ok (current final).
Proof.
  assert (Hget : forall e, (forall q, In q (pts ++ [final]) -> time q <= e) ->
            get_scheduled_current (pts ++ [final]) e = Ok (current final)).
  { intros e He. destruct pts as [|p pts'].
    - cbn [app]. rewrite get_scheduled_current_cons. f_equal.
      now apply (scan_schedule_all_reached []).
    - cbn [app]. rewrite get_scheduled_current_cons. f_equal.
      now apply (scan_schedule_all_reached (p :: pts')). }
  split; [now apply Hget|].
  intros later Hlater. apply Hget. intros q Hq.
  apply Qle_trans with elapsed; [now apply Hall | exact Hlater].
Qed.

Lemma get_scheduled_current_holds_last_witness :
  get_scheduled_current example_schedule 900 = Ok 0.5
  /\ forall later, 900 <= later ->
       get_scheduled_current example_schedule later = Ok 0.5.
Proof.
  apply (get_scheduled_current_holds_last
           [mkPoint 0 1.0; mkPoint 300 2.0; mkPoint 600 1.5] (mkPoint 900 0.5) 900).
  intros q [<-|[<-|[<-|[<-|[]]]]]; unfold Qle; vm_compute; discriminate.
Defined.

Lemma scan_schedule_break (pts : schedule_t) (held blocker : point)
  (rest : schedule_t) (elapsed cur : Q) :
  (forall q, In q (pts ++ [held]) -> time q <= elapsed) ->
  elapsed < time blocker ->
  scan_schedule ((pts ++ [held]) ++ blocker :: rest) elapsed cur = current held.
Proof.
  intros Hall Hblock. revert cur. induction pts as [|p pts IH]; intros cur.
  - cbn. assert (H : Qle_bool (time held) elapsed = true).
    { apply Qle_bool_iff, Hall. now left. }
    now rewrite H, (Qlt_Qle_bool_false _ _ Hblock).
  - cbn [app scan_schedule].
    assert (H : Qle_bool (time p) elapsed = true).
    { apply Qle_bool_iff, Hall. now left. }
    rewrite H. apply IH. intros q Hq. apply Hall. now right.
Qed.

(** X3.  The scan stops at the first point whose offset lies ahead: the
    lookup returns the setpoint of the point just before it and ignores
    everything behind it, reached or not.  On a list that is not sorted a
    point that has been reached but sits behind an unreached one is never
    selected. *)
Theorem get_scheduled_current_stops_at_first_unreached
  (pts : schedule_t) (held blocker : point) (rest : schedule_t) (elapsed : Q)
  (Hall : forall q, In q (pts ++ [held]) -> time q <= elapsed)
  (Hblock : elapsed < time blocker) :
  get_scheduled_current ((pts ++ [held]) ++ blocker :: rest) elapsed
    = Ok (current held).
Proof.
  destruct pts as [|p pts'].
  - cbn [app]. rewrite get_scheduled_current_cons. f_equal.
    now apply (scan_schedule_break []).
  - cbn [app]. rewrite get_scheduled_current_cons. f_equal.
    now apply (scan_schedule_break (p :: pts')).
Qed.

Lemma get_scheduled_current_stops_at_first_unreached_witness :
  get_scheduled_current
    (([mkPoint 0 1.0] ++ [mkPoint 10 2.0]) ++ mkPoint 50 3 :: [mkPoint 20 4]) 30
    = Ok 2.0.
Proof.
  apply (get_scheduled_current_stops_at_first_unreached
           [mkPoint 0 1.0] (mkPoint 10 2.0) (mkPoint 50 3) [mkPoint 20 4] 30).
  - intros q [<-|[<-|[]]]; unfold Qle; vm_compute; discriminate.
  - reflexivity.
Defined.

(** ** Invariants, generically *)

Section Events_all.

Variable P : event -> bool.
Context {A B : Type}.

Lemma events_all_ret (a : A) : events_all P (ret a).
Proof. intros s. reflexivity. Qed.

Lemma events_all_raise (e : exn) : events_all P (@raise A e).
Proof. intros s. reflexivity. Qed.

Lemma events_all_timeout : events_all P (@timeout A).
Proof. intros s. reflexivity. Qed.

Lemma events_all_lift (r : result A) : events_all P (lift r).
Proof. intros s. reflexivity. Qed.

Lemma events_all_bind (m : M A) (f : A -> M B) :
  events_all P m -> (forall a, events_all P (f a)) -> events_all P (bind m f).
Proof.
  intros Hm Hf s. unfold bind. specialize (Hm s).
  destruct (m s) as [[a|e|] s1 evs1]; cbn [events] in *; try assumption.
  specialize (Hf a s1). destruct (f a s1) as [r s2 evs2]. cbn [events] in *.
  now rewrite forallb_app, Hm, Hf.
Qed.

Lemma events_all_try_except (m : M A) (handler : exn -> option (M A)) :
  events_all P m ->
  (forall e h, handler e = Some h -> events_all P h) ->
  events_all P (try_except m handler).
Proof.
  intros Hm Hh s. unfold try_except. specialize (Hm s).
  destruct (m s) as [[a|e|] s1 evs1]; cbn [events] in *; try assumption.
  destruct (handler e) as [h|] eqn:He; [|assumption].
  specialize (Hh e h He s1). destruct (h s1) as [r s2 evs2]. cbn [events] in *.
  now rewrite forallb_app, Hm, Hh.
Qed.

Lemma events_all_try_finally (m : M A) (fin : M unit) :
  events_all P m -> events_all P fin -> events_all P (try_finally m fin).
Proof.
  intros Hm Hf s. unfold try_finally. specialize (Hm s).
  destruct (m s) as [r s1 evs1]. specialize (Hf s1). cbn [events] in *.
  destruct r; try assumption;
    destruct (fin s1) as [[[]|e'|] s2 evs2]; cbn [events] in *;
    now rewrite forallb_app, Hm, Hf.
Qed.

End Events_all.

Lemma events_all_get_self (P : event -> bool) : events_all P get_self.
Proof. intros s. reflexivity. Qed.

Lemma events_all_modify_self (P : event -> bool) (f : scheduler -> scheduler) :
  events_all P (modify_self f).
Proof. intros s. reflexivity. Qed.

Lemma events_all_print (P : event -> bool) (m : message) :
  P (Print m) = true -> events_all P (print m).
Proof. intros H s. cbn. now rewrite H. Qed.

Lemma events_all_call (P : event -> bool) (E : env) (o : op) :
  (forall r, P (Call o r) = true) -> events_all P (call E o).
Proof.
  intros H s. unfold call. destruct (fault E (calls s)); cbn; now rewrite H.
Qed.

Section Preserves.

Context {X : Type}.
Variable proj : scheduler -> X.
Context {A B : Type}.

Lemma preserves_ret (a : A) : preserves proj (ret a).
Proof. intros s. reflexivity. Qed.

Lemma preserves_raise (e : exn) : preserves proj (@raise A e).
Proof. intros s. reflexivity. Qed.

Lemma preserves_timeout : preserves proj (@timeout A).
Proof. intros s. reflexivity. Qed.

Lemma preserves_lift (r : result A) : preserves proj (lift r).
Proof. intros s. reflexivity. Qed.

Lemma preserves_bind (m : M A) (f : A -> M B) :
  preserves proj m -> (forall a, preserves proj (f a)) ->
  preserves proj (bind m f).
Proof.
  intros Hm Hf s. unfold bind. specialize (Hm s).
  destruct (m s) as [[a|e|] s1 evs1]; cbn [post] in *; try assumption.
  specialize (Hf a s1). destruct (f a s1). cbn [post] in *. congruence.
Qed.

Lemma preserves_try_except (m : M A) (handler : exn -> option (M A)) :
  preserves proj m ->
  (forall e h, handler e = Some h -> preserves proj h) ->
  preserves proj (try_except m handler).
Proof.
  intros Hm Hh s. unfold try_except. specialize (Hm s).
  destruct (m s) as [[a|e|] s1 evs1]; cbn [post] in *; try assumption.
  destruct (handler e) as [h|] eqn:He; [|assumption].
  specialize (Hh e h He s1). destruct (h s1). cbn [post] in *. congruence.
Qed.

Lemma preserves_try_finally (m : M A) (fin : M unit) :
  preserves proj m -> preserves proj fin -> preserves proj (try_finally m fin).
Proof.
  intros Hm Hf s. unfold try_finally. specialize (Hm s).
  destruct (m s) as [r s1 evs1]. specialize (Hf s1).
  destruct r; destruct (fin s1) as [[[]|e'|] s2 evs2]; cbn [post] in *;
    congruence.
Qed.

End Preserves.

Lemma preserves_get_self {X} (proj : scheduler -> X) : preserves proj get_self.
Proof. intros s. reflexivity. Qed.

Lemma preserves_print {X} (proj : scheduler -> X) (m : message) :
  preserves proj (print m).
Proof. intros s. reflexivity. Qed.

Lemma preserves_call {X} (proj : scheduler -> X) (E : env) (o : op) :
  preserves proj (call E o).
Proof. intros s. unfold call. destruct (fault E (calls s)); reflexivity. Qed.

Lemma preserves_modify_self {X} (proj : scheduler -> X)
  (f : scheduler -> scheduler) :
  (forall o, proj (f o) = proj o) -> preserves proj (modify_self f).
Proof. intros H s. apply H. Qed.

(** One step of a proof that a computation keeps an invariant of either kind:
    through a [bind], a [try], a conditional, or down to a primitive. *)
Ltac invariant_step :=
  first
    [ apply events_all_bind; [|intro]
    | apply preserves_bind; [|intro]
    | apply events_all_try_finally
    | apply preserves_try_finally
    | match goal with
      | |- events_all _ (if ?b then _ else _) => destruct b
      | |- preserves _ (if ?b then _ else _) => destruct b
      end
    | apply events_all_ret | apply events_all_raise | apply events_all_timeout
    | apply events_all_lift | apply events_all_get_self
    | apply events_all_modify_self
    | apply events_all_print; reflexivity
    | apply events_all_call; intro; reflexivity
    | apply preserves_ret | apply preserves_raise | apply preserves_timeout
    | apply preserves_lift | apply preserves_get_self
    | apply preserves_print | apply preserves_call
    | apply preserves_modify_self; intro; reflexivity ].

(** ** More on [load_schedule] *)

Lemma append_rows_events_all (P : event -> bool) (rows : list row) :
  events_all P (append_rows rows).
Proof. induction rows as [|r rows IH]; cbn [append_rows]; repeat invariant_step; exact IH. Qed.

Lemma append_rows_preserves (rows : list row) :
  preserves but_schedule (append_rows rows).
Proof. induction rows as [|r rows IH]; cbn [append_rows]; repeat invariant_step; exact IH. Qed.

Lemma print_points_events_all (P : event -> bool) (pts : schedule_t) :
  (forall m, P (Print m) = true) -> events_all P (print_points pts).
Proof.
  intros HP. induction pts as [|p pts IH]; cbn [print_points];
    [apply events_all_ret|].
  apply events_all_bind; [now apply events_all_print | intros _; exact IH].
Qed.

Lemma print_points_preserves {X} (proj : scheduler -> X) (pts : schedule_t) :
  preserves proj (print_points pts).
Proof.
  induction pts as [|p pts IH]; cbn [print_points]; repeat invariant_step.
  exact IH.
Qed.

(** X4.  Whatever the file holds and however the load ends, [load_schedule]
    makes no outside call but the read of the schedule file (no device is
    touched) and changes no attribute of the scheduler but [schedule]. *)
Theorem load_schedule_touches_schedule_only (E : env) (s : state) :
  forallb reads_schedule_only (events (load_schedule E s)) = true
  /\ but_schedule (self (post (load_schedule E s))) = but_schedule (self s).
Proof.
  split.
  - revert s. change (events_all reads_schedule_only (load_schedule E)).
    unfold load_schedule. apply events_all_bind; [invariant_step|intros _].
    apply events_all_try_except.
    + repeat first [ apply append_rows_events_all
                   | apply print_points_events_all; reflexivity
                   | invariant_step ].
    + intros e h He. destruct e; try discriminate He;
        injection He as <-; repeat invariant_step.
  - revert s. change (preserves but_schedule (load_schedule E)).
    unfold load_schedule. apply preserves_bind; [invariant_step|intros _].
    apply preserves_try_except.
    + repeat first [ apply append_rows_preserves
                   | apply print_points_preserves
                   | invariant_step ].
    + intros e h He. destruct e; try discriminate He;
        injection He as <-; repeat invariant_step.
Qed.

(** X5.  When the schedule file cannot be opened the scheduler is left as it
    was.  A missing file is reported and ends in [sys.exit(1)]; any other
    [OSError] of [open] (a permission error, say) is not caught and leaves
    [load_schedule] as that exception. *)
Theorem load_schedule_open_fails (E : env) (s : state) (e : exn)
  (Hopen : fault E (calls s) = Some e) :
  self (post (load_schedule E s)) = self s
  /\ (e = FileNotFoundError ->
      res (load_schedule E s) = Raise (SystemExit 1)
      /\ events (load_schedule E s) =
           [Print MsgLoading;
            Call (ReadSchedule (schedule_file (self s))) (Some FileNotFoundError);
            Print MsgNotFound])
  /\ (e = OSError ->
      res (load_schedule E s) = Raise OSError
      /\ events (load_schedule E s) =
           [Print MsgLoading;
            Call (ReadSchedule (schedule_file (self s))) (Some OSError)]).
Proof.
  unfold load_schedule, try_except, bind, print, get_self, call, raise.
  cbn. rewrite Hopen. cbn.
  split; [destruct e; reflexivity|].
  split; intros ->; split; reflexivity.
Qed.

Lemma load_schedule_open_fails_witness :
  let E := with_faults [(0%nat, FileNotFoundError)] in
  self (post (load_schedule E fresh)) = self fresh
  /\ res (load_schedule E fresh) = Raise (SystemExit 1).
Proof.
  cbn zeta.
  pose proof (load_schedule_open_fails
                (with_faults [(0%nat, FileNotFoundError)]) fresh
                FileNotFoundError eq_refl) as [H0 [H1 _]].
  split; [exact H0 | exact (proj1 (H1 eq_refl))].
Defined.

(** A row that is shorter than the header: one of the two cells is [None]. *)
Lemma parse_row_short (r : row) :
  getitem r "time_seconds" = Ok None
  \/ (exists t, float_field r "time_seconds" = Ok t
                /\ getitem r "current_amps" = Ok None) ->
  parse_row r = Raise TypeError.
Proof.
  unfold parse_row. intros [H | (t & Ht & H)].
  - unfold float_field. now rewrite H.
  - rewrite Ht. unfold float_field. now rewrite H.
Qed.

Lemma load_schedule_failing_row (E : env) (s : state) (good : list row)
  (pts : schedule_t) (bad : row) (rest : list row) (e : exn) :
  fault E (calls s) = None ->
  csv_rows E (calls s) = good ++ bad :: rest ->
  Forall2 parses good pts ->
  parse_row bad = Raise e ->
  load_schedule E s =
    match e with
    | FileNotFoundError =>
        mkOut (Raise (SystemExit 1))
          (with_schedule (schedule (self s) ++ pts)
             (mkState (self s) (S (calls s))))
          [Print MsgLoading; Call (ReadSchedule (schedule_file (self s))) None;
           Print MsgNotFound]
    | KeyError | ValueError =>
        mkOut (Raise (SystemExit 1))
          (with_schedule (schedule (self s) ++ pts)
             (mkState (self s) (S (calls s))))
          [Print MsgLoading; Call (ReadSchedule (schedule_file (self s))) None;
           Print (MsgParseError e); Print MsgExpectedFormat]
    | _ =>
        mkOut (Raise e)
          (with_schedule (schedule (self s) ++ pts)
             (mkState (self s) (S (calls s))))
          [Print MsgLoading; Call (ReadSchedule (schedule_file (self s))) None]
    end.
Proof.
  intros Hopen Hrows Hgood Hbad.
  unfold load_schedule, try_except, bind, print, get_self, call, modify_self.
  cbn. rewrite Hopen. cbn. rewrite Hrows.
  rewrite (append_rows_fail _ _ _ _ _ _ Hgood Hbad). cbn.
  destruct e; reflexivity.
Qed.

(** X6.  A data row with fewer cells than the header is not a parse error
    for [load_schedule]: [float(None)] raises [TypeError], which neither
    [except] clause catches, so the load ends in an uncaught [TypeError]
    without the format hint and without [sys.exit(1)]. *)
Theorem load_schedule_short_row (E : env) (s : state) (good : list row)
  (pts : schedule_t) (bad : row) (rest : list row)
  (Hopen : fault E (calls s) = None)
  (Hrows : csv_rows E (calls s) = good ++ bad :: rest)
  (Hgood : Forall2 parses good pts)
  (Hshort : getitem bad "time_seconds" = Ok None
            \/ (exists t, float_field bad "time_seconds" = Ok t
                          /\ getitem bad "current_amps" = Ok None)) :
  res (load_schedule E s) = Raise TypeError
  /\ events (load_schedule E s) =
       [Print MsgLoading; Call (ReadSchedule (schedule_file (self s))) None].
Proof.
  rewrite (load_schedule_failing_row E s good pts bad rest TypeError
             Hopen Hrows Hgood (parse_row_short bad Hshort)).
  split; reflexivity.
Qed.

Lemma load_schedule_short_row_witness :
  let short := [("time_seconds"%string, Some "5"%string);
                ("current_amps"%string, None)] in
  res (load_schedule (with_rows [csv_row "0" "1.0"; short]) created)
    = Raise TypeError.
Proof.
  cbn zeta.
  refine (proj1 (load_schedule_short_row
            (with_rows [csv_row "0" "1.0";
                        [("time_seconds"%string, Some "5"%string);
                         ("current_amps"%string, None)]])
            created [csv_row "0" "1.0"] [mkPoint 0 1.0]
            [("time_seconds"%string, Some "5"%string);
             ("current_amps"%string, None)] []
            eq_refl eq_refl _ _)).
  - repeat constructor.
  - right. exists 5. split; reflexivity.
Defined.

(** X7.  A load that fails on some row is not rolled back: when a row lacks
    a column or a cell, or holds a cell that is no number, the points of the
    rows before it have been appended to [self.schedule] and stay there, in
    file order and unsorted, while the load ends in [sys.exit(1)] (in the
    [TypeError] of a missing cell, which no clause catches). *)
Theorem load_schedule_failure_keeps_rows (E : env) (s : state)
  (good : list row) (pts : schedule_t) (bad : row) (rest : list row) (e : exn)
  (Hopen : fault E (calls s) = None)
  (Hrows : csv_rows E (calls s) = good ++ bad :: rest)
  (Hgood : Forall2 parses good pts)
  (Hbad : row_failure bad = Some e) :
  schedule (self (post (load_schedule E s))) = schedule (self s) ++ pts
  /\ res (load_schedule E s) = Raise (load_error e)
  /\ (e = KeyError \/ e = TypeError \/ e = ValueError).
Proof.
  destruct (row_failure_raises bad e Hbad) as [Hraise Hkind].
  rewrite (load_schedule_failing_row E s good pts bad rest e
             Hopen Hrows Hgood Hraise).
  destruct e; (split; [reflexivity | split; [reflexivity | exact Hkind]]).
Qed.

Lemma load_schedule_failure_keeps_rows_witness :
  let E := with_rows [csv_row "300" "2.0"; csv_row "0" "1.0"; csv_row "x" "1"] in
  schedule (self (post (load_schedule E created)))
    = [] ++ [mkPoint 300 2.0; mkPoint 0 1.0]
  /\ res (load_schedule E created) = Raise (SystemExit 1).
Proof.
  cbn zeta.
  pose proof (load_schedule_failure_keeps_rows
            (with_rows [csv_row "300" "2.0"; csv_row "0" "1.0"; csv_row "x" "1"])
            created [csv_row "300" "2.0"; csv_row "0" "1.0"]
            [mkPoint 300 2.0; mkPoint 0 1.0] (csv_row "x" "1") [] ValueError
            eq_refl eq_refl) as H.
  refine ((fun H' => conj (proj1 H') (proj1 (proj2 H'))) (H _ eq_refl)).
  repeat constructor.
Defined.

(** ** More on the sort *)

Lemma sorted_permutation_unique (a b : schedule_t) :
  is_sorted a = true -> is_sorted b = true ->
  Permutation a b -> offsets_distinct a -> a = b.
Proof.
  revert b. induction a as [|x a IH]; intros b Ha Hb Hperm Hdist.
  - now apply Permutation_nil in Hperm.
  - destruct b as [|y b].
    { apply Permutation_sym, Permutation_nil in Hperm. discriminate. }
    destruct (is_sorted_cons _ _ Ha) as [Ha' Hxa].
    destruct (is_sorted_cons _ _ Hb) as [Hb' Hyb].
    rewrite Forall_forall in Hxa, Hyb.
    assert (Hxy : x = y).
    { assert (Hx : In x (y :: b)).
      { apply (Permutation_in _ Hperm). now left. }
      assert (Hy : In y (x :: a)).
      { apply (Permutation_in _ (Permutation_sym Hperm)). now left. }
      destruct Hx as [Hx|Hx]; [now symmetry|].
      destruct Hy as [Hy|Hy]; [assumption|].
      apply Hdist; [now left | now right |].
      apply Qle_antisym; apply Qle_bool_iff; [now apply Hxa | now apply Hyb]. }
    subst y. f_equal. apply IH; try assumption.
    + now apply Permutation_cons_inv in Hperm.
    + intros p q Hp Hq. apply Hdist; now right.
Qed.

(** X8.  When no two different points share an offset, the order of the rows
    in the file does not matter: sorting any rearrangement of the points gives
    the same schedule. *)
Theorem sort_by_time_ignores_row_order (l1 l2 : schedule_t)
  (Hperm : Permutation l1 l2) (Hdist : offsets_distinct l1) :
  sort_by_time l1 = sort_by_time l2.
Proof.
  apply sorted_permutation_unique; try apply sort_by_time_sorted.
  - rewrite <- (sort_by_time_perm l1), <- (sort_by_time_perm l2). exact Hperm.
  - intros p q Hp Hq. apply Hdist;
      now apply (Permutation_in _ (Permutation_sym (sort_by_time_perm l1))).
Qed.

Lemma sort_by_time_ignores_row_order_witness :
  sort_by_time [mkPoint 300 2.0; mkPoint 0 1.0; mkPoint 600 1.5]
  = sort_by_time [mkPoint 600 1.5; mkPoint 300 2.0; mkPoint 0 1.0].
Proof.
  apply sort_by_time_ignores_row_order.
  - apply Permutation_sym, (Permutation_cons_app [_; _] []). reflexivity.
  - intros p q [<-|[<-|[<-|[]]]] [<-|[<-|[<-|[]]]] H;
      try reflexivity; vm_compute in H; discriminate H.
Defined.

(** ** More on the loop *)

Lemma tick_preserves_self (E : env) (start_time next_log_time : Q) :
  preserves (fun o => o) (tick E start_time next_log_time).
Proof. unfold tick, time_time, measure. repeat invariant_step. Qed.

Lemma loop_does_not_return (E : env) (fuel : nat)
  (start_time next_log_time : Q) (s : state) :
  running (self s) = true ->
  res (loop E fuel start_time next_log_time s) <> Ok tt.
Proof.
  revert next_log_time s.
  induction fuel as [|fuel IH]; intros next_log_time s Hrunning;
    cbn [loop]; unfold bind at 1, get_self; rewrite Hrunning.
  - discriminate.
  - unfold bind.
    pose proof (tick_preserves_self E start_time next_log_time s) as Hself.
    destruct (tick E start_time next_log_time s) as [[next'|e|] s1 evs1];
      [|discriminate|discriminate].
    cbn [post] in Hself.
    specialize (IH next' s1). rewrite Hself in IH. specialize (IH Hrunning).
    destruct (loop E fuel start_time next' s1) as [r s2 evs2].
    exact IH.
Qed.

(** X9.  The loop has no way out but an exception: while [self.running] is
    set, which nothing inside the loop changes, [while self.running] never
    falls through, however long it runs and whatever the schedule holds. *)
Theorem loop_never_falls_through (E : env) (fuel : nat)
  (start_time next_log_time : Q) (s : state)
  (Hrunning : running (self s) = true) :
  res (loop E fuel start_time next_log_time s) <> Ok tt.
Proof. now apply loop_does_not_return. Qed.

Lemma loop_never_falls_through_witness :
  res (loop calm 4 3 3 in_loop) <> Ok tt.
Proof. apply loop_never_falls_through. reflexivity. Defined.

Lemma max0_accepted (x : Q) : Qle_bool 0 (max0 x) = true.
Proof. apply Qle_bool_iff, max0_is_max. Qed.

Lemma tick_sleep_accepted (E : env) (start_time next_log_time : Q) :
  events_all sleep_accepted (tick E start_time next_log_time).
Proof.
  unfold tick, time_time, measure.
  repeat first [ apply events_all_call; intro; apply max0_accepted
               | invariant_step ].
Qed.

Lemma loop_sleep_accepted (E : env) (fuel : nat) (start_time next_log_time : Q) :
  events_all sleep_accepted (loop E fuel start_time next_log_time).
Proof.
  revert next_log_time. induction fuel as [|fuel IH]; intros next_log_time;
    cbn [loop]; (apply events_all_bind; [apply events_all_get_self | intros o]);
    (destruct (running o); [|apply events_all_ret]).
  - apply events_all_timeout.
  - apply events_all_bind; [apply tick_sleep_accepted | intros next'; apply IH].
Qed.

Lemma cleanup_events_all (P : event -> bool) (E : env) :
  (forall m, P (Print m) = true) ->
  (forall r, P (Call (SetCurrent 0) r) = true) ->
  (forall r, P (Call InputOff r) = true) ->
  events_all P (cleanup E).
Proof.
  intros Hprint Hzero Hoff. unfold cleanup.
  apply events_all_bind; [apply events_all_get_self | intros o].
  apply events_all_bind.
  - destruct (load o); [|apply events_all_ret].
    apply events_all_try_except.
    + unfold turn_off.
      repeat first [ apply events_all_bind; [|intros _]
                   | now apply events_all_print
                   | now apply events_all_call ].
    + intros e h He. destruct (is_Exception e); [|discriminate].
      injection He as <-. now apply events_all_print.
  - intros _. apply events_all_bind; [apply events_all_modify_self | intros _].
    now apply events_all_print.
Qed.

Lemma run_handler_events_all (P : event -> bool) (e : exn) (h : M unit) :
  (forall m, P (Print m) = true) ->
  run_handler e = Some h -> events_all P h.
Proof.
  intros Hprint. destruct e; cbn; intros [= <-];
    repeat first [ apply events_all_bind; [|intros _]
                 | now apply events_all_print
                 | apply events_all_raise ].
Qed.

(** X10.  No pass of the loop, and nothing else in [run], calls [time.sleep]
    with a negative duration: a deadline that has already passed makes the
    loop sleep for 0 seconds, not raise [ValueError]. *)
Theorem run_sleep_never_negative (E : env) (fuel : nat) (s : state) :
  forall d r, In (Call (Sleep d) r) (events (run E fuel s)) -> 0 <= d.
Proof.
  assert (H : events_all sleep_accepted (run E fuel)).
  { unfold run, guarded. apply events_all_bind; [invariant_step | intros _].
    apply events_all_try_finally; [|now apply cleanup_events_all].
    apply events_all_try_except;
      [|intros e h; now apply run_handler_events_all].
    unfold with_KELSerial, release, session, initialize_log_file, time_time.
    repeat first [ apply loop_sleep_accepted | invariant_step ]. }
  intros d r Hin. specialize (H s). rewrite forallb_forall in H.
  apply Qle_bool_iff. exact (H _ Hin).
Qed.

Lemma run_sleep_never_negative_witness :
  In (Call (Sleep 0) None) (events (run calm 1 fresh)) /\ 0 <= 0.
Proof.
  assert (Hin : In (Call (Sleep 0) None) (events (run calm 1 fresh))).
  { vm_compute. do 23 right. left. reflexivity. }
  split; [exact Hin|].
  exact (run_sleep_never_negative calm 1 fresh 0 None Hin).
Defined.



(** ** More on the shutdown path *)

Lemma keeps_load_cleanup (E : env) : keeps_load (cleanup E).
Proof.
  unfold cleanup. apply keeps_load_bind; [apply keeps_load_get_self|intros o].
  apply keeps_load_bind.
  - destruct (load o); [|apply keeps_load_ret].
    apply keeps_load_try_except.
    + unfold turn_off. repeat keeps_load_step.
    + intros e h He. destruct (is_Exception e); [|discriminate].
      injection He as <-. apply keeps_load_print.
  - intros _. repeat keeps_load_step.
Qed.

Lemma run_post_load (E : env) (fuel : nat) (s : state) :
  load (self (post (run E fuel s)))
    = load (self (post (guarded E fuel s))).
Proof.
  rewrite run_unfold.
  pose proof (keeps_load_cleanup E (post (guarded E fuel s))) as Hc.
  destruct (guarded E fuel s) as [r s1 evs1]. cbn [post] in *.
  destruct r as [[]|e|]; try reflexivity;
    destruct (cleanup E s1) as [[[]|e'|] s2 evs2]; cbn [post] in *;
    exact Hc.
Qed.

(** X13.  [run] never resets [self.load]: once the device has been acquired
    the scheduler still holds the handle when [run] is over, although the
    [with] block has released it and [cleanup] has run. *)
Theorem run_keeps_released_handle (E : env) (fuel : nat) (s : state)
  (Hconn : fault E (calls s) = None) :
  load (self (post (run E fuel s))) = Some (port (self s)).
Proof.
  rewrite run_post_load. now apply guarded_holds_handle.
Qed.

Lemma run_keeps_released_handle_witness :
  load (self (post (run (with_faults [(14%nat, KeyboardInterrupt)]) 5 created)))
    = Some "/dev/ttyACM0"%string.
Proof.
  apply (run_keeps_released_handle
           (with_faults [(14%nat, KeyboardInterrupt)]) 5 created).
  reflexivity.
Defined.

Lemma run_handler_prints (e : exn) (h : M unit) (s : state) :
  run_handler e = Some h ->
  forallb is_print (events (h s)) = true /\ post (h s) = s
  /\ res (h s) <> Timeout.
Proof.
  destruct e; cbn; intros [= <-]; repeat split; discriminate.
Qed.

(** X14.  The guard [if self.load] of [cleanup] looks at a handle that is
    never reset.  On a scheduler that still holds the handle of an earlier
    session, a [run] whose connect fails does send commands: after the failed
    connect [cleanup] commands zero current through the old handle. *)
Theorem run_connect_failure_uses_stale_handle (E : env) (fuel : nat)
  (s : state) (h : string) (e : exn)
  (Hstale : load (self s) = Some h)
  (Hfail : fault E (calls s) = Some e) :
  exists said rest,
    events (run E fuel s) =
      Print MsgConnecting :: Call (Connect (port (self s))) (Some e)
        :: said
        ++ Print MsgTurningOff
        :: Call (SetCurrent 0) (fault E (S (calls s))) :: rest
    /\ forallb is_print said = true.
Proof.
  rewrite run_unfold. unfold guarded, try_except.
  rewrite (with_KELSerial_connect_fails E _ s e Hfail).
  assert (Hc : exists r s' rest,
             cleanup E (mkState (self s) (S (calls s))) =
               mkOut r s'
                 (Print MsgTurningOff
                  :: Call (SetCurrent 0) (fault E (S (calls s))) :: rest)).
  { rewrite (cleanup_with_handle E (mkState (self s) (S (calls s))) h Hstale).
    cbn [calls self].
    destruct (fault E (S (calls s))) as [e0|];
      [|destruct (fault E (S (S (calls s)))) as [e0|]];
      try destruct (is_Exception e0); do 3 eexists; reflexivity. }
  destruct Hc as (r & s' & rest & Hc).
  destruct (run_handler e) as [hd|] eqn:Hh.
  - destruct (run_handler_prints e hd (mkState (self s) (S (calls s))) Hh)
      as (Hsaid & Hpost & Hres).
    destruct (hd _) as [r1 s1 evs1]. cbn [events post res] in *. subst s1.
    exists evs1, rest. split; [|exact Hsaid].
    destruct r1 as [[]|e1|]; [| |now contradiction Hres]; rewrite Hc;
      destruct r as [[]|e2|]; reflexivity.
  - rewrite Hc. exists [], rest. split; [|reflexivity].
    destruct r as [[]|e2|]; reflexivity.
Qed.

Lemma run_connect_failure_uses_stale_handle_witness :
  let E := with_faults [(14%nat, KeyboardInterrupt); (18%nat, DeviceError)] in
  let s := post (run E 5 created) in
  exists said rest,
    events (run E 5 s) =
      Print MsgConnecting
        :: Call (Connect (port (self s))) (Some DeviceError)
        :: said
        ++ Print MsgTurningOff :: Call (SetCurrent 0) (fault E (S (calls s)))
        :: rest
    /\ forallb is_print said = true.
Proof.
  apply (run_connect_failure_uses_stale_handle
           (with_faults [(14%nat, KeyboardInterrupt); (18%nat, DeviceError)]) 5
           (post (run (with_faults [(14%nat, KeyboardInterrupt);
                                    (18%nat, DeviceError)]) 5 created))
           "/dev/ttyACM0"%string DeviceError).
  - vm_compute. reflexivity.
  - vm_compute. reflexivity.
Defined.

(** ** How [run] ends *)

Lemma fault_fatal_modify_self (f : scheduler -> scheduler) :
  fault_fatal (modify_self f).
Proof. intros s. reflexivity. Qed.

Lemma fault_fatal_session (E : env) (fuel : nat) : fault_fatal (session E fuel).
Proof.
  unfold session, initialize_log_file, time_time.
  repeat first [ apply fault_fatal_loop | apply fault_fatal_modify_self
               | fault_fatal_step ].
Qed.

Lemma fault_fatal_seen {A} (m : M A) : fault_fatal m -> raise_is_seen m.
Proof.
  intros Hm s e Hres. specialize (Hm s). unfold fails_last in Hm.
  rewrite Hres in Hm. destruct Hm as (before & c & -> & _).
  exists c. apply in_elt.
Qed.

Lemma raise_is_seen_bind {A B} (m : M A) (f : A -> M B) :
  raise_is_seen m -> (forall a, raise_is_seen (f a)) ->
  raise_is_seen (bind m f).
Proof.
  intros Hm Hf s e. unfold bind. specialize (Hm s).
  destruct (m s) as [[a|e1|] s1 evs1]; cbn [res events] in *.
  - specialize (Hf a s1). destruct (f a s1) as [r s2 evs2].
    cbn [res events] in *. intros Hres. destruct (Hf e Hres) as [c Hc].
    exists c. apply in_or_app. now right.
  - intros [= ->]. now apply Hm.
  - discriminate.
Qed.

Lemma raise_is_seen_try_finally {A} (m : M A) (fin : M unit) :
  raise_is_seen m -> raise_is_seen fin -> raise_is_seen (try_finally m fin).
Proof.
  intros Hm Hf s e. unfold try_finally. specialize (Hm s).
  destruct (m s) as [r s1 evs1]. specialize (Hf s1). cbn [res events] in *.
  destruct r as [a|e1|]; [| |discriminate];
    destruct (fin s1) as [[[]|e2|] s2 evs2]; cbn [res events] in *;
    intros Hres; try discriminate Hres.
  - injection Hres as ->. destruct (Hf e eq_refl) as [c Hc].
    exists c. apply in_or_app. now right.
  - injection Hres as ->. destruct (Hm e eq_refl) as [c Hc].
    exists c. apply in_or_app. now left.
  - injection Hres as ->. destruct (Hf e eq_refl) as [c Hc].
    exists c. apply in_or_app. now right.
Qed.

Lemma raise_is_seen_with_KELSerial (E : env) (fuel : nat) :
  raise_is_seen (with_KELSerial E (session E fuel)).
Proof.
  unfold with_KELSerial.
  apply raise_is_seen_bind;
    [apply fault_fatal_seen, fault_fatal_get_self | intros o].
  apply raise_is_seen_bind;
    [apply fault_fatal_seen, fault_fatal_call | intros _].
  apply raise_is_seen_bind;
    [apply fault_fatal_seen, fault_fatal_modify_self | intros _].
  apply raise_is_seen_try_finally.
  - apply fault_fatal_seen, fault_fatal_session.
  - apply fault_fatal_seen. unfold release. repeat fault_fatal_step.
Qed.

Lemma bind_not_ok {A B} (m : M A) (f : A -> M B) (s : state) (b : B) :
  (forall a s1, res (f a s1) <> Ok b) -> res (bind m f s) <> Ok b.
Proof.
  intros Hf. unfold bind. destruct (m s) as [[a|e|] s1 evs1];
    [|discriminate|discriminate].
  specialize (Hf a s1). now destruct (f a s1).
Qed.

Lemma try_finally_not_ok {A} (m : M A) (fin : M unit) (s : state) (a : A) :
  res (m s) <> Ok a -> res (try_finally m fin s) <> Ok a.
Proof.
  unfold try_finally. destruct (m s) as [r s1 evs1]. cbn [res].
  intros Hm. destruct r as [a'|e|]; [| |discriminate];
    destruct (fin s1) as [[[]|e2|] s2 evs2]; cbn [res];
    try discriminate; exact Hm.
Qed.

Lemma session_does_not_return (E : env) (fuel : nat) (s : state) :
  res (session E fuel s) <> Ok tt.
Proof.
  unfold session. do 11 (apply bind_not_ok; intros ? ?).
  apply bind_not_ok. intros start_time s'.
  unfold bind, modify_self.
  pose proof (loop_does_not_return E fuel start_time start_time
                (mkState (set_running true (self s')) (calls s')) eq_refl)
    as Hloop.
  now destruct (loop E fuel start_time start_time _).
Qed.

(** X15.  [run] returns normally only after a [KeyboardInterrupt]: the loop
    does not end by itself, every other exception is raised again by the
    handler, and so a [run] that returns has seen the interrupt delivered in
    one of its outside calls. *)
Theorem run_returns_only_on_interrupt (E : env) (fuel : nat) (s : state)
  (Hret : res (run E fuel s) = Ok tt) :
  exists c, In (Call c (Some KeyboardInterrupt)) (events (run E fuel s)).
Proof.
  revert Hret. rewrite run_unfold.
  assert (Hg : res (guarded E fuel s) = Ok tt ->
               exists c, In (Call c (Some KeyboardInterrupt))
                            (events (guarded E fuel s))).
  { unfold guarded, try_except.
    pose proof (raise_is_seen_with_KELSerial E fuel s) as Hseen.
    assert (Hnot : res (with_KELSerial E (session E fuel) s) <> Ok tt).
    { unfold with_KELSerial. do 3 (apply bind_not_ok; intros ? ?).
      apply try_finally_not_ok, session_does_not_return. }
    destruct (with_KELSerial E (session E fuel) s) as [[[]|e|] s1 evs1];
      cbn [res events] in *; [now contradiction Hnot | | discriminate].
    destruct (Hseen e eq_refl) as [c Hc].
    destruct e; cbn [run_handler is_Exception];
      try (cbv [bind print raise]; discriminate); try discriminate.
    cbv [print]. intros _. exists c. apply in_or_app. now left. }
  destruct (guarded E fuel s) as [r s1 evs1]. cbn [res events] in Hg.
  destruct r as [[]|e|]; [| |discriminate].
  - destruct (Hg eq_refl) as [c Hc].
    destruct (cleanup E s1) as [[[]|e'|] s2 evs2]; try discriminate.
    intros _. exists c. cbn [events]. right. apply in_or_app. now left.
  - destruct (cleanup E s1) as [[[]|e'|] s2 evs2]; discriminate.
Qed.

Lemma run_returns_only_on_interrupt_witness :
  exists c, In (Call c (Some KeyboardInterrupt))
              (events (run (with_faults [(14%nat, KeyboardInterrupt)]) 5 fresh)).
Proof.
  apply run_returns_only_on_interrupt. vm_compute. reflexivity.
Defined.

Lemma forallb_weaken {A} (P Q : A -> bool) (l : list A) :
  (forall x, P x = true -> Q x = true) ->
  forallb P l = true -> forallb Q l = true.
Proof.
  intros HPQ. induction l as [|x l IH]; [reflexivity|].
  cbn [forallb]. intros H. apply andb_true_iff in H as [Hx Hl].
  now rewrite (HPQ x Hx), (IH Hl).
Qed.

(** ** The first failing call ends the session *)

Lemma loop_stopped (E : env) (fuel : nat) (start_time next_log_time : Q)
  (s : state) :
  running (self s) = false ->
  loop E fuel start_time next_log_time s = mkOut (Ok tt) s [].
Proof.
  intros Hrun. destruct fuel; cbn [loop]; unfold bind, get_self;
    rewrite Hrun; reflexivity.
Qed.

Lemma loop_out_of_fuel (E : env) (start_time next_log_time : Q) (s : state) :
  running (self s) = true ->
  loop E 0 start_time next_log_time s = mkOut Timeout s [].
Proof.
  intros Hrun. cbn [loop]. unfold bind, get_self. rewrite Hrun. reflexivity.
Qed.

Lemma loop_pass (E : env) (fuel : nat) (start_time next_log_time : Q)
  (s : state) :
  running (self s) = true ->
  loop E (S fuel) start_time next_log_time s =
    match tick E start_time next_log_time s with
    | mkOut (Ok next') s1 evs1 =>
        match loop E fuel start_time next' s1 with
        | mkOut r s2 evs2 => mkOut r s2 (evs1 ++ evs2)
        end
    | mkOut (Raise e) s1 evs1 => mkOut (Raise e) s1 evs1
    | mkOut Timeout s1 evs1 => mkOut Timeout s1 evs1
    end.
Proof.
  intros Hrun. cbn [loop]. unfold bind at 1, get_self. rewrite Hrun.
  unfold bind.
  destruct (tick E start_time next_log_time s) as [[next'|e|] s1 evs1];
    try reflexivity.
  now destruct (loop E fuel start_time next' s1).
Qed.

(** A pass that runs to its end has made at least four outside calls, and a
    pass is never out of fuel. *)
Lemma tick_result (E : env) (start_time next_log_time : Q) (s : state) :
  match res (tick E start_time next_log_time s) with
  | Ok _ => (4 + calls s <= calls (post (tick E start_time next_log_time s)))%nat
  | Raise _ => True
  | Timeout => False
  end.
Proof.
  destruct (get_scheduled_current_returns (schedule (self s))
              (clock E (calls s) - start_time)) as [v Hv].
  unfold tick, time_time, measure.
  cbv [bind call ret lift get_self print].
  tick_cbn.
  destruct (fault E (calls s)); tick_cbn; [exact I|]. rewrite Hv. tick_cbn.
  destruct (fault E (S (calls s))); tick_cbn; [exact I|].
  destruct (Qle_bool next_log_time (clock E (calls s))); tick_cbn;
    repeat match goal with
           | |- context [fault ?E ?n] =>
               destruct (fault E n); tick_cbn; [exact I|]
           end; lia.
Qed.

Section First_fault.

Variable E : env.
Variable k : nat.
Variable e : exn.
Hypothesis Hfirst : fault E k = Some e.
Hypothesis Hbefore : forall i, (i < k)%nat -> fault E i = None.

Lemma halts_at_quiet {A} (n : nat) (r : A) (f : state -> state)
  (evs : state -> list event) :
  (forall s, calls (f s) = calls s) ->
  halts_at E k e n (fun s => mkOut (Ok r) (f s) (evs s)).
Proof. intros Hf s Hs. cbn. rewrite Hf. split; [apply Nat.le_refl | exact Hs]. Qed.

Lemma halts_at_ret {A} (n : nat) (a : A) : halts_at E k e n (ret a).
Proof. intros s Hs. cbn. split; [apply Nat.le_refl | exact Hs]. Qed.

Lemma halts_at_print (n : nat) (m : message) : halts_at E k e n (print m).
Proof. intros s Hs. cbn. split; [apply Nat.le_refl | exact Hs]. Qed.

Lemma halts_at_get_self (n : nat) : halts_at E k e n get_self.
Proof. intros s Hs. cbn. split; [apply Nat.le_refl | exact Hs]. Qed.

Lemma halts_at_modify_self (n : nat) (f : scheduler -> scheduler) :
  halts_at E k e n (modify_self f).
Proof. intros s Hs. cbn. split; [apply Nat.le_refl | exact Hs]. Qed.

Lemma halts_at_scheduled_current (n : nat) (sched : schedule_t) (elapsed : Q) :
  halts_at E k e n (lift (get_scheduled_current sched elapsed)).
Proof.
  intros s Hs. destruct (get_scheduled_current_returns sched elapsed) as [v Hv].
  rewrite Hv. cbn. split; [apply Nat.le_refl | exact Hs].
Qed.

Lemma halts_at_call (n : nat) (o : op) : halts_at E k e n (call E o).
Proof.
  intros s Hs. unfold call.
  destruct (Nat.eq_dec (calls s) k) as [Heq|Hne].
  - rewrite Heq, Hfirst. cbn. split; [lia | split; reflexivity].
  - rewrite (Hbefore (calls s)) by lia. cbn. split; lia.
Qed.

Lemma halts_at_bind {A B} (n : nat) (m : M A) (f : A -> M B) :
  halts_at E k e n m -> (forall a, halts_at E k e n (f a)) ->
  halts_at E k e n (bind m f).
Proof.
  intros Hm Hf s Hs. unfold bind. destruct (Hm s Hs) as [Hmono Hres].
  destruct (m s) as [[a|e1|] s1 evs1]; cbn [res post] in *.
  - destruct (Hf a s1 Hres) as [Hmono' Hres'].
    destruct (f a s1) as [r s2 evs2]. cbn [res post] in *.
    split; [lia|]. destruct r; [exact Hres' | exact Hres' | lia].
  - split; assumption.
  - split; assumption.
Qed.

Ltac halts_at_step :=
  first
    [ apply halts_at_bind; [|intro]
    | match goal with
      | |- halts_at _ _ _ _ (if ?b then _ else _) => destruct b
      end
    | apply halts_at_ret | apply halts_at_print | apply halts_at_get_self
    | apply halts_at_modify_self | apply halts_at_scheduled_current
    | apply halts_at_call ].

Lemma halts_at_tick (n : nat) (start_time next_log_time : Q) :
  halts_at E k e n (tick E start_time next_log_time).
Proof. unfold tick, time_time, measure. repeat halts_at_step. Qed.

Lemma halts_at_loop (fuel : nat) (start_time next_log_time : Q) :
  halts_at E k e (4 * fuel) (loop E fuel start_time next_log_time).
Proof.
  revert next_log_time. induction fuel as [|fuel IH]; intros next_log_time s Hs;
    destruct (running (self s)) eqn:Hrun.
  - rewrite (loop_out_of_fuel E _ _ s Hrun). cbn. lia.
  - rewrite (loop_stopped E _ _ _ s Hrun). cbn. lia.
  - rewrite (loop_pass E _ _ _ s Hrun).
    destruct (halts_at_tick 0 start_time next_log_time s Hs) as [Hmono Hres].
    pose proof (tick_result E start_time next_log_time s) as Hfour.
    destruct (tick E start_time next_log_time s) as [[next'|e1|] s1 evs1];
      cbn [res post] in *; [| split; assumption | contradiction].
    destruct (IH next' s1 Hres) as [Hmono' Hres'].
    destruct (loop E fuel start_time next' s1) as [r s2 evs2].
    cbn [res post] in *. split; [lia|].
    destruct r; [exact Hres' | exact Hres' | lia].
  - rewrite (loop_stopped E _ _ _ s Hrun). cbn. lia.
Qed.

Lemma halts_at_session (fuel : nat) :
  halts_at E k e (4 * fuel) (session E fuel).
Proof.
  unfold session, initialize_log_file, time_time.
  repeat first [ apply halts_at_loop | halts_at_step ].
Qed.

(** With enough fuel to reach the failing call the session ends in it. *)
Lemma session_ends_in_first_fault (fuel : nat) (s : state) :
  (calls s <= k)%nat -> (k < 4 * fuel)%nat ->
  res (session E fuel s) = Raise e /\ calls (post (session E fuel s)) = S k.
Proof.
  intros Hs Hfuel. destruct (halts_at_session fuel s Hs) as [_ Hres].
  pose proof (session_does_not_return E fuel s) as Hnot.
  destruct (session E fuel s) as [[[]|e1|] s1 evs1]; cbn [res post] in *.
  - now contradiction Hnot.
  - destruct Hres as [-> ->]. split; reflexivity.
  - lia.
Qed.

End First_fault.

Lemma cleanup_succeeds (E : env) (o : scheduler) (n : nat) (h : string) :
  load o = Some h ->
  fault E n = None -> fault E (S n) = None ->
  cleanup E (mkState o n) =
    mkOut (Ok tt) (mkState (set_running false o) (S (S n)))
      [Print MsgTurningOff; Call (SetCurrent 0) None; Call InputOff None;
       Print MsgTurnedOff; Print (MsgLoggedTo (log_file o))].
Proof.
  intros Hload Hzero Hoff.
  rewrite (cleanup_with_handle E (mkState o n) h Hload). cbn [calls self].
  now rewrite Hzero, Hoff.
Qed.

(** X17.  Nothing inside the session is retried or skipped over.  When the
    first outside call to raise comes after the connect, and the loop is given
    time to reach it, [run] ends there: [__exit__] and the two shutdown
    commands are the only calls that follow, and if these succeed the load is
    left at zero current with its output off, [self.running] is [False], and
    the exception is raised to the caller - except a [KeyboardInterrupt],
    after which [run] returns normally. *)
Theorem run_stops_at_first_fault (E : env) (fuel : nat) (s : state)
  (k : nat) (e : exn)
  (Hfirst : fault E k = Some e)
  (Hbefore : forall i, (i < k)%nat -> fault E i = None)
  (Hconn : (calls s < k)%nat)
  (Hfuel : (k < 4 * fuel)%nat)
  (Hrelease : fault E (1 + k) = None)
  (Hzero : fault E (2 + k) = None)
  (Hoff : fault E (3 + k) = None) :
  res (run E fuel s)
    = match e with KeyboardInterrupt => Ok tt | _ => Raise e end
  /\ calls (post (run E fuel s)) = (4 + k)%nat
  /\ running (self (post (run E fuel s))) = false
  /\ forall d, safe (device_after d (events (run E fuel s))) = true.
Proof.
  assert (Hc0 : fault E (calls s) = None) by now apply Hbefore.
  change (fault E (S k) = None) in Hrelease.
  change (fault E (S (S k)) = None) in Hzero.
  change (fault E (S (S (S k))) = None) in Hoff.
  pose proof (guarded_holds_handle E fuel s Hc0) as Hload.
  rewrite run_unfold. revert Hload. unfold guarded, try_except.
  rewrite (with_KELSerial_connected E _ s Hc0). unfold try_finally.
  destruct (session_ends_in_first_fault E k e Hfirst Hbefore fuel (connected s))
    as [Hres Hcalls]; [cbn; lia | exact Hfuel |].
  destruct (session E fuel (connected s)) as [rb sb evb].
  cbn [res post] in Hres, Hcalls. subst rb.
  unfold release, bind, call, ret. rewrite Hcalls, Hrelease. cbn [self calls].
  destruct e; cbn [run_handler is_Exception]; cbv [bind print raise];
    cbn [events post res self calls app]; intros Hload;
    rewrite (cleanup_succeeds E _ _ _ Hload Hzero Hoff).
  all: cbn [res post events self calls set_running running];
    (split; [reflexivity|]); (split; [reflexivity|]); (split; [reflexivity|]);
    intros d;
    match goal with
    | |- safe (device_after d (?a :: ?b :: ?X ++ _)) = true =>
        apply (device_after_cleanup d (a :: b :: X))
    end; reflexivity.
Qed.

Lemma run_stops_at_first_fault_witness :
  let E := with_faults [(21%nat, DeviceError)] in
  res (run E 6 fresh) = Raise DeviceError
  /\ calls (post (run E 6 fresh)) = 25%nat
  /\ running (self (post (run E 6 fresh))) = false
  /\ forall d, safe (device_after d (events (run E 6 fresh))) = true.
Proof.
  apply (run_stops_at_first_fault (with_faults [(21%nat, DeviceError)]) 6 fresh
           21 DeviceError).
  - reflexivity.
  - intros i Hi. do 21 (destruct i as [|i]; [reflexivity|]). lia.
  - cbn. lia.
  - lia.
  - reflexivity.
  - reflexivity.
  - reflexivity.
Defined.

(** ** The output is enabled at zero current only *)

Lemma on_at_zero_app (d : device) (l1 l2 : list event) :
  on_at_zero d (l1 ++ l2)
  = (on_at_zero d l1 && on_at_zero (device_after d l1) l2)%bool.
Proof.
  revert d. induction l1 as [|ev l1 IH]; intros d; [reflexivity|].
  cbn [app on_at_zero device_after fold_left]. rewrite IH.
  unfold device_after. now rewrite andb_assoc.
Qed.

Lemma on_at_zero_without_on (d : device) (evs : list event) :
  forallb not_input_on evs = true -> on_at_zero d evs = true.
Proof.
  revert d. induction evs as [|ev evs IH]; intros d H; [reflexivity|].
  cbn [forallb] in H. apply andb_true_iff in H as [Hev Hevs].
  cbn [on_at_zero]. rewrite (IH _ Hevs), andb_true_r.
  now destruct ev as [[] r|m].
Qed.

Lemma arms_at_zero_quiet {A} (m : M A) :
  events_all not_input_on m -> arms_at_zero m.
Proof. intros H s d. apply on_at_zero_without_on, H. Qed.

Lemma arms_at_zero_bind {A B} (m : M A) (f : A -> M B) :
  arms_at_zero m -> (forall a, arms_at_zero (f a)) -> arms_at_zero (bind m f).
Proof.
  intros Hm Hf s d. unfold bind. specialize (Hm s).
  destruct (m s) as [[a|e|] s1 evs1]; cbn [events] in *; try apply Hm.
  specialize (Hf a s1). destruct (f a s1) as [r s2 evs2]. cbn [events] in *.
  now rewrite on_at_zero_app, Hm, Hf.
Qed.

Lemma arms_at_zero_try_except {A} (m : M A) (handler : exn -> option (M A)) :
  arms_at_zero m ->
  (forall e h, handler e = Some h -> arms_at_zero h) ->
  arms_at_zero (try_except m handler).
Proof.
  intros Hm Hh s d. unfold try_except. specialize (Hm s).
  destruct (m s) as [[a|e|] s1 evs1]; cbn [events] in *; try apply Hm.
  destruct (handler e) as [h|] eqn:He; [|apply Hm].
  specialize (Hh e h He s1). destruct (h s1) as [r s2 evs2]. cbn [events] in *.
  now rewrite on_at_zero_app, Hm, Hh.
Qed.

Lemma arms_at_zero_try_finally {A} (m : M A) (fin : M unit) :
  arms_at_zero m -> arms_at_zero fin -> arms_at_zero (try_finally m fin).
Proof.
  intros Hm Hf s d. unfold try_finally. specialize (Hm s).
  destruct (m s) as [r s1 evs1]. specialize (Hf s1). cbn [events] in *.
  destruct r; try apply Hm;
    destruct (fin s1) as [[[]|e'|] s2 evs2]; cbn [events] in *;
    now rewrite on_at_zero_app, Hm, Hf.
Qed.

Lemma loop_not_input_on (E : env) (fuel : nat) (start_time next_log_time : Q) :
  events_all not_input_on (loop E fuel start_time next_log_time).
Proof.
  revert next_log_time. induction fuel as [|fuel IH]; intros next_log_time;
    cbn [loop]; (apply events_all_bind; [apply events_all_get_self | intros o]);
    (destruct (running o); [|apply events_all_ret]).
  - apply events_all_timeout.
  - apply events_all_bind; [|intros next'; apply IH].
    unfold tick, time_time, measure. repeat invariant_step.
Qed.

(** What [run] does once the output has been enabled. *)
Lemma session_logging_not_input_on (E : env) (fuel : nat) :
  events_all not_input_on (session_logging E fuel).
Proof.
  unfold session_logging, initialize_log_file, time_time.
  repeat first [ apply loop_not_input_on | invariant_step ].
Qed.

Lemma arms_at_zero_session (E : env) (fuel : nat) :
  arms_at_zero (session E fuel).
Proof.
  intros s d.
  change (session E fuel)
    with (bind (call E GetModel) (fun _ =>
          bind (print MsgConnected) (fun _ =>
          bind (call E GetStatus) (fun _ =>
          bind (print MsgStatus) (fun _ =>
          bind (print MsgSettingMode) (fun _ =>
          bind (call E (SetCurrent 0)) (fun _ =>
          bind (print MsgTurningOn) (fun _ =>
          bind (call E InputOn) (fun _ => session_logging E fuel))))))))).
  cbv [bind call print]. cbn [self calls].
  destruct (fault E (calls s)); [reflexivity|]. cbn [self calls app].
  destruct (fault E (S (calls s))); [reflexivity|]. cbn [self calls app].
  destruct (fault E (S (S (calls s)))); [reflexivity|]. cbn [self calls app].
  destruct (fault E (S (S (S (calls s))))); [reflexivity|].
  pose proof (session_logging_not_input_on E fuel
                (mkState (self s) (S (S (S (S (calls s))))))) as Hrest.
  destruct (session_logging E fuel _) as [r s' evs]. cbn [events app] in *.
  cbn [on_at_zero apply_event setpoint output]. cbn.
  now apply on_at_zero_without_on.
Qed.

(** X18.  Wherever [run] is stopped and whatever state the load was in
    before, [input.on()] is only ever issued right after the load accepted a
    setpoint of 0 A: the output is never enabled onto a current left over from
    an earlier session. *)
Theorem run_enables_output_at_zero (E : env) (fuel : nat) (s : state)
  (d : device) :
  on_at_zero d (events (run E fuel s)) = true.
Proof.
  revert s d. change (arms_at_zero (run E fuel)). unfold run, guarded.
  apply arms_at_zero_bind;
    [apply arms_at_zero_quiet; invariant_step | intros _].
  apply arms_at_zero_try_finally.
  - apply arms_at_zero_try_except.
    + unfold with_KELSerial.
      apply arms_at_zero_bind;
        [apply arms_at_zero_quiet; invariant_step | intros o].
      apply arms_at_zero_bind;
        [apply arms_at_zero_quiet; invariant_step | intros _].
      apply arms_at_zero_bind;
        [apply arms_at_zero_quiet; invariant_step | intros _].
      apply arms_at_zero_try_finally; [apply arms_at_zero_session|].
      apply arms_at_zero_quiet. unfold release. repeat invariant_step.
    + intros e h He. apply arms_at_zero_quiet.
      now apply (run_handler_events_all not_input_on e).
  - apply arms_at_zero_quiet. now apply cleanup_events_all.
Qed.

(** ** [main] *)

Lemma load_schedule_reads_only (E : env) :
  events_all reads_schedule_only (load_schedule E).
Proof.
  unfold load_schedule. apply events_all_bind; [invariant_step|intros _].
  apply events_all_try_except.
  - repeat first [ apply append_rows_events_all
                 | apply print_points_events_all; reflexivity
                 | invariant_step ].
  - intros e h He. destruct e; try discriminate He;
      injection He as <-; repeat invariant_step.
Qed.

Lemma existsb_map_Session (evs : list event) :
  existsb session_device_call (map Session evs) = existsb device_call evs.
Proof. induction evs as [|ev evs IH]; [reflexivity|]. cbn. now rewrite IH. Qed.

Lemma no_device_call_when_reading (evs : list event) :
  forallb reads_schedule_only evs = true -> existsb device_call evs = false.
Proof.
  induction evs as [|ev evs IH]; [reflexivity|]. cbn [forallb existsb].
  intros H. apply andb_true_iff in H as [Hev Hevs]. rewrite (IH Hevs).
  destruct ev as [[] r|m]; try discriminate Hev; reflexivity.
Qed.

Lemma load_schedule_open_failed (E : env) (s : state) (e : exn) :
  fault E (calls s) = Some e ->
  res (load_schedule E s) = Raise (load_error e).
Proof.
  intros Hopen.
  unfold load_schedule, try_except, bind, print, get_self, call, raise.
  cbn. rewrite Hopen. cbn. destruct e; reflexivity.
Qed.

Lemma load_schedule_row_failed (E : env) (s : state) (good : list row)
  (pts : schedule_t) (bad : row) (rest : list row) (e : exn) :
  fault E (calls s) = None ->
  csv_rows E (calls s) = good ++ bad :: rest ->
  Forall2 parses good pts ->
  row_failure bad = Some e ->
  res (load_schedule E s) = Raise (load_error e).
Proof.
  intros Hopen Hrows Hgood Hbad.
  destruct (row_failure_raises bad e Hbad) as [Hraise _].
  rewrite (load_schedule_failing_row E s good pts bad rest e
             Hopen Hrows Hgood Hraise).
  destruct e; reflexivity.
Qed.

(** X19.  [main] does not come near the device unless the schedule has been
    loaded.  With a port or a schedule argument that is missing or empty it
    prints the usage text and stops with exit status 1.  When the schedule
    file cannot be read, or a row of it lacks a column or a cell or holds a
    cell that is no number, it does what [load_schedule] did and stops as
    [load_schedule] did: with exit status 1 for a missing file, a missing
    column or a bad number, with the exception itself otherwise.  In neither
    case is a single call made on the device. *)
Theorem main_startup_failure_spares_device (E : env) (fuel : nat)
  (args : namespace) (p f : string) (good : list row) (pts : schedule_t)
  (bad : row) (rest : list row) (e : exn)
  (Hstart :
     (py_not (arg_port args) || py_not (arg_schedule args))%bool = true
     \/ (arg_port args = Some p /\ arg_schedule args = Some f
         /\ (fault E 0 = Some e
             \/ (fault E 0 = None
                 /\ csv_rows E 0 = good ++ bad :: rest
                 /\ Forall2 parses good pts
                 /\ row_failure bad = Some e)))) :
  existsb session_device_call (snd (main E fuel args)) = false
  /\ (if (py_not (arg_port args) || py_not (arg_schedule args))%bool
      then main E fuel args
           = (Raise (SystemExit 1), [PrintHelp; PrintUsageError])
      else main E fuel args
           = (Raise (load_error e),
              map Session
                (events (load_schedule E
                           (mkState (init p f (arg_log args) 1) 0))))).
Proof.
  unfold main.
  destruct (py_not (arg_port args) || py_not (arg_schedule args))%bool;
    [split; reflexivity|].
  destruct Hstart as [Hmissing | (Hp & Hf & Hload)]; [discriminate|].
  rewrite Hp, Hf. cbn zeta. unfold bind.
  pose proof (load_schedule_reads_only E
                (mkState (init p f (arg_log args) 1) 0)) as Hreads.
  assert (Hres : res (load_schedule E (mkState (init p f (arg_log args) 1) 0))
                 = Raise (load_error e)).
  { destruct Hload as [Hopen | (Hopen & Hrows & Hgood & Hbad)].
    - now apply load_schedule_open_failed.
    - now apply (load_schedule_row_failed E _ good pts bad rest e). }
  destruct (load_schedule E (mkState (init p f (arg_log args) 1) 0))
    as [r s1 evs1]; cbn [res events fst snd] in *. subst r.
  cbn [fst snd]. split; [|reflexivity].
  rewrite existsb_map_Session. now apply no_device_call_when_reading.
Qed.

Lemma main_startup_failure_spares_device_witness :
  let E := with_rows [csv_row "0" "1.0"; csv_row "abc" "2.0"] in
  let args := mkArgs (Some "COM3"%string) (Some "schedule.csv"%string)
                "voltage_log.csv" in
  existsb session_device_call (snd (main E 5 args)) = false
  /\ main E 5 args
     = (Raise (SystemExit 1),
        map Session
          (events (load_schedule E
                     (mkState (init "COM3" "schedule.csv" "voltage_log.csv" 1)
                        0)))).
Proof.
  apply (main_startup_failure_spares_device
           (with_rows [csv_row "0" "1.0"; csv_row "abc" "2.0"]) 5
           (mkArgs (Some "COM3"%string) (Some "schedule.csv"%string)
              "voltage_log.csv")
           "COM3"%string "schedule.csv"%string
           [csv_row "0" "1.0"] [mkPoint 0 1.0] (csv_row "abc" "2.0") []
           ValueError).
  right. split; [reflexivity|]. split; [reflexivity|].
  right. split; [reflexivity|]. split; [reflexivity|].
  split; [repeat constructor | reflexivity].
Defined.


Lemma loop_preserves_configuration (E : env) (fuel : nat)
  (start_time next_log_time : Q) :
  preserves configuration (loop E fuel start_time next_log_time).
Proof.
  revert next_log_time. induction fuel as [|fuel IH]; intros next_log_time;
    cbn [loop]; (apply preserves_bind; [apply preserves_get_self | intros o]);
    (destruct (running o); [|apply preserves_ret]).
  - apply preserves_timeout.
  - apply preserves_bind; [|intros next'; apply IH].
    unfold tick, time_time, measure. repeat invariant_step.
Qed.

Lemma cleanup_preserves_configuration (E : env) :
  preserves configuration (cleanup E).
Proof.
  unfold cleanup. apply preserves_bind; [apply preserves_get_self | intros o].
  apply preserves_bind.
  - destruct (load o); [|apply preserves_ret].
    apply preserves_try_except.
    + unfold turn_off. repeat invariant_step.
    + intros e h He. destruct (is_Exception e); [|discriminate].
      injection He as <-. apply preserves_print.
  - intros _. repeat invariant_step.
Qed.

Lemma run_preserves_configuration (E : env) (fuel : nat) :
  preserves configuration (run E fuel).
Proof.
  unfold run, guarded. apply preserves_bind; [invariant_step | intros _].
  apply preserves_try_finally; [|apply cleanup_preserves_configuration].
  apply preserves_try_except.
  - unfold with_KELSerial, release, session, initialize_log_file, time_time.
    repeat first [ apply loop_preserves_configuration | invariant_step ].
  - intros e h He. destruct e; cbn in He; try discriminate He;
      injection He as <-; repeat invariant_step.
Qed.

(** X20.  [run] is read-only on the scheduler's configuration: however it
    ends, port, file names, sampling interval and the schedule itself are as
    they were; only [load] and [running] change.  The list the loop looks the
    current up in is therefore the same on every pass. *)
Theorem run_changes_only_load_and_running (E : env) (fuel : nat) (s : state) :
  configuration (self (post (run E fuel s))) = configuration (self s).
Proof. apply run_preserves_configuration. Qed.

(** X21.  When both arguments are given and every row of the file converts,
    [main] runs the session on the sorted list of the file's points, with the
    default sampling interval of one second and no device handle yet; its
    outcome is that of [run], and the schedule is still that sorted list when
    [run] is over. *)
Theorem main_runs_the_loaded_schedule (E : env) (fuel : nat)
  (args : namespace) (p f : string) (pts : schedule_t)
  (Hp : arg_port args = Some p) (Hf : arg_schedule args = Some f)
  (Hpne : p <> ""%string) (Hfne : f <> ""%string)
  (Hopen : fault E 0 = None)
  (Hrows : Forall2 parses (csv_rows E 0) pts) :
  let loaded :=
    mkState (mkScheduler p f (arg_log args) (sort_by_time pts) None false 1)
            1 in
  fst (main E fuel args) = res (run E fuel loaded)
  /\ snd (main E fuel args) =
       map Session
         (events (load_schedule E (mkState (init p f (arg_log args) 1) 0))
          ++ events (run E fuel loaded))
  /\ schedule (self (post (run E fuel loaded))) = sort_by_time pts
  /\ is_sorted (schedule (self (post (run E fuel loaded)))) = true.
Proof.
  cbn zeta. unfold main. rewrite Hp, Hf. cbn [py_not].
  apply String.eqb_neq in Hpne, Hfne. rewrite Hpne, Hfne. cbn [orb].
  destruct (load_schedule_ok E (mkState (init p f (arg_log args) 1) 0) pts
              Hopen Hrows) as [Hres Hpost].
  cbn [self calls init schedule set_schedule app port schedule_file log_file
       load running logging_interval] in Hpost.
  unfold bind.
  destruct (load_schedule E (mkState (init p f (arg_log args) 1) 0))
    as [r1 s1 evs1]. cbn [res post events] in *. subst r1 s1.
  pose proof (run_preserves_configuration E fuel
                (mkState (mkScheduler p f (arg_log args) (sort_by_time pts)
                            None false 1) 1)) as Hcfg.
  unfold configuration in Hcfg. cbn [self schedule] in Hcfg.
  injection Hcfg as _ _ _ Hsched _.
  destruct (run E fuel _) as [r2 s2 evs2]. cbn [res post events fst snd] in *.
  repeat split; try reflexivity; try assumption.
  rewrite Hsched. apply sort_by_time_sorted.
Qed.

Lemma main_runs_the_loaded_schedule_witness :
  let E := with_rows [csv_row "300" "2.0"; csv_row "0" "1.0"] in
  let args := mkArgs (Some "COM3"%string) (Some "schedule.csv"%string)
                "voltage_log.csv" in
  let loaded :=
    mkState (mkScheduler "COM3" "schedule.csv" "voltage_log.csv"
               (sort_by_time [mkPoint 300 2.0; mkPoint 0 1.0]) None false 1)
            1 in
  fst (main E 3 args) = res (run E 3 loaded)
  /\ snd (main E 3 args) =
       map Session
         (events (load_schedule E
                    (mkState (init "COM3" "schedule.csv" "voltage_log.csv" 1) 0))
          ++ events (run E 3 loaded))
  /\ schedule (self (post (run E 3 loaded)))
       = sort_by_time [mkPoint 300 2.0; mkPoint 0 1.0]
  /\ is_sorted (schedule (self (post (run E 3 loaded)))) = true.
Proof.
  apply (main_runs_the_loaded_schedule
           (with_rows [csv_row "300" "2.0"; csv_row "0" "1.0"]) 3
           (mkArgs (Some "COM3"%string) (Some "schedule.csv"%string)
              "voltage_log.csv")
           "COM3"%string "schedule.csv"%string
           [mkPoint 300 2.0; mkPoint 0 1.0]);
    try reflexivity; try discriminate.
  repeat constructor.
Defined.

(** ** Writing numbers and reading them back *)

Lemma digit_cases (d : Z) :
  (0 <= d < 10)%Z ->
  d = 0%Z \/ d = 1%Z \/ d = 2%Z \/ d = 3%Z \/ d = 4%Z \/ d = 5%Z \/ d = 6%Z
  \/ d = 7%Z \/ d = 8%Z \/ d = 9%Z.
Proof. lia. Qed.

Ltac each_digit H :=
  destruct (digit_cases _ H) as [->|[->|[->|[->|[->|[->|[->|[->|[->| ->]]]]]]]]].

Lemma digit_of_digit_char (d : Z) :
  (0 <= d < 10)%Z -> digit_of (digit_char d) = Some d.
Proof. intros H. each_digit H; reflexivity. Qed.

(** A digit is no white space, no sign and no point. *)
Lemma digit_char_plain (d : Z) :
  (0 <= d < 10)%Z ->
  is_space (digit_char d) = false
  /\ Ascii.eqb (digit_char d) "-" = false
  /\ Ascii.eqb (digit_char d) "+" = false.
Proof. intros H. each_digit H; repeat split. Qed.

Lemma mod10_digit (n : Z) : (0 <= n mod 10 < 10)%Z.
Proof. apply Z.mod_pos_bound. lia. Qed.

Lemma read_digits_digit (d : Z) (rest : list ascii) (acc : Z) (c : nat) :
  (0 <= d < 10)%Z ->
  read_digits (digit_char d :: rest) acc c
  = read_digits rest (10 * acc + d)%Z (S c).
Proof. intros H. cbn [read_digits]. now rewrite (digit_of_digit_char d H). Qed.

Lemma read_digits_fixed (width : nat) :
  forall (n : Z) (rest : list ascii) (acc : Z) (c : nat),
    read_digits (rev (fixed_rev width n) ++ rest) acc c
    = read_digits rest (acc * 10 ^ Z.of_nat width
                        + n mod 10 ^ Z.of_nat width)%Z (c + width)%nat.
Proof.
  induction width as [|width IH]; intros n rest acc c.
  - cbn [fixed_rev rev app]. rewrite Nat.add_0_r. f_equal.
    change (10 ^ Z.of_nat 0)%Z with 1%Z. rewrite Z.mod_1_r. lia.
  - cbn [fixed_rev rev]. rewrite <- app_assoc. cbn [app].
    rewrite IH, (read_digits_digit _ _ _ _ (mod10_digit n)).
    f_equal; [|lia].
    rewrite Nat2Z.inj_succ, Z.pow_succ_r by lia.
    rewrite (Z.rem_mul_r n 10 (10 ^ Z.of_nat width)) by lia. lia.
Qed.

Lemma read_digits_decimal (fuel : nat) :
  forall n : Z,
    (0 <= n < 10 ^ Z.of_nat fuel)%Z ->
    exists len : nat,
      (0 < fuel -> 0 < len)%nat
      /\ forall (rest : list ascii) (acc : Z) (c : nat),
           read_digits (rev (digits_rev fuel n) ++ rest) acc c
           = read_digits rest (acc * 10 ^ Z.of_nat len + n)%Z (c + len)%nat.
Proof.
  induction fuel as [|fuel IH]; intros n Hn.
  - exists 0%nat. split; [lia|]. intros rest acc c.
    cbn [digits_rev rev app]. rewrite Nat.add_0_r. f_equal.
    change (10 ^ Z.of_nat 0)%Z with 1%Z in *. lia.
  - rewrite Nat2Z.inj_succ, Z.pow_succ_r in Hn by lia.
    cbn [digits_rev]. destruct (n / 10 =? 0)%Z eqn:Hq.
    + apply Z.eqb_eq in Hq. exists 1%nat. split; [lia|]. intros rest acc c.
      cbn [rev app]. rewrite (read_digits_digit _ _ _ _ (mod10_digit n)).
      f_equal; [|lia]. change (10 ^ Z.of_nat 1)%Z with 10%Z.
      pose proof (Z.div_mod n 10). lia.
    + apply Z.eqb_neq in Hq.
      destruct (IH (n / 10)%Z) as (len & Hlen & Hread).
      { split; [apply Z.div_pos; lia|].
        apply Z.div_lt_upper_bound; lia. }
      exists (S len). split; [lia|]. intros rest acc c.
      cbn [rev]. rewrite <- app_assoc. cbn [app].
      rewrite Hread, (read_digits_digit _ _ _ _ (mod10_digit n)).
      f_equal; [|lia].
      rewrite Nat2Z.inj_succ, Z.pow_succ_r by lia.
      pose proof (Z.div_mod n 10). lia.
Qed.

Lemma decimal_reads (n : Z) :
  (0 <= n)%Z ->
  exists len : nat,
    (0 < len)%nat
    /\ forall (rest : list ascii) (acc : Z) (c : nat),
         read_digits (decimal n ++ rest) acc c
         = read_digits rest (acc * 10 ^ Z.of_nat len + n)%Z (c + len)%nat.
Proof.
  intros Hn. unfold decimal.
  destruct (read_digits_decimal (S (Z.to_nat n)) n) as (len & Hlen & Hread).
  - split; [exact Hn|]. rewrite Nat2Z.inj_succ, Z2Nat.id by exact Hn.
    pose proof (Z.pow_gt_lin_r 10 (Z.succ n)). lia.
  - exists len. split; [apply Hlen; lia | exact Hread].
Qed.

(** The decimal spelling starts with a digit. *)
Lemma decimal_head (n : Z) :
  (0 <= n)%Z ->
  exists d tail, (0 <= d < 10)%Z /\ decimal n = digit_char d :: tail.
Proof.
  intros Hn. unfold decimal. generalize (Z.to_nat n). intros fuel.
  assert (Hall : forall f m, Forall (fun c => exists d, (0 <= d < 10)%Z
                                               /\ c = digit_char d)
                               (digits_rev f m)).
  { induction f as [|f IHf]; intros m; cbn [digits_rev]; [constructor|].
    constructor; [exists (m mod 10)%Z; split; [apply mod10_digit|reflexivity]|].
    destruct (m / 10 =? 0)%Z; [constructor | apply IHf]. }
  specialize (Hall (S fuel) n). apply Forall_rev in Hall.
  destruct (rev (digits_rev (S fuel) n)) as [|c tail] eqn:Hrev.
  - apply (f_equal (@List.length ascii)) in Hrev.
    rewrite length_rev in Hrev. cbn in Hrev. discriminate.
  - inversion Hall as [|? ? (d & Hd & ->) _]; subst. now exists d, tail.
Qed.

Lemma parse_unsigned_decimal (places : nat) (whole part : Z) :
  (0 <= whole)%Z ->
  parse_unsigned (decimal whole ++ "."%char :: fixed_digits places part)
  = Some (Qmake (whole * 10 ^ Z.of_nat places + part mod 10 ^ Z.of_nat places)
                (Z.to_pos (10 ^ Z.of_nat places))).
Proof.
  intros Hw. destruct (decimal_reads whole Hw) as (len & Hlen & Hread).
  unfold parse_unsigned. rewrite Hread. cbn [read_digits digit_of].
  change (digit_of ".") with (@None Z). cbn iota.
  change (Ascii.eqb "." ".") with true. cbn iota.
  unfold fixed_digits.
  rewrite <- (app_nil_r (rev (fixed_rev places part))), read_digits_fixed.
  cbn [read_digits].
  assert (Hpos : Nat.ltb 0 (0 + len + (0 + places)) = true)
    by (apply Nat.ltb_lt; lia).
  rewrite Hpos. cbn [Nat.add].
  replace ((0 * 10 ^ Z.of_nat len + whole) * 10 ^ Z.of_nat places
           + (0 * 10 ^ Z.of_nat places + part mod 10 ^ Z.of_nat places))%Z
    with (whole * 10 ^ Z.of_nat places + part mod 10 ^ Z.of_nat places)%Z
    by lia.
  reflexivity.
Qed.

Lemma lstrip_plain (c : ascii) (l : list ascii) :
  is_space c = false -> lstrip (c :: l) = c :: l.
Proof. intros H. cbn [lstrip]. now rewrite H. Qed.

Lemma strip_plain (l : list ascii) (c c' : ascii) (front back : list ascii) :
  l = c :: front -> rev l = c' :: back ->
  is_space c = false -> is_space c' = false ->
  strip l = l.
Proof.
  intros Hl Hrev Hc Hc'. unfold strip. rewrite Hl at 1.
  rewrite (lstrip_plain c front Hc), <- Hl, Hrev, (lstrip_plain c' back Hc').
  now rewrite <- Hrev, rev_involutive.
Qed.

Lemma round_half_even_nonneg (q : Q) : 0 <= q -> (0 <= round_half_even q)%Z.
Proof.
  intros Hq. unfold round_half_even.
  assert (H0 : (0 <= Qfloor q)%Z).
  { change 0%Z with (Qfloor 0). now apply Qfloor_resp_le. }
  destruct (Qcompare _ _); [destruct (Z.even _)| |]; lia.
Qed.

Lemma scaled_nonneg (places : nat) (x : Q) :
  (0 <= round_half_even (Qabs x * inject_Z (10 ^ Z.of_nat places)))%Z.
Proof.
  apply round_half_even_nonneg, Qmult_le_0_compat; [apply Qabs_nonneg|].
  change 0 with (inject_Z 0). rewrite <- Zle_Qle. apply Z.pow_nonneg. lia.
Qed.

(** Reading back what [format_fixed] wrote gives the rounded number. *)
Lemma format_fixed_reads (places : nat) (x : Q) :
  (0 < places)%nat ->
  float_of_string (format_fixed places x) = Some (rounded places x).
Proof.
  intros Hplaces. unfold format_fixed, float_of_string, rounded.
  rewrite list_ascii_of_string_of_list_ascii.
  pose proof (scaled_nonneg places x) as Hscaled.
  set (scale := (10 ^ Z.of_nat places)%Z) in *.
  set (scaled := round_half_even (Qabs x * inject_Z scale)) in *.
  assert (Hscale : (0 < scale)%Z) by (apply Z.pow_pos_nonneg; lia).
  assert (Hwhole : (0 <= scaled / scale)%Z) by (apply Z.div_pos; lia).
  destruct (decimal_head _ Hwhole) as (d & tail & Hd & Hdec).
  destruct (digit_char_plain d Hd) as (Hsp & Hminus & Hplus).
  pose proof (parse_unsigned_decimal places (scaled / scale)
                (scaled mod scale) Hwhole) as Hparse.
  fold scale in Hparse.
  replace (scaled / scale * scale + (scaled mod scale) mod scale)%Z
    with scaled in Hparse
    by (rewrite Z.mod_mod by lia; pose proof (Z.div_mod scaled scale); lia).
  assert (Hlast : exists back,
            forall front,
              rev (front ++ decimal (scaled / scale)
                     ++ "."%char :: fixed_digits places (scaled mod scale))
              = digit_char ((scaled mod scale) mod 10) :: back front).
  { destruct places as [|w]; [lia|].
    eexists (fun front => _). intros front.
    rewrite !rev_app_distr. cbn [rev]. unfold fixed_digits.
    rewrite rev_involutive. cbn [fixed_rev app rev].
    rewrite <- !app_assoc. cbn [app]. reflexivity. }
  destruct Hlast as (back & Hlast).
  destruct (digit_char_plain _ (mod10_digit (scaled mod scale)))
    as (Hsp' & _ & _).
  destruct (Qle_bool 0 x).
  - cbn [app]. specialize (Hlast []). cbn [app] in Hlast.
    rewrite (strip_plain _ _ _ _ _
               (f_equal (fun l => l ++ _) Hdec) Hlast Hsp Hsp').
    rewrite Hdec at 1. cbn [app]. rewrite Hminus, Hplus.
    rewrite <- Hparse, Hdec. reflexivity.
  - cbn [app]. specialize (Hlast ["-"%char]). cbn [app] in Hlast.
    rewrite (strip_plain _ _ _ _ _ eq_refl Hlast eq_refl Hsp').
    change (Ascii.eqb "-" "-") with true. cbn iota.
    rewrite Hparse. reflexivity.
Qed.

(** ** plotting.py *)

Lemma read_series_lengths (rows : list row) :
  forall (xs0 ys0 xs ys : list Q),
    read_series rows xs0 ys0 = Ok (xs, ys) ->
    List.length xs = (List.length xs0 + List.length rows)%nat
    /\ List.length ys = (List.length ys0 + List.length rows)%nat.
Proof.
  induction rows as [|r rows IH]; intros xs0 ys0 xs ys H; cbn [read_series] in H.
  - injection H as <- <-. cbn. lia.
  - destruct (float_field r "elapsed_seconds") as [e| |]; try discriminate H.
    destruct (float_field r "voltage_volts") as [v| |]; try discriminate H.
    destruct (IH _ _ _ _ H) as [Hx Hy]. rewrite length_app in Hx, Hy.
    cbn [List.length] in *. lia.
Qed.

Lemma py_slice_length {A} (lo hi : nat) (l : list A) :
  List.length (py_slice lo hi l)
  = Nat.min (hi - lo) (List.length l - lo).
Proof. unfold py_slice. now rewrite length_firstn, length_skipn. Qed.

(** X23.  When every row of the log converts, the two series plotting.py
    hands to [plt.plot] have the same length, so the plot call is well formed;
    they hold the samples 22 to 179, at most 158 of them, and nothing at all
    when the log has 22 rows or fewer - the slice never raises. *)
Theorem plotted_series_match (rows : list row) (xs ys : list Q)
  (Hplot : plotted rows = Ok (xs, ys)) :
  List.length xs = List.length ys
  /\ List.length xs = Nat.min 158 (List.length rows - 22)
  /\ ((List.length rows <= 22)%nat -> xs = [] /\ ys = []).
Proof.
  unfold plotted in Hplot.
  destruct (read_series rows [] []) as [[xs0 ys0]| |] eqn:Hread;
    try discriminate Hplot.
  injection Hplot as <- <-.
  destruct (read_series_lengths rows [] [] xs0 ys0 Hread) as [Hx Hy].
  cbn [List.length Nat.add] in Hx, Hy.
  rewrite !py_slice_length, Hx, Hy. cbn [Nat.sub].
  split; [reflexivity|]. split; [reflexivity|].
  intros Hshort.
  assert (H0 : forall l : list Q, List.length l = List.length rows ->
                 py_slice 22 180 l = []).
  { intros l Hl. apply length_zero_iff_nil. rewrite py_slice_length, Hl. lia. }
  split; apply H0; assumption.
Qed.

Lemma plotted_series_match_witness :
  let rows := map (fun n => dict_row log_fields
                              (log_record (inject_Z (Z.of_nat n)) 3.7 1 3.7))
                  (seq 0 25) in
  let xs := [rounded 3 22; rounded 3 23; rounded 3 24] in
  let ys := [rounded 4 3.7; rounded 4 3.7; rounded 4 3.7] in
  plotted rows = Ok (xs, ys)
  /\ List.length xs = List.length ys
  /\ List.length xs = Nat.min 158 (List.length rows - 22)
  /\ ((List.length rows <= 22)%nat -> xs = [] /\ ys = []).
Proof.
  cbn zeta. split; [vm_compute; reflexivity|].
  apply (plotted_series_match
           (map (fun n => dict_row log_fields
                            (log_record (inject_Z (Z.of_nat n)) 3.7 1 3.7))
                (seq 0 25))
           [rounded 3 22; rounded 3 23; rounded 3 24]
           [rounded 4 3.7; rounded 4 3.7; rounded 4 3.7]).
  vm_compute. reflexivity.
Defined.

Lemma read_log_record (elapsed voltage amps power : Q)
  (rest : list row) (xs ys : list Q) :
  read_series
    (dict_row log_fields (log_record elapsed voltage amps power) :: rest) xs ys
  = read_series rest (xs ++ [rounded 3 elapsed]) (ys ++ [rounded 4 voltage]).
Proof.
  cbn [read_series]. unfold float_field.
  cbn [dict_row log_fields log_record getitem].
  change (String.eqb "elapsed_seconds" "elapsed_seconds") with true.
  change (String.eqb "elapsed_seconds" "voltage_volts") with false.
  change (String.eqb "voltage_volts" "voltage_volts") with true.
  cbn iota. unfold py_float.
  rewrite (format_fixed_reads 3 elapsed), (format_fixed_reads 4 voltage)
    by lia.
  reflexivity.
Qed.

Lemma read_log_records (records : list (Q * Q * Q * Q)) (xs ys : list Q) :
  exists xs' ys',
    read_series (map log_row records) xs ys = Ok (xs ++ xs', ys ++ ys')
    /\ List.length xs' = List.length records
    /\ List.length ys' = List.length records.
Proof.
  revert xs ys.
  induction records as [|[[[elapsed voltage] amps] power] records IH];
    intros xs ys.
  - exists [], []. cbn. now rewrite !app_nil_r.
  - cbn [map log_row]. rewrite read_log_record.
    destruct (IH (xs ++ [rounded 3 elapsed]) (ys ++ [rounded 4 voltage]))
      as (xs' & ys' & Hread & Hx & Hy).
    exists (rounded 3 elapsed :: xs'), (rounded 4 voltage :: ys').
    rewrite Hread, <- !app_assoc. cbn [app List.length].
    split; [reflexivity|]. split; congruence.
Qed.

(** X24.  The log is readable by plotting.py.  The rows [run] writes for its
    samples, under the header [initialize_log_file] writes, all convert in
    plotting.py's loop, whatever the values logged: the column names it looks
    up are in the header and the cells are numbers for [float].  The script
    gets one elapsed time and one voltage per record. *)
Theorem plotting_reads_log_record (records : list (Q * Q * Q * Q)) :
  exists xs ys,
    read_series (map log_row records) [] [] = Ok (xs, ys)
    /\ List.length xs = List.length records
    /\ List.length ys = List.length records.
Proof. exact (read_log_records records [] []). Qed.

(** ** The cadence of the log *)

(** What one pass appends, and the deadline it leaves. *)
Lemma tick_logged (E : env) (start_time next_log_time : Q) (s : state) :
  let o := tick E start_time next_log_time s in
  let now := clock E (calls s) in
  (logged_elapsed (events o) = []
   /\ forall next', res o = Ok next' -> next' = next_log_time)
  \/ (logged_elapsed (events o) = [now - start_time]
      /\ next_log_time <= now
      /\ forall next', res o = Ok next' ->
           next' = now + logging_interval (self s)).
Proof.
  cbn zeta.
  destruct (get_scheduled_current_returns (schedule (self s))
              (clock E (calls s) - start_time)) as [v Hv].
  unfold tick, time_time, measure.
  cbv [bind call ret lift get_self print].
  tick_cbn.
  destruct (fault E (calls s)); tick_cbn;
    [left; split; [reflexivity | discriminate]|].
  rewrite Hv. tick_cbn.
  destruct (fault E (S (calls s))); tick_cbn;
    [left; split; [reflexivity | discriminate]|].
  destruct (Qle_bool next_log_time (clock E (calls s))) eqn:Hdue; tick_cbn.
  - apply Qle_bool_iff in Hdue.
    do 4 (match goal with
          | |- context [fault ?E ?n] =>
              destruct (fault E n); tick_cbn;
              [left; split; [reflexivity | discriminate]|]
          end).
    right.
    repeat match goal with
           | |- context [fault ?E ?n] => destruct (fault E n); tick_cbn
           end;
      (split; [reflexivity|]); (split; [exact Hdue|]);
      intros next' H; try discriminate H; now injection H as <-.
  - left.
    repeat match goal with
           | |- context [fault ?E ?n] => destruct (fault E n); tick_cbn
           end;
      (split; [reflexivity|]);
      intros next' H; try discriminate H; now injection H as <-.
Qed.

Lemma logged_elapsed_app (l1 l2 : list event) :
  logged_elapsed (l1 ++ l2) = logged_elapsed l1 ++ logged_elapsed l2.
Proof. apply flat_map_app. Qed.

(** X25.  The loop writes at most one record per pass.  A pass that comes
    late - after several sampling intervals have gone by - is followed by one
    record and a deadline counted from that pass, never by a burst of the
    records that were missed: in [fuel] passes the log grows by at most [fuel]
    records. *)
Theorem loop_logs_once_per_pass (E : env) (fuel : nat)
  (start_time next_log_time : Q) (s : state) :
  (List.length
     (logged_elapsed (events (loop E fuel start_time next_log_time s)))
   <= fuel)%nat.
Proof.
  revert next_log_time s.
  induction fuel as [|fuel IH]; intros next_log_time s;
    destruct (running (self s)) eqn:Hrun;
    try (rewrite (loop_stopped E _ _ _ s Hrun); cbn; lia).
  - rewrite (loop_out_of_fuel E _ _ s Hrun). cbn. lia.
  - rewrite (loop_pass E _ _ _ s Hrun).
    pose proof (tick_logged E start_time next_log_time s) as Hlog.
    cbn zeta in Hlog.
    destruct (tick E start_time next_log_time s) as [[next'|e|] s1 evs1];
      cbn [res post events] in *.
    + specialize (IH next' s1).
      destruct (loop E fuel start_time next' s1) as [r s2 evs2].
      cbn [events] in *. rewrite logged_elapsed_app, length_app.
      destruct Hlog as [[-> _] | (-> & _)]; cbn [List.length]; lia.
    + destruct Hlog as [[-> _] | (-> & _)]; cbn [List.length]; lia.
    + destruct Hlog as [[-> _] | (-> & _)]; cbn [List.length]; lia.
Qed.

(** * With a standard output that can fail *)

(** ** Invariants of the restated program *)

Lemma stdout_keeps_load_tick (E : env) (start_time next_log_time : Q) :
  keeps_load (Stdout.tick E start_time next_log_time).
Proof.
  unfold Stdout.tick, Stdout.print, time_time, measure.
  repeat keeps_load_step.
Qed.

Lemma stdout_keeps_load_loop (E : env) (fuel : nat)
  (start_time next_log_time : Q) :
  keeps_load (Stdout.loop E fuel start_time next_log_time).
Proof.
  revert next_log_time. induction fuel as [|fuel IH]; intros next_log_time;
    cbn [Stdout.loop]; apply keeps_load_bind; auto with keeps; intros o;
    destruct (running o); auto with keeps.
  apply keeps_load_bind; [apply stdout_keeps_load_tick | intros next'; apply IH].
Qed.

Lemma stdout_keeps_load_session (E : env) (fuel : nat) :
  keeps_load (Stdout.session E fuel).
Proof.
  unfold Stdout.session, Stdout.initialize_log_file, Stdout.print, time_time.
  repeat first [apply stdout_keeps_load_loop | keeps_load_step].
Qed.

Lemma stdout_fault_fatal_tick (E : env) (start_time next_log_time : Q) :
  fault_fatal (Stdout.tick E start_time next_log_time).
Proof.
  unfold Stdout.tick, Stdout.print, time_time, measure.
  repeat fault_fatal_step.
Qed.

Lemma stdout_fault_fatal_loop (E : env) (fuel : nat)
  (start_time next_log_time : Q) :
  fault_fatal (Stdout.loop E fuel start_time next_log_time).
Proof.
  revert next_log_time. induction fuel as [|fuel IH]; intros next_log_time;
    cbn [Stdout.loop]; apply fault_fatal_bind; auto with fatal; intros o;
    destruct (running o); auto with fatal.
  apply fault_fatal_bind;
    [apply stdout_fault_fatal_tick | intros next'; apply IH].
Qed.

Lemma stdout_fault_fatal_session (E : env) (fuel : nat) :
  fault_fatal (Stdout.session E fuel).
Proof.
  unfold Stdout.session, Stdout.initialize_log_file, Stdout.print, time_time.
  repeat first [ apply stdout_fault_fatal_loop
               | apply fault_fatal_modify_self
               | fault_fatal_step ].
Qed.

Lemma stdout_print_events_all (P : event -> bool) (E : env) (m : message) :
  (forall r, P (Call (Say m) r) = true) -> events_all P (Stdout.print E m).
Proof.
  intros H. unfold Stdout.print.
  apply events_all_bind; [now apply events_all_call | intros _].
  apply events_all_ret.
Qed.

Lemma stdout_cleanup_events_all (P : event -> bool) (E : env) :
  (forall m r, P (Call (Say m) r) = true) ->
  (forall r, P (Call (SetCurrent 0) r) = true) ->
  (forall r, P (Call InputOff r) = true) ->
  events_all P (Stdout.cleanup E).
Proof.
  intros Hsay Hzero Hoff. unfold Stdout.cleanup.
  apply events_all_bind; [apply events_all_get_self | intros o].
  apply events_all_bind.
  - destruct (load o); [|apply events_all_ret].
    apply events_all_try_except.
    + unfold Stdout.turn_off.
      repeat first [ apply events_all_ret
                   | apply events_all_bind; [|intros _]
                   | apply events_all_call; intros ?;
                     first [apply Hsay | apply Hzero | apply Hoff] ].
    + intros e h He. destruct (is_Exception e); [|discriminate].
      injection He as <-.
      apply stdout_print_events_all; intros ?; apply Hsay.
  - intros _. apply events_all_bind; [apply events_all_modify_self | intros _].
    apply stdout_print_events_all; intros ?; apply Hsay.
Qed.

Lemma stdout_run_handler_events_all (P : event -> bool) (E : env) (e : exn)
  (h : M unit) :
  (forall m r, P (Call (Say m) r) = true) ->
  Stdout.run_handler E e = Some h -> events_all P h.
Proof.
  intros Hsay. destruct e; cbn; intros [= <-];
    repeat first [ apply events_all_ret
                 | apply events_all_raise
                 | apply events_all_bind; [|intros _]
                 | apply events_all_call; intros ?; apply Hsay ].
Qed.

(** ** The shape of a run *)

Lemma stdout_run_unfold (E : env) (fuel : nat) (s : state) :
  fault E (calls s) = None ->
  let g := Stdout.guarded E fuel (mkState (self s) (S (calls s))) in
  res g <> Timeout ->
  events (Stdout.run E fuel s)
  = Call (Say MsgConnecting) None
      :: events g ++ events (Stdout.cleanup E (post g))
  /\ res (Stdout.run E fuel s)
     = match res (Stdout.cleanup E (post g)) with
       | Ok _ => res g
       | Raise e => Raise e
       | Timeout => Timeout
       end.
Proof.
  intros Hsaid g. subst g.
  unfold Stdout.run. cbv [bind Stdout.print call ret try_finally].
  rewrite Hsaid. cbn [self calls app].
  destruct (Stdout.guarded E fuel _) as [[[]|e|] s1 evs1]; cbn [res post events];
    intros Hres; try (now contradiction Hres);
    destruct (Stdout.cleanup E s1) as [[[]|e'|] s2 evs2]; cbn [res events];
    split; reflexivity.
Qed.

(** What the handler of [run] does with exception [e]. *)
Lemma stdout_run_handler_outcome (E : env) (e : exn) (s : state) :
  match Stdout.run_handler E e with
  | Some h =>
      forallb says (events (h s)) = true
      /\ self (post (h s)) = self s
      /\ res (h s) <> Timeout
      /\ (is_Exception e = true ->
          events (h s) = [Call (Say (MsgError e)) (fault E (calls s))]
          /\ (fault E (calls s) = None -> res (h s) = Raise e))
  | None => is_Exception e = false
  end.
Proof.
  destruct e; cbn [Stdout.run_handler is_Exception]; try reflexivity;
    cbv [Stdout.print bind call ret raise];
    destruct (fault E (calls s)) as [e1|]; cbn;
    repeat split; try reflexivity; discriminate.
Qed.

(** The guarded part once the device has been acquired: the connect, the
    session, [__exit__], and what the handler writes. *)
Lemma stdout_guarded_shape (E : env) (fuel : nat) (s : state) :
  fault E (calls s) = None ->
  let sb := Stdout.session E fuel (connected s) in
  let g := Stdout.guarded E fuel s in
  res sb <> Timeout ->
  exists said,
    events g =
      (Call (Connect (port (self s))) None :: events sb)
      ++ Call Release (fault E (calls (post sb))) :: said
    /\ forallb says said = true
    /\ self (post g) = self (post sb)
    /\ res g <> Timeout
    /\ (forall e, res sb = Raise e ->
          fault E (calls (post sb)) = None ->
          is_Exception e = true ->
          said = [Call (Say (MsgError e)) (fault E (S (calls (post sb))))]
          /\ (fault E (S (calls (post sb))) = None -> res g = Raise e)).
Proof.
  intros Hconn sb g. subst sb g. unfold Stdout.guarded, try_except.
  rewrite (with_KELSerial_connected E _ s Hconn). unfold try_finally.
  destruct (Stdout.session E fuel (connected s)) as [rb sb evb].
  cbn [events res post].
  unfold release, bind, call, ret.
  assert (Hhandled : forall e0 evs0,
    let o := match Stdout.run_handler E e0 with
             | Some h =>
                 match h (mkState (self sb) (S (calls sb))) with
                 | mkOut r s2 evs2 => mkOut r s2 (evs0 ++ evs2)
                 end
             | None =>
                 mkOut (Raise e0) (mkState (self sb) (S (calls sb))) evs0
             end in
    exists said,
      events o = evs0 ++ said
      /\ forallb says said = true
      /\ self (post o) = self sb
      /\ res o <> Timeout
      /\ (is_Exception e0 = true ->
          said = [Call (Say (MsgError e0)) (fault E (S (calls sb)))]
          /\ (fault E (S (calls sb)) = None -> res o = Raise e0))).
  { intros e0 evs0.
    pose proof (stdout_run_handler_outcome E e0
                  (mkState (self sb) (S (calls sb)))) as Hh.
    destruct (Stdout.run_handler E e0) as [h|].
    - destruct Hh as (Hsays & Hself & Hres & Hexc).
      destruct (h _) as [r s2 evs2]. cbn [events post res self calls] in *.
      exists evs2. repeat split; try assumption; now apply Hexc.
    - exists []. cbn. rewrite app_nil_r.
      repeat split; try discriminate; congruence. }
  assert (Hassoc : forall r said,
            (Call (Connect (port (self s))) None :: evb ++ [Call Release r])
            ++ said
            = (Call (Connect (port (self s))) None :: evb)
              ++ Call Release r :: said).
  { intros r said. cbn [app]. now rewrite <- app_assoc. }
  destruct rb as [[]|e|]; [| |intros H; now contradiction H]; intros _;
    destruct (fault E (calls sb)) as [e'|] eqn:Hrel; cbn [res events post].
  - destruct (Hhandled e' (Call (Connect (port (self s))) None
                             :: evb ++ [Call Release (Some e')]))
      as (said & Hev & Hsays & Hself & Hres & _).
    exists said.
    split; [etransitivity; [exact Hev | apply Hassoc]|].
    split; [exact Hsays|]. split; [exact Hself|]. split; [exact Hres|].
    discriminate.
  - exists []. repeat split; try reflexivity; discriminate.
  - destruct (Hhandled e' (Call (Connect (port (self s))) None
                             :: evb ++ [Call Release (Some e')]))
      as (said & Hev & Hsays & Hself & Hres & _).
    exists said.
    split; [etransitivity; [exact Hev | apply Hassoc]|].
    split; [exact Hsays|]. split; [exact Hself|]. split; [exact Hres|].
    discriminate.
  - destruct (Hhandled e (Call (Connect (port (self s))) None
                            :: evb ++ [Call Release None]))
      as (said & Hev & Hsays & Hself & Hres & Hexc).
    exists said.
    split; [etransitivity; [exact Hev | apply Hassoc]|].
    split; [exact Hsays|]. split; [exact Hself|]. split; [exact Hres|].
    intros e0 [= <-] _ He0. exact (Hexc He0).
Qed.

(** A session that is still running leaves [run] running. *)
Lemma stdout_run_timeout (E : env) (fuel : nat) (s : state) :
  fault E (calls s) = None ->
  fault E (S (calls s)) = None ->
  let sb := Stdout.session E fuel (connected (mkState (self s) (S (calls s)))) in
  res sb = Timeout ->
  res (Stdout.run E fuel s) = Timeout
  /\ events (Stdout.run E fuel s) =
       Call (Say MsgConnecting) None
         :: Call (Connect (port (self s))) None :: events sb.
Proof.
  intros Hsaid Hconn sb. subst sb.
  unfold Stdout.run. cbv [bind Stdout.print call ret try_finally].
  rewrite Hsaid. cbn [self calls].
  unfold Stdout.guarded, try_except.
  rewrite (with_KELSerial_connected E _ (mkState (self s) (S (calls s))) Hconn).
  unfold try_finally.
  destruct (Stdout.session E fuel _) as [rb sb evb]. cbn [res events].
  intros ->. split; reflexivity.
Qed.

(** A run whose session has ended: the first line, the connect, the session,
    [__exit__], what the handler writes, [cleanup]. *)
Lemma stdout_run_shape (E : env) (fuel : nat) (s : state) :
  fault E (calls s) = None ->
  fault E (S (calls s)) = None ->
  let sb := Stdout.session E fuel (connected (mkState (self s) (S (calls s)))) in
  let s1 := at_cleanup E fuel s in
  res sb <> Timeout ->
  exists said,
    events (Stdout.run E fuel s) =
      (Call (Say MsgConnecting) None
         :: Call (Connect (port (self s))) None :: events sb)
      ++ Call Release (fault E (calls (post sb)))
      :: said ++ events (Stdout.cleanup E s1)
    /\ events (Stdout.run E fuel s) =
         (Call (Say MsgConnecting) None
            :: events (Stdout.guarded E fuel (mkState (self s) (S (calls s)))))
         ++ events (Stdout.cleanup E s1)
    /\ forallb says said = true
    /\ load (self s1) = Some (port (self s))
    /\ (forall e, res sb = Raise e ->
          fault E (calls (post sb)) = None ->
          is_Exception e = true ->
          said = [Call (Say (MsgError e)) (fault E (S (calls (post sb))))]
          /\ (fault E (S (calls (post sb))) = None ->
              res (Stdout.cleanup E s1) = Ok tt ->
              res (Stdout.run E fuel s) = Raise e)).
Proof.
  intros Hsaid Hconn sb s1 Hsb. subst s1. unfold at_cleanup.
  destruct (stdout_guarded_shape E fuel (mkState (self s) (S (calls s)))
              Hconn Hsb) as (said & Hev & Hsays & Hself & Hres & Hexc).
  fold sb in Hev, Hself, Hexc.
  destruct (stdout_run_unfold E fuel s Hsaid Hres) as [Hrun Hrunres].
  exists said.
  split.
  { rewrite Hrun, Hev. cbn [self port app]. rewrite <- !app_assoc.
    reflexivity. }
  split; [exact Hrun|].
  split; [exact Hsays|].
  split.
  { rewrite Hself. subst sb. rewrite stdout_keeps_load_session. reflexivity. }
  intros e He Hrel Hexn. destruct (Hexc e He Hrel Hexn) as [-> Hg].
  split; [reflexivity|]. intros Hrep Hclean.
  rewrite Hrunres, Hclean. now apply Hg.
Qed.

Lemma stdout_run_ended (E : env) (fuel : nat) (s : state) :
  fault E (calls s) = None ->
  fault E (S (calls s)) = None ->
  res (Stdout.run E fuel s) <> Timeout ->
  res (Stdout.session E fuel (connected (mkState (self s) (S (calls s)))))
    <> Timeout.
Proof.
  intros Hsaid Hconn Hexit Hsb. apply Hexit.
  now apply (stdout_run_timeout E fuel s Hsaid Hconn).
Qed.

(** ** [cleanup] *)

Ltac outside_calls E :=
  repeat first
    [ match goal with
      | |- context [fault E ?n] => destruct (fault E n) as [?e|] eqn:?Hf; cbn
      end
    | match goal with
      | |- context [is_Exception ?e] => destruct (is_Exception e) eqn:?He; cbn
      end ].

(** [cleanup] with a handle, by its first write. *)
Lemma stdout_cleanup_enters (E : env) (s : state) (h : string) :
  load (self s) = Some h ->
  let n := calls s in
  let evs := events (Stdout.cleanup E s) in
  (forall e, fault E n = Some e -> forallb says evs = true)
  /\ (fault E n = None ->
      exists rest,
        evs = Call (Say MsgTurningOff) None
                :: Call (SetCurrent 0) (fault E (S n)) :: rest
        /\ forallb (fun ev => negb (energizes ev)) rest = true
        /\ (fault E (S n) = None ->
            exists rest',
              rest = Call InputOff (fault E (S (S n))) :: rest'
              /\ forallb says rest' = true)).
Proof.
  intros Hload. cbn zeta.
  cbv [Stdout.cleanup Stdout.turn_off Stdout.print try_except bind get_self
       modify_self ret call].
  rewrite Hload. cbn [self calls]. split.
  - intros e0 H0. rewrite H0. cbn. outside_calls E; reflexivity.
  - intros H0. rewrite H0. cbn.
    destruct (fault E (S (calls s))) as [e1|] eqn:H1; cbn.
    + outside_calls E; eexists; (split; [reflexivity|]);
        (split; [reflexivity|]); discriminate.
    + destruct (fault E (S (S (calls s)))) as [e2|] eqn:H2; cbn;
        outside_calls E; eexists; (split; [reflexivity|]);
        (split; [reflexivity|]); intros _; eexists; split; reflexivity.
Qed.

(** The load after the two shutdown commands and any further writes. *)
Lemma device_after_says (d : device) (before after : list event) :
  forallb says after = true ->
  safe (device_after d
          (before ++ Call (SetCurrent 0) None :: Call InputOff None :: after))
    = true.
Proof.
  intros Hafter. apply device_after_shutdown.
  apply (forallb_weaken says); [|exact Hafter].
  intros [[] r|m]; (reflexivity || discriminate).
Qed.

(** When the standard output is gone, nothing is shut down.  Here the write
    of the first sample line fails (a closed pipe) and so does every write
    after it: the error line of the handler, the first line of [cleanup] and
    the line of its [except] clause.  [run] ends in that error without a
    shutdown command, the load drawing 1.0 A and [running] still true. *)
Lemma run_with_closed_stdout :
  let E := with_faults [(21%nat, OSError); (23%nat, OSError);
                        (24%nat, OSError); (25%nat, OSError)] in
  let o := Stdout.run E 5 fresh in
  res o = Raise OSError
  /\ skipn 20 (events o) =
       [Call (AppendLog "voltage_log.csv" (clock calm 15 - clock calm 14)
                3.7 3.7 3.7) None;
        Call (Say (MsgSample (clock calm 15 - clock calm 14) 3.7 3.7 3.7))
          (Some OSError);
        Call Release None;
        Call (Say (MsgError OSError)) (Some OSError);
        Call (Say MsgTurningOff) (Some OSError);
        Call (Say (MsgCleanupError OSError)) (Some OSError)]
  /\ device_after (mkDevice 0 false) (events o) = mkDevice 1.0 true
  /\ running (self (post o)) = true.
Proof. vm_compute. repeat split. Qed.

(** C1, amended.  Whenever [run] returns or raises after the device was
    acquired - after a user interrupt or any exception - [cleanup] has been
    entered first, with the handle in [self.load], and nothing but [cleanup]
    follows what the [try] block and its handlers did.  When the first line
    [cleanup] prints is written, the zero-current command is what comes next,
    after every other device command; the output-disable command follows
    unless the zero-current command raised; no energizing command follows;
    and when both commands succeeded the load is left with zero current and
    its output disabled.  When that first line cannot be written (the
    standard output is closed, or an interrupt lands in the write),
    [cleanup] sends no command at all. *)
Theorem run_exit_enters_cleanup (E : env) (fuel : nat) (s : state)
  (Hsaid : fault E (calls s) = None)
  (Hconn : fault E (S (calls s)) = None)
  (Hexit : res (Stdout.run E fuel s) <> Timeout) :
  let tried := Stdout.guarded E fuel (mkState (self s) (S (calls s))) in
  let s1 := at_cleanup E fuel s in
  let shutdown := events (Stdout.cleanup E s1) in
  let n := calls s1 in
  events (Stdout.run E fuel s)
    = (Call (Say MsgConnecting) None :: events tried) ++ shutdown
  /\ load (self s1) = Some (port (self s))
  /\ (forall e, fault E n = Some e -> forallb says shutdown = true)
  /\ (fault E n = None ->
      exists rest,
        shutdown = Call (Say MsgTurningOff) None
                     :: Call (SetCurrent 0) (fault E (S n)) :: rest
        /\ forallb (fun ev => negb (energizes ev)) rest = true
        /\ (fault E (S n) = None ->
            exists rest',
              rest = Call InputOff (fault E (S (S n))) :: rest'
              /\ forallb says rest' = true
              /\ (fault E (S (S n)) = None ->
                  forall d,
                    safe (device_after d (events (Stdout.run E fuel s)))
                      = true))).
Proof.
  pose proof (stdout_run_ended E fuel s Hsaid Hconn Hexit) as Hsb.
  destruct (stdout_run_shape E fuel s Hsaid Hconn Hsb)
    as (said & _ & Hev & _ & Hload & _).
  destruct (stdout_cleanup_enters E (at_cleanup E fuel s) _ Hload)
    as [Hmute Hcmd].
  cbn zeta in Hmute, Hcmd |- *.
  split; [exact Hev|]. split; [exact Hload|]. split; [exact Hmute|].
  intros H0. destruct (Hcmd H0) as (rest & Hrest & Hquiet & Hoff).
  exists rest. split; [exact Hrest|]. split; [exact Hquiet|].
  intros H1. destruct (Hoff H1) as (rest' & -> & Hsays).
  exists rest'. split; [reflexivity|]. split; [exact Hsays|].
  intros H2 d. rewrite Hev, Hrest, H1, H2.
  change (Call (Say MsgTurningOff) None :: Call (SetCurrent 0) None
            :: Call InputOff None :: rest')
    with ([Call (Say MsgTurningOff) None]
            ++ Call (SetCurrent 0) None :: Call InputOff None :: rest').
  rewrite app_assoc. now apply device_after_says.
Qed.

Lemma run_exit_enters_cleanup_witness :
  let E := with_faults [(23%nat, KeyboardInterrupt)] in
  let tried := Stdout.guarded E 5 (mkState (self fresh) 1) in
  let s1 := at_cleanup E 5 fresh in
  let shutdown := events (Stdout.cleanup E s1) in
  let n := calls s1 in
  n = 26%nat
  /\ res (Stdout.run E 5 fresh) = Ok tt
  /\ events (Stdout.run E 5 fresh)
      = (Call (Say MsgConnecting) None :: events tried) ++ shutdown
  /\ load (self s1) = Some (port (self fresh))
  /\ (forall e, fault E n = Some e -> forallb says shutdown = true)
  /\ (fault E n = None ->
      exists rest,
        shutdown = Call (Say MsgTurningOff) None
                     :: Call (SetCurrent 0) (fault E (S n)) :: rest
        /\ forallb (fun ev => negb (energizes ev)) rest = true
        /\ (fault E (S n) = None ->
            exists rest',
              rest = Call InputOff (fault E (S (S n))) :: rest'
              /\ forallb says rest' = true
              /\ (fault E (S (S n)) = None ->
                  forall d,
                    safe (device_after d (events (Stdout.run E 5 fresh)))
                      = true))).
Proof.
  cbn zeta. split; [vm_compute; reflexivity|].
  split; [vm_compute; reflexivity|].
  apply (run_exit_enters_cleanup
           (with_faults [(23%nat, KeyboardInterrupt)]) 5 fresh).
  - reflexivity.
  - reflexivity.
  - vm_compute. discriminate.
Defined.

(** X12.  What [cleanup] can end with.  It sends nothing but the two shutdown
    commands and writes to the standard output; when it returns, [running] is
    false; and an exception it ends with was raised by its last outside call
    - which, for an [Exception], is a write to the standard output: an
    [Exception] of the zero-current or the output-disable command never
    leaves [cleanup], only a [KeyboardInterrupt] or [SystemExit] landing in
    them does. *)
Theorem cleanup_raises_only_from_stdout (E : env) (s : state) :
  let o := Stdout.cleanup E s in
  res o <> Timeout
  /\ forallb after_session (events o) = true
  /\ (res o = Ok tt -> running (self (post o)) = false)
  /\ (forall e, res o = Raise e ->
        exists before c,
          events o = before ++ [Call c (Some e)]
          /\ (is_Exception e = true -> exists m, c = Say m)).
Proof.
  cbn zeta.
  split; [|split; [apply stdout_cleanup_events_all; reflexivity|]].
  - cbv [Stdout.cleanup Stdout.turn_off Stdout.print try_except bind get_self
         modify_self ret call].
    destruct (load (self s)); cbn; outside_calls E; discriminate.
  - cbv [Stdout.cleanup Stdout.turn_off Stdout.print try_except bind get_self
         modify_self ret call].
    destruct (load (self s)); cbn; outside_calls E;
      (split; [first [reflexivity | discriminate]|]);
      intros e' He'; try discriminate He'; injection He' as <-;
      match goal with
      | |- exists before c, ?l = _ /\ _ =>
          exists (removelast l), 
                 (match last l (Print MsgStopping) with
                  | Call c _ => c
                  | Print _ => Release
                  end)
      end; cbn [removelast last]; (split; [reflexivity|]);
      intros Hx; first [congruence | eexists; reflexivity].
Qed.

(** X16.  [cleanup] talks to a handle that has been given back.  Whenever
    [run] is left after the device was acquired, [__exit__] of the [with]
    block has been called before [cleanup] is entered - with the handle still
    in [self.load] - and every outside call that follows [__exit__] is a write
    to the standard output or one of the two shutdown commands. *)
Theorem run_cleans_up_after_release (E : env) (fuel : nat) (s : state)
  (Hsaid : fault E (calls s) = None)
  (Hconn : fault E (S (calls s)) = None)
  (Hexit : res (Stdout.run E fuel s) <> Timeout) :
  let s1 := at_cleanup E fuel s in
  exists before r said,
    events (Stdout.run E fuel s) =
      before ++ Call Release r :: said ++ events (Stdout.cleanup E s1)
    /\ forallb says said = true
    /\ load (self s1) = Some (port (self s))
    /\ forallb after_session (said ++ events (Stdout.cleanup E s1)) = true.
Proof.
  pose proof (stdout_run_ended E fuel s Hsaid Hconn Hexit) as Hsb.
  destruct (stdout_run_shape E fuel s Hsaid Hconn Hsb)
    as (said & Hev & _ & Hsays & Hload & _).
  cbn zeta. eexists _, _, said. split; [exact Hev|].
  split; [exact Hsays|]. split; [exact Hload|].
  rewrite forallb_app. apply andb_true_iff. split.
  - apply (forallb_weaken says); [|exact Hsays].
    intros [[] r|m]; (reflexivity || discriminate).
  - apply stdout_cleanup_events_all; reflexivity.
Qed.

Lemma run_cleans_up_after_release_witness :
  let E := with_faults [(17%nat, DeviceError)] in
  let s1 := at_cleanup E 5 fresh in
  exists before r said,
    events (Stdout.run E 5 fresh) =
      before ++ Call Release r :: said ++ events (Stdout.cleanup E s1)
    /\ forallb says said = true
    /\ load (self s1) = Some (port (self fresh))
    /\ forallb after_session (said ++ events (Stdout.cleanup E s1)) = true.
Proof.
  apply (run_cleans_up_after_release
           (with_faults [(17%nat, DeviceError)]) 5 fresh).
  - reflexivity.
  - reflexivity.
  - vm_compute. discriminate.
Defined.

(** ** A failed append *)

(** Where a failed append sits in a list whose front holds no failed call
    and whose back holds no append. *)
Lemma failed_append_position (front back before after : list event)
  (x y : event) :
  front ++ x :: back = before ++ y :: after ->
  forallb ok_event front = true ->
  forallb no_append back = true ->
  ok_event y = false ->
  no_append y = false ->
  before = front /\ y = x /\ after = back.
Proof.
  revert before. induction front as [|p front IH]; intros before H Hok Hback Hy Hy'.
  - destruct before as [|b before]; cbn [app] in H.
    + injection H as -> ->. repeat split.
    + injection H as _ H. exfalso. rewrite H, forallb_app in Hback.
      cbn [forallb] in Hback. rewrite Hy' in Hback.
      rewrite andb_false_r in Hback. discriminate.
  - cbn [forallb] in Hok. apply andb_true_iff in Hok as [Hp Hok].
    destruct before as [|b before]; cbn [app] in H.
    + injection H as -> _. congruence.
    + injection H as -> H.
      destruct (IH before H Hok Hback Hy Hy') as (-> & -> & ->).
      repeat split.
Qed.

(** Without a session nothing is written to the log. *)
Lemma stdout_run_without_session (E : env) (fuel : nat) (s : state) :
  fault E (calls s) <> None \/ fault E (S (calls s)) <> None ->
  forallb no_append (events (Stdout.run E fuel s)) = true.
Proof.
  intros Hfail.
  unfold Stdout.run. cbv [bind Stdout.print call ret].
  destruct (fault E (calls s)) as [e0|] eqn:H0; [reflexivity|].
  destruct Hfail as [Hfail|Hfail]; [now contradiction Hfail|].
  destruct (fault E (S (calls s))) as [e1|] eqn:H1;
    [|now contradiction Hfail].
  cbn [self calls].
  pose proof (events_all_try_finally no_append
                (Stdout.guarded E fuel) (Stdout.cleanup E)) as Hall.
  assert (Hg : events_all no_append (Stdout.guarded E fuel)
               \/ forallb no_append
                    (events (Stdout.guarded E fuel
                               (mkState (self s) (S (calls s))))) = true).
  { right. unfold Stdout.guarded, try_except.
    rewrite (with_KELSerial_connect_fails E _
               (mkState (self s) (S (calls s))) e1 H1).
    destruct (Stdout.run_handler E e1) as [h|] eqn:Hh; [|reflexivity].
    pose proof (stdout_run_handler_events_all no_append E e1 h
                  (fun _ _ => eq_refl) Hh
                  (mkState (self s) (S (S (calls s))))) as Hhe.
    cbn [self calls]. destruct (h _) as [r s2 evs2]. cbn [events] in *.
    exact Hhe. }
  destruct Hg as [Hg|Hg].
  - specialize (Hall Hg (stdout_cleanup_events_all no_append E
                           (fun _ _ => eq_refl) (fun _ => eq_refl)
                           (fun _ => eq_refl))
                     (mkState (self s) (S (calls s)))).
    destruct (try_finally _ _ _). exact Hall.
  - unfold try_finally.
    destruct (Stdout.guarded E fuel _) as [r s1 evs1]. cbn [events] in Hg.
    pose proof (stdout_cleanup_events_all no_append E
                  (fun _ _ => eq_refl) (fun _ => eq_refl)
                  (fun _ => eq_refl) s1) as Hc.
    destruct r as [[]|e|]; cbn [events app forallb no_append];
      try exact Hg;
      destruct (Stdout.cleanup E s1) as [[[]|e'|] s2 evs2];
      cbn [events app forallb no_append] in *;
      now rewrite forallb_app, Hg, Hc.
Qed.

(** C4, amended.  An error raised while appending a measurement record is
    not handled inside the control loop.  The failed append is the last thing
    the loop does: the next outside call is [__exit__] of the [with] block,
    and only writes to the standard output and the two shutdown commands
    follow - no further pass is made.  When [__exit__] returns and the error
    is an [Exception], the handler of [run] writes the error line, [cleanup]
    runs next, and when that line was written and [cleanup] returns, [run]
    ends raising the error to its caller. *)
Theorem append_error_ends_session (E : env) (fuel : nat) (s : state)
  (before after : list event) (path : string)
  (elapsed voltage amps power : Q) (e : exn)
  (Hevs : events (Stdout.run E fuel s) =
            before
            ++ Call (AppendLog path elapsed voltage amps power) (Some e)
            :: after) :
  let s1 := at_cleanup E fuel s in
  exists released rest,
    after = Call Release released :: rest
    /\ forallb after_session rest = true
    /\ (released = None -> is_Exception e = true ->
        exists reported,
          rest = Call (Say (MsgError e)) reported
                   :: events (Stdout.cleanup E s1)
          /\ load (self s1) = Some (port (self s))
          /\ (reported = None ->
              res (Stdout.cleanup E s1) = Ok tt ->
              res (Stdout.run E fuel s) = Raise e)).
Proof.
  cbn zeta.
  assert (Happend : forallb no_append (events (Stdout.run E fuel s)) = true
                    -> False).
  { rewrite Hevs, forallb_app. cbn [forallb no_append].
    rewrite andb_false_r. discriminate. }
  destruct (fault E (calls s)) as [e0|] eqn:Hsaid.
  { exfalso. apply Happend, stdout_run_without_session. left. congruence. }
  destruct (fault E (S (calls s))) as [e0|] eqn:Hconn.
  { exfalso. apply Happend, stdout_run_without_session. right. congruence. }
  pose proof (stdout_fault_fatal_session E fuel
                (connected (mkState (self s) (S (calls s))))) as Hfl.
  pose proof (stdout_run_timeout E fuel s Hsaid Hconn) as Hout.
  pose proof (stdout_run_shape E fuel s Hsaid Hconn) as Hshape.
  cbn zeta in Hout, Hshape. unfold fails_last in Hfl.
  assert (Hafter : forall said s1,
            forallb says said = true ->
            forallb after_session (said ++ events (Stdout.cleanup E s1))
              = true).
  { intros said s1 Hsays. rewrite forallb_app. apply andb_true_iff. split.
    - apply (forallb_weaken says); [|exact Hsays].
      intros [[] r|m]; (reflexivity || discriminate).
    - apply stdout_cleanup_events_all; reflexivity. }
  assert (Hquiet : forall l,
            forallb after_session l = true -> forallb no_append l = true).
  { intros l. apply forallb_weaken.
    intros [[] r|m]; (reflexivity || discriminate). }
  destruct (res (Stdout.session E fuel _)) as [[]|e1|] eqn:Hres.
  - (* a session that returned holds no failed call *)
    destruct (Hshape ltac:(discriminate)) as (said & Hev & _ & Hsays & _).
    exfalso. rewrite Hev in Hevs.
    assert (Hfront : forallb ok_event
                       (Call (Say MsgConnecting) None
                          :: Call (Connect (port (self s))) None
                          :: events (Stdout.session E fuel
                                       (connected
                                          (mkState (self s) (S (calls s))))))
                     = true) by exact Hfl.
    destruct (failed_append_position _ _ _ _ _ _ Hevs Hfront
                (Hquiet _ (Hafter said _ Hsays)) eq_refl eq_refl)
      as (_ & Hx & _).
    discriminate Hx.
  - destruct Hfl as (front & c & Hsession & Hok).
    destruct (Hshape ltac:(discriminate))
      as (said & Hev & _ & Hsays & Hload & Hexc).
    rewrite Hsession in Hev. rewrite Hev in Hevs.
    rewrite !app_comm_cons, <- app_assoc in Hevs. cbn [app] in Hevs.
    assert (Hfront : forallb ok_event
                       (Call (Say MsgConnecting) None
                          :: Call (Connect (port (self s))) None :: front)
                     = true) by exact Hok.
    assert (Hback : forallb no_append
                      (Call Release
                         (fault E (calls (post (Stdout.session E fuel
                            (connected (mkState (self s) (S (calls s))))))))
                       :: said
                          ++ events (Stdout.cleanup E (at_cleanup E fuel s)))
                    = true).
    { cbn [forallb no_append]. exact (Hquiet _ (Hafter said _ Hsays)). }
    destruct (failed_append_position
                (Call (Say MsgConnecting) None
                   :: Call (Connect (port (self s))) None :: front)
                _ _ _ (Call c (Some e1)) _ Hevs Hfront Hback
                eq_refl eq_refl) as (_ & Hx & ->).
    injection Hx as _ <-.
    eexists _, _. split; [reflexivity|].
    split; [exact (Hafter said _ Hsays)|].
    intros Hrel Hexn.
    destruct (Hexc e eq_refl Hrel Hexn) as [-> Hraise].
    eexists. split; [reflexivity|]. split; [exact Hload|].
    exact Hraise.
  - (* a session that is still running holds no failed call *)
    destruct (Hout eq_refl) as [_ Hev]. exfalso.
    assert (Hallok : forallb ok_event (events (Stdout.run E fuel s)) = true)
      by (rewrite Hev; exact Hfl).
    rewrite Hevs, forallb_app in Hallok. cbn [forallb ok_event] in Hallok.
    rewrite andb_false_r in Hallok. discriminate.
Qed.

Lemma append_error_ends_session_witness :
  let E := with_faults [(20%nat, OSError)] in
  let evs := events (Stdout.run E 5 fresh) in
  let s1 := at_cleanup E 5 fresh in
  nth_error evs 20
    = Some (Call (AppendLog "voltage_log.csv" (clock calm 15 - clock calm 14)
                    3.7 3.7 3.7) (Some OSError))
  /\ res (Stdout.run E 5 fresh) = Raise OSError
  /\ exists released rest,
       skipn 21 evs = Call Release released :: rest
       /\ forallb after_session rest = true
       /\ (released = None -> is_Exception OSError = true ->
           exists reported,
             rest = Call (Say (MsgError OSError)) reported
                      :: events (Stdout.cleanup E s1)
             /\ load (self s1) = Some (port (self fresh))
             /\ (reported = None ->
                 res (Stdout.cleanup E s1) = Ok tt ->
                 res (Stdout.run E 5 fresh) = Raise OSError)).
Proof.
  cbn zeta. split; [vm_compute; reflexivity|].
  split; [vm_compute; reflexivity|].
  apply (append_error_ends_session
           (with_faults [(20%nat, OSError)]) 5 fresh
           (firstn 20 (events (Stdout.run (with_faults [(20%nat, OSError)])
                                 5 fresh)))
           (skipn 21 (events (Stdout.run (with_faults [(20%nat, OSError)])
                                5 fresh)))
           "voltage_log.csv" (clock calm 15 - clock calm 14) 3.7 3.7 3.7
           OSError).
  vm_compute. reflexivity.
Defined.
